(** * Configi_DZ: the Variant 24 configuration compiler ([dz/config_parser_v24.py])

    A shallow embedding of the pipeline
      text -> tokens -> parse tree -> transformed Python value -> XML text
    together with the properties of it that the specification states, and
    further properties that the code itself shows.

    Conventions of the model.
    - Text is a [string] of bytes (the UTF-8 encoding of the file).  All the
      characters the grammar looks at are ASCII; bytes above 127 can only
      occur inside string literals and comments, where they are carried
      through unchanged.  (Decimal digits outside ASCII, which Python's [\d]
      also accepts, are outside the model.)
    - Python integers are [Z]: they are unbounded.  Interpreter resource
      limits (recursion depth, the optional digit limit of int/str
      conversions) are not part of the program and are not modelled:
      [py_int] and [py_str_int] are the mathematical conversions, which are
      CPython's up to [int_max_str_digits] digits.  The statements that
      depend on the limit carry it as a hypothesis.
    - [repr] is CPython's on ASCII text; of the characters outside ASCII it
      is CPython's on the printable ones, which it leaves as they are.
    - Element names are ASCII names without a colon ([xml_name_ok]), the
      only ones the program makes from a parsed file; for other keys of a
      dictionary the model of the XML parser makes no claim.
    - A Python [dict] is an association list in insertion order with unique
      keys; assignment to an existing key replaces the value in place.
    - Exceptions are values of [error]; fallible functions return [result].
    - Lark and the XML modules of the standard library are not part of the
      program.  They are modelled by what they do with what this program
      hands them: the lexer by the regular expressions of the terminals,
      the LALR parser by a pushdown automaton that is proved to accept the
      language of the grammar ([parse_items_derives]), the transformer by
      its bottom-up traversal, the XML writer by its output. *)

From Stdlib Require Import String Ascii List ZArith Lia Bool Arith.
From Stdlib Require Import DecimalString DecimalPos.
Import ListNotations.

Local Open Scope list_scope.
Local Open Scope string_scope.

(** ** Characters and strings *)

Definition nl : string := String "010"%char "".
Definition dq : string := String "034"%char "".

Definition code (c : ascii) : nat := nat_of_ascii c.

Definition in_range (lo hi : nat) (c : ascii) : bool :=
  (lo <=? code c)%nat && (code c <=? hi)%nat.

Definition is_digit (c : ascii) : bool := in_range 48 57 c.
Definition is_upper (c : ascii) : bool := in_range 65 90 c.
Definition is_lower (c : ascii) : bool := in_range 97 122 c.
Definition is_underscore (c : ascii) : bool := Ascii.eqb c "_".

(** [span p s] splits [s] after its longest prefix whose characters all
    satisfy [p]: a greedy [p*]. *)
Fixpoint span (p : ascii -> bool) (s : string) : string * string :=
  match s with
  | "" => ("", "")
  | String c r =>
      if p c then let (a, b) := span p r in (String c a, b) else ("", s)
  end.

Fixpoint forallb_str (p : ascii -> bool) (s : string) : bool :=
  match s with
  | "" => true
  | String c r => p c && forallb_str p r
  end.

Fixpoint existsb_str (p : ascii -> bool) (s : string) : bool :=
  match s with
  | "" => false
  | String c r => p c || existsb_str p r
  end.

(** [str.startswith] *)
Fixpoint startswith (pre s : string) : bool :=
  match pre, s with
  | "", _ => true
  | String a p, String b r => Ascii.eqb a b && startswith p r
  | String _ _, "" => false
  end.

Fixpoint drop (n : nat) (s : string) : string :=
  match n, s with
  | O, _ => s
  | S k, String _ r => drop k r
  | S _, "" => ""
  end.

(** [needle in s] *)
Fixpoint contains (needle s : string) : bool :=
  startswith needle s ||
  match s with
  | "" => false
  | String _ r => contains needle r
  end.

(** [s.replace(c, by)] for a one-character pattern *)
Fixpoint replace_char (c : ascii) (by_ : string) (s : string) : string :=
  match s with
  | "" => ""
  | String a r =>
      (if Ascii.eqb a c then by_ else String a "") ++ replace_char c by_ r
  end.

Fixpoint rev_str_acc (s acc : string) : string :=
  match s with
  | "" => acc
  | String c r => rev_str_acc r (String c acc)
  end.

Definition rev_str (s : string) : string := rev_str_acc s "".

(** The ASCII characters [str.strip()] removes. *)
Definition is_py_space (c : ascii) : bool :=
  in_range 9 13 c || in_range 28 32 c.

Fixpoint lstrip (s : string) : string :=
  match s with
  | "" => ""
  | String c r => if is_py_space c then lstrip r else s
  end.

Definition strip (s : string) : string :=
  rev_str (lstrip (rev_str (lstrip s))).

(** [sep.join(parts)] *)
Fixpoint join (sep : string) (parts : list string) : string :=
  match parts with
  | [] => ""
  | [p] => p
  | p :: ps => p ++ sep ++ join sep ps
  end.

(** ** Python integers *)

(** [str(n)] for an [int]: its shortest decimal numeral.  (CPython raises
    [ValueError] when the numeral has more than [int_max_str_digits]
    digits.) *)
Definition py_str_int (z : Z) : string := NilZero.string_of_int (Z.to_int z).

(** [int(s)] on an optional sign followed by ASCII digits, the shape of a
    NUMBER token in a text of ASCII characters; [None] is [ValueError].
    The digits are read left to right, most significant first.  (CPython
    also raises [ValueError] when there are more than [int_max_str_digits]
    digits.) *)
Definition digit_value (c : ascii) : option Z :=
  if is_digit c then Some (Z.of_nat (code c - 48)) else None.

Fixpoint digits_acc (s : string) (acc : Z) : option Z :=
  match s with
  | "" => Some acc
  | String c r =>
      match digit_value c with
      | Some d => digits_acc r (10 * acc + d)
      | None => None
      end
  end.

Definition digits_int (s : string) : option Z :=
  match s with
  | "" => None
  | _ => digits_acc s 0
  end.

Definition py_int (s : string) : option Z :=
  match s with
  | "" => None
  | String c r =>
      if Ascii.eqb c "+" then digits_int r
      else if Ascii.eqb c "-" then option_map Z.opp (digits_int r)
      else digits_int s
  end.

(** ** Python values

    The values the transformer builds and the emitter consumes: [int],
    [str], [list], the 2-tuple [(name, value)] that [assign_const] returns,
    and [dict] with string keys. *)

#[warnings="-register-all"]
Inductive pyobj : Type :=
| PInt (z : Z)
| PStr (s : string)
| PList (items : list pyobj)
| PTuple (name : string) (value : pyobj)
| PDict (entries : list (string * pyobj)).

(** *** Dictionaries *)

Section Dict.
Variable V : Type.

Definition dict := list (string * V).

(** [k in d] *)
Fixpoint dict_mem (k : string) (d : dict) : bool :=
  match d with
  | [] => false
  | (k', _) :: d' => String.eqb k' k || dict_mem k d'
  end.

(** [d[k]]; [None] is [KeyError] *)
Fixpoint dict_get (k : string) (d : dict) : option V :=
  match d with
  | [] => None
  | (k', v) :: d' => if String.eqb k' k then Some v else dict_get k d'
  end.

(** [d[k] = v]: an existing key keeps its place and gets the new value, a
    new key goes to the end. *)
Fixpoint dict_set (k : string) (v : V) (d : dict) : dict :=
  match d with
  | [] => [(k, v)]
  | (k', v') :: d' =>
      if String.eqb k' k then (k', v) :: d' else (k', v') :: dict_set k v d'
  end.

Definition dict_keys (d : dict) : list string := map fst d.
End Dict.

Arguments dict_mem {V} k d.
Arguments dict_get {V} k d.
Arguments dict_set {V} k v d.
Arguments dict_keys {V} d.

(** *** [repr] and [str] *)

Definition hex_digit (n : nat) : ascii :=
  if (n <? 10)%nat then ascii_of_nat (48 + n) else ascii_of_nat (87 + n).

(** One character of [repr(s)]: the backslash and the quote are escaped,
    the control characters of ASCII are written as escapes, every other
    byte is left as it is. *)
Definition repr_char (quote : ascii) (c : ascii) : string :=
  if Ascii.eqb c "\" then "\\"
  else if Ascii.eqb c quote then String "\" (String c "")
  else if Ascii.eqb c "009" then "\t"
  else if Ascii.eqb c "010" then "\n"
  else if Ascii.eqb c "013" then "\r"
  else if (code c <? 32)%nat || (code c =? 127)%nat then
    "\x" ++ String (hex_digit (code c / 16)) (String (hex_digit (code c mod 16)) "")
  else String c "".

Fixpoint concat_map_char (f : ascii -> string) (s : string) : string :=
  match s with
  | "" => ""
  | String c r => f c ++ concat_map_char f r
  end.

(** [repr(s)] for a [str]: single quotes unless the text has a single quote
    and no double quote. *)
Definition repr_str (s : string) : string :=
  let quote : ascii :=
    if existsb_str (Ascii.eqb "'") s && negb (existsb_str (Ascii.eqb "034") s)
    then "034"%char else "'"%char in
  String quote (concat_map_char (repr_char quote) s ++ String quote "").

Fixpoint py_repr (o : pyobj) : string :=
  match o with
  | PInt z => py_str_int z
  | PStr s => repr_str s
  | PList l => "[" ++ join ", " (map py_repr l) ++ "]"
  | PTuple n v => "(" ++ repr_str n ++ ", " ++ py_repr v ++ ")"
  | PDict d =>
      "{" ++ join ", " (map (fun kv => repr_str (fst kv) ++ ": " ++ py_repr (snd kv)) d) ++ "}"
  end.

(** [str(o)] *)
Definition py_str (o : pyobj) : string :=
  match o with
  | PStr s => s
  | _ => py_repr o
  end.

(** ** Lexer

    The terminals of the grammar.  The keyword and punctuation literals are
    the anonymous terminals Lark names DEF, EQUAL, LBRACE, RBRACE and COMMA.
    At any position at most one terminal can match (they start with
    different characters, and a sign starts a NUMBER only when a digit
    follows it; see [terminals_disjoint]), so the order in which the
    matchers are tried and the restriction of the contextual lexer to the
    terminals the parser accepts do not change the token stream of an
    accepted input. *)

Inductive terminal : Type :=
| DEF | EQUAL | LBRACE | RBRACE | COMMA
| NAME | NUMBER | STRING_DOUBLE
| QUESTION_MARK | LBRACKET | RBRACKET
| COMMENT_SINGLE | COMMENT_MULTI | WS.

Record Token : Type := mkToken { type : terminal; value : string }.

(** A matcher returns the lexeme and the rest of the text. *)
Definition matcher : Type := string -> option (string * string).

Definition match_literal (lit : string) : matcher := fun s =>
  if startswith lit s then Some (lit, drop (String.length lit) s) else None.

(** NAME: /[_A-Z][_a-zA-Z0-9]*/ *)
Definition is_name_start (c : ascii) : bool := is_underscore c || is_upper c.
Definition is_name_char (c : ascii) : bool :=
  is_underscore c || is_lower c || is_upper c || is_digit c.

Definition match_NAME : matcher := fun s =>
  match s with
  | String c r =>
      if is_name_start c
      then let (a, b) := span is_name_char r in Some (String c a, b)
      else None
  | "" => None
  end.

(** NUMBER: /[+-]?\d+/ *)
Definition is_sign (c : ascii) : bool := Ascii.eqb c "+" || Ascii.eqb c "-".

Definition match_digits : matcher := fun s =>
  match span is_digit s with
  | ("", _) => None
  | (ds, rest) => Some (ds, rest)
  end.

Definition match_NUMBER : matcher := fun s =>
  match s with
  | String c r =>
      if is_sign c
      then match match_digits r with
           | Some (ds, rest) => Some (String c ds, rest)
           | None => None
           end
      else match_digits s
  | "" => None
  end.

(** STRING_DOUBLE: a double quote, characters other than a double quote, a
    double quote. *)
Definition not_dquote (c : ascii) : bool := negb (Ascii.eqb c "034").

Definition match_STRING_DOUBLE : matcher := fun s =>
  match s with
  | String c r =>
      if Ascii.eqb c "034"
      then match span not_dquote r with
           | (body, String q rest) => Some (String c (body ++ String q ""), rest)
           | (_, "") => None
           end
      else None
  | "" => None
  end.

(** COMMENT_SINGLE: /--.*/ ; the dot matches everything but a line feed. *)
Definition not_newline (c : ascii) : bool := negb (Ascii.eqb c "010").

Definition match_COMMENT_SINGLE : matcher := fun s =>
  if startswith "--" s
  then let (body, rest) := span not_newline (drop 2 s) in Some ("--" ++ body, rest)
  else None.

(** COMMENT_MULTI: /\|#[\s\S]*?#\|/ ; the shortest text up to the first
    closing mark. *)
Fixpoint until_close (s : string) : option (string * string) :=
  match s with
  | "" => None
  | String c r =>
      if startswith "#|" s then Some ("#|", drop 2 s)
      else match until_close r with
           | Some (a, b) => Some (String c a, b)
           | None => None
           end
  end.

Definition match_COMMENT_MULTI : matcher := fun s =>
  if startswith "|#" s
  then match until_close (drop 2 s) with
       | Some (body, rest) => Some ("|#" ++ body, rest)
       | None => None
       end
  else None.

(** WS (common.WS): /[ \t\f\r\n]/+ *)
Definition is_ws (c : ascii) : bool :=
  Ascii.eqb c " " || Ascii.eqb c "009" || Ascii.eqb c "012"
  || Ascii.eqb c "013" || Ascii.eqb c "010".

Definition match_WS : matcher := fun s =>
  match span is_ws s with
  | ("", _) => None
  | (w, rest) => Some (w, rest)
  end.

Definition terminals : list (terminal * matcher) :=
  [ (DEF, match_literal "def");
    (EQUAL, match_literal "=");
    (LBRACE, match_literal "{");
    (RBRACE, match_literal "}");
    (COMMA, match_literal ",");
    (QUESTION_MARK, match_literal "?");
    (LBRACKET, match_literal "[");
    (RBRACKET, match_literal "]");
    (NAME, match_NAME);
    (NUMBER, match_NUMBER);
    (STRING_DOUBLE, match_STRING_DOUBLE);
    (COMMENT_SINGLE, match_COMMENT_SINGLE);
    (COMMENT_MULTI, match_COMMENT_MULTI);
    (WS, match_WS) ].

(** The first terminal that matches at the start of [s]. *)
Fixpoint first_match (ts : list (terminal * matcher)) (s : string)
  : option (Token * string) :=
  match ts with
  | [] => None
  | (t, m) :: ts' =>
      match m s with
      | Some (lexeme, rest) => Some (mkToken t lexeme, rest)
      | None => first_match ts' s
      end
  end.

Definition next_token : string -> option (Token * string) := first_match terminals.

(** All the tokens of a text, the ignored ones included.  [None] is a
    lexical error (no terminal matches at some position).  Every token takes
    at least one character, so [String.length s] steps always suffice (see
    [lex_fuel_enough]). *)
Fixpoint lex_fuel (fuel : nat) (s : string) : option (list Token) :=
  match s with
  | "" => Some []
  | _ =>
      match fuel with
      | O => None
      | S fuel' =>
          match next_token s with
          | None => None
          | Some (tok, rest) =>
              match lex_fuel fuel' rest with
              | Some toks => Some (tok :: toks)
              | None => None
              end
          end
      end
  end.

Definition lex_all (s : string) : option (list Token) :=
  lex_fuel (String.length s) s.

(** [%ignore WS], [%ignore COMMENT_SINGLE], [%ignore COMMENT_MULTI] *)
Definition ignored (t : terminal) : bool :=
  match t with
  | WS | COMMENT_SINGLE | COMMENT_MULTI => true
  | _ => false
  end.

Definition significant (toks : list Token) : list Token :=
  filter (fun tok => negb (ignored (type tok))) toks.

(** The token stream the parser sees. *)
Definition lex (s : string) : option (list Token) :=
  option_map significant (lex_all s).

(** ** Errors *)

(** Exceptions raised inside a transformer callback. *)
Inductive exn : Type :=
| TypeError (msg : string)
| ValueError (msg : string)
| KeyError (key : string).

Definition exn_str (e : exn) : string :=
  match e with
  | TypeError msg => msg
  | ValueError msg => msg
  | KeyError key => repr_str key
  end.

(** The exceptions [main] distinguishes: [UnexpectedInput] from the parser,
    [VisitError] from the transformer (a callback's exception wrapped with
    the rule it was processing), and any other exception, here the
    [ExpatError] of the XML re-parse. *)
Inductive error : Type :=
| UnexpectedInput
| VisitError (rule : string) (orig_exc : exn)
| ExpatError.

Inductive result (A : Type) : Type :=
| Ok (a : A)
| Raise (e : error).

Arguments Ok {A} a.
Arguments Raise {A} e.

Definition bind {A B : Type} (r : result A) (k : A -> result B) : result B :=
  match r with
  | Ok a => k a
  | Raise e => Raise e
  end.

Notation "x <- r ;; k" := (bind r (fun x => k))
  (at level 61, r at next level, right associativity).
Notation "' p <- r ;; k" := (bind r (fun x => let p := x in k))
  (at level 61, p pattern, r at next level, right associativity).

(** ** Parser

    The parse trees of the grammar, named by rule alias as Lark names them.
    Anonymous tokens (the keyword and the punctuation) are filtered out of
    the children; named terminals are kept. *)

#[warnings="-register-all"]
Inductive Tree : Type :=
| T_start (children : list Tree)
| T_assign_const (name_token : Token) (child : Tree)
| T_resolve_const (question_mark lbracket name_token rbracket : Token)
| T_array (children : list Tree)
| T_number (token : Token)
| T_string (token : Token).

(** The parser as a pushdown automaton over the token stream, one token per
    step.  It accepts the token sequences of the grammar and builds the
    parse tree of the derivation ([derives_start], [parse_items_derives]). *)

Inductive pmode : Type :=
| AtItem                          (* between top-level items *)
| AfterDef                        (* after "def" *)
| AfterDefName (n : Token)        (* after "def" NAME *)
| AtValue                         (* a value must start here *)
| AfterQuestion (q : Token)       (* after "?" *)
| AfterQBracket (q l : Token)     (* after "?" "[" *)
| AfterQName (q l n : Token)      (* after "?" "[" NAME *)
| AfterElement.                   (* inside an array, after an element *)

Record pstate : Type := mkPState {
  mode : pmode;
  items_rev : list Tree;          (* finished top-level items, last first *)
  target : option Token;          (* NAME of the assignment being parsed *)
  opened : list (list Tree)       (* open arrays, innermost first; each holds
                                     its elements so far, last first *)
}.

Definition pstate0 : pstate := mkPState AtItem [] None [].

(** A value [v] has just been recognised. *)
Definition reduce_value (v : Tree) (st : pstate) : pstate :=
  match opened st with
  | acc :: outer =>
      mkPState AfterElement (items_rev st) (target st) ((v :: acc) :: outer)
  | [] =>
      let item := match target st with
                  | Some n => T_assign_const n v
                  | None => v
                  end in
      mkPState AtItem (item :: items_rev st) None []
  end.

Definition set_mode (m : pmode) (st : pstate) : pstate :=
  mkPState m (items_rev st) (target st) (opened st).

(** The first token of a value. *)
Definition value_start (tok : Token) (st : pstate) : option pstate :=
  match type tok with
  | NUMBER => Some (reduce_value (T_number tok) st)
  | STRING_DOUBLE => Some (reduce_value (T_string tok) st)
  | QUESTION_MARK => Some (set_mode (AfterQuestion tok) st)
  | LBRACE => Some (mkPState AtValue (items_rev st) (target st) ([] :: opened st))
  | _ => None
  end.

(** One parser step; [None] is a syntax error at [tok]. *)
Definition pstep (st : pstate) (tok : Token) : option pstate :=
  match mode st with
  | AtItem =>
      match type tok with
      | DEF => Some (set_mode AfterDef st)
      | _ => value_start tok st
      end
  | AfterDef =>
      match type tok with
      | NAME => Some (set_mode (AfterDefName tok) st)
      | _ => None
      end
  | AfterDefName n =>
      match type tok with
      | EQUAL => Some (mkPState AtValue (items_rev st) (Some n) (opened st))
      | _ => None
      end
  | AtValue => value_start tok st
  | AfterQuestion q =>
      match type tok with
      | LBRACKET => Some (set_mode (AfterQBracket q tok) st)
      | _ => None
      end
  | AfterQBracket q l =>
      match type tok with
      | NAME => Some (set_mode (AfterQName q l tok) st)
      | _ => None
      end
  | AfterQName q l n =>
      match type tok with
      | RBRACKET => Some (reduce_value (T_resolve_const q l n tok) st)
      | _ => None
      end
  | AfterElement =>
      match type tok, opened st with
      | COMMA, _ => Some (set_mode AtValue st)
      | RBRACE, acc :: outer =>
          Some (reduce_value (T_array (rev acc))
                  (mkPState AfterElement (items_rev st) (target st) outer))
      | _, _ => None
      end
  end.

Fixpoint prun (toks : list Token) (st : pstate) : option pstate :=
  match toks with
  | [] => Some st
  | tok :: toks' =>
      match pstep st tok with
      | Some st' => prun toks' st'
      | None => None
      end
  end.

(** The children of the [start] node; the input must end between items. *)
Definition parse_items (toks : list Token) : option (list Tree) :=
  match prun toks pstate0 with
  | Some st =>
      match mode st with
      | AtItem => Some (rev (items_rev st))
      | _ => None
      end
  | None => None
  end.

(** [?start]: a [start] node with exactly one child is replaced by that
    child. *)
Definition expand1_start (children : list Tree) : Tree :=
  match children with
  | [child] => child
  | _ => T_start children
  end.

(** [Lark(grammar, parser='lalr').parse(text)] *)
Definition parse (text : string) : result Tree :=
  match lex text with
  | None => Raise UnexpectedInput
  | Some toks =>
      match parse_items toks with
      | None => Raise UnexpectedInput
      | Some children => Ok (expand1_start children)
      end
  end.

(** ** Transformer ([ConfigTransformer]) *)

Record tstate : Type := mkTState {
  constants : dict pyobj;
  assignments : dict pyobj
}.

(** [ConfigTransformer.__init__] *)
Definition tstate0 : tstate := mkTState [] [].

(** What a callback does: it returns a value and the updated tables, or it
    raises. *)
Inductive cb_result : Type :=
| Returns (v : pyobj) (st : tstate)
| Raises (e : exn).

(** The loop of [start]: [(name, value)] pairs are stored under their name,
    every other item under the next [item_<n>] key.  (The source's middle
    branch tests for an untransformed [Tree]; the items are the results of
    the callbacks, never trees, so it is never taken.) *)
Fixpoint start_loop (items : list pyobj) (result_dict : dict pyobj)
    (unnamed_counter : nat) : dict pyobj :=
  match items with
  | [] => result_dict
  | PTuple name val :: items' =>
      start_loop items' (dict_set name val result_dict) unnamed_counter
  | item :: items' =>
      let key := "item_" ++ py_str_int (Z.of_nat unnamed_counter) in
      start_loop items' (dict_set key item result_dict) (S unnamed_counter)
  end.

Definition start (items : list pyobj) (st : tstate) : cb_result :=
  Returns (PDict (start_loop items [] 0)) st.

Definition assign_const (name_token : Token) (val : pyobj) (st : tstate)
  : cb_result :=
  let name := value name_token in
  Returns (PTuple name val)
          (mkTState (dict_set name val (constants st))
                    (dict_set name val (assignments st))).

(** Lark's [VisitError.__init__(self, rule, obj, orig_exc)] has three
    required parameters.  A call with the message as its only argument does
    not build a [VisitError]: the call itself raises this [TypeError]. *)
Definition VisitError_call1 (message : string) : exn :=
  TypeError ("VisitError.__init__() missing 2 required positional arguments: "
             ++ "'obj' and 'orig_exc'").

Definition resolve_const (question_mark lbracket name_token rbracket : Token)
    (st : tstate) : cb_result :=
  let name := value name_token in
  if negb (dict_mem name (constants st)) then
    Raises (VisitError_call1
              ("Undefined constant '" ++ name ++ "' used in expression ?["
               ++ name ++ "]"))
  else
    match dict_get name (constants st) with
    | Some v => Returns v st
    | None => Raises (KeyError name)
    end.

Definition number (token : Token) (st : tstate) : cb_result :=
  match py_int (value token) with
  | Some z => Returns (PInt z) st
  | None =>
      Raises (ValueError ("invalid literal for int() with base 10: "
                          ++ repr_str (value token)))
  end.

(** [token[1:-1]] *)
Fixpoint drop_last (s : string) : string :=
  match s with
  | "" => ""
  | String c "" => ""
  | String c r => String c (drop_last r)
  end.

Definition slice_1_m1 (s : string) : string := drop_last (drop 1 s).

Definition string_ (token : Token) (st : tstate) : cb_result :=
  Returns (PStr (slice_1_m1 (value token))) st.

Definition array (items : list pyobj) (st : tstate) : cb_result :=
  Returns (PList items) st.

(** [Transformer._call_userfunc]: an exception escaping a callback is
    re-raised as [VisitError(tree.data, tree, e)]. *)
Definition call_userfunc (rule : string) (r : cb_result)
  : result (pyobj * tstate) :=
  match r with
  | Returns v st => Ok (v, st)
  | Raises e => Raise (VisitError rule e)
  end.

(** [Transformer._transform_tree]: the children left to right, then the
    callback of the node. *)
Fixpoint transform_tree (t : Tree) (st : tstate) {struct t}
  : result (pyobj * tstate) :=
  let fix children (cs : list Tree) (st : tstate) {struct cs}
    : result (list pyobj * tstate) :=
    match cs with
    | [] => Ok ([], st)
    | c :: cs' =>
        '(v, st1) <- transform_tree c st ;;
        '(vs, st2) <- children cs' st1 ;;
        Ok (v :: vs, st2)
    end in
  match t with
  | T_start cs =>
      '(items, st1) <- children cs st ;;
      call_userfunc "start" (start items st1)
  | T_assign_const name_token child =>
      '(v, st1) <- transform_tree child st ;;
      call_userfunc "assign_const" (assign_const name_token v st1)
  | T_resolve_const q l n r =>
      call_userfunc "resolve_const" (resolve_const q l n r st)
  | T_array cs =>
      '(items, st1) <- children cs st ;;
      call_userfunc "array" (array items st1)
  | T_number token => call_userfunc "number" (number token st)
  | T_string token => call_userfunc "string" (string_ token st)
  end.

Fixpoint transform_children (cs : list Tree) (st : tstate)
  : result (list pyobj * tstate) :=
  match cs with
  | [] => Ok ([], st)
  | c :: cs' =>
      '(v, st1) <- transform_tree c st ;;
      '(vs, st2) <- transform_children cs' st1 ;;
      Ok (v :: vs, st2)
  end.

(** [ConfigTransformer().transform(parse_tree)] *)
Definition transform (t : Tree) : result pyobj :=
  '(v, _) <- transform_tree t tstate0 ;; Ok v.

(** Text to transformed value: lines 136-139 of [main]. *)
Definition run (text : string) : result pyobj :=
  t <- parse text ;; transform t.

(** ** XML emitter ([generate_xml_from_dict]) *)

(** An [xml.etree.ElementTree.Element]: tag, text and children (no
    attributes and no tail are ever set). *)
#[warnings="-register-all"]
Inductive Element : Type :=
| Elem (tag : string) (text : option string) (children : list Element).

(** [ET.Element(tag)] *)
Definition new_element (tag : string) : Element := Elem tag None [].

Definition append_child (parent child : Element) : Element :=
  match parent with
  | Elem tag text children => Elem tag text (children ++ [child])%list
  end.

Definition set_text (parent : Element) (s : string) : Element :=
  match parent with
  | Elem tag _ children => Elem tag (Some s) children
  end.

(** [_to_xml_recurse(parent_element, data)]; the result is the parent after
    the call.  [ET.SubElement(parent, tag)] creates the child and appends it
    to the parent; the child is filled in before the next one is made. *)
Fixpoint _to_xml_recurse (parent_element : Element) (data : pyobj) : Element :=
  match data with
  | PDict d =>
      fold_left
        (fun parent kv =>
           append_child parent (_to_xml_recurse (new_element (fst kv)) (snd kv)))
        d parent_element
  | PList l =>
      append_child parent_element
        (fold_left
           (fun array_container item =>
              append_child array_container
                (_to_xml_recurse (new_element "item") item))
           l (new_element "array"))
  | _ => set_text parent_element (py_str data)
  end.

(** *** Serialisation and re-parse

    [ET.tostring(root, encoding='unicode')]: text is written with [&], [<]
    and [>] escaped; an element with neither text nor children is written
    in the short form. *)
Definition escape_cdata (s : string) : string :=
  replace_char ">" "&gt;" (replace_char "<" "&lt;" (replace_char "&" "&amp;" s)).

Definition text_or_empty (t : option string) : string :=
  match t with
  | Some s => s
  | None => ""
  end.

Fixpoint concat_str (l : list string) : string :=
  match l with
  | [] => ""
  | s :: l' => s ++ concat_str l'
  end.

Fixpoint tostring (e : Element) : string :=
  match e with
  | Elem tag text children =>
      match text_or_empty text, children with
      | "", [] => "<" ++ tag ++ " />"
      | t, cs =>
          "<" ++ tag ++ ">" ++ escape_cdata t
          ++ concat_str (map tostring cs) ++ "</" ++ tag ++ ">"
      end
  end.

(** A [xml.dom.minidom] node: a text node or an element. *)
#[warnings="-register-all"]
Inductive Node : Type :=
| TextNode (data : string)
| ElementNode (tagName : string) (childNodes : list Node).

(** Tags the model covers: ASCII XML names without a namespace prefix.  All
    the tags the program makes from a parsed file are of this form (NAME
    tokens, [item_<n>], [array], [item], [config]). *)
Definition is_xml_name_start (c : ascii) : bool :=
  is_underscore c || is_upper c || is_lower c.
Definition is_xml_name_char (c : ascii) : bool :=
  is_xml_name_start c || is_digit c || Ascii.eqb c "-" || Ascii.eqb c ".".

Definition xml_name_ok (tag : string) : bool :=
  match tag with
  | "" => false
  | String c r => is_xml_name_start c && forallb_str is_xml_name_char r
  end.

(** The characters XML 1.0 allows in content: tab, line feed, carriage
    return and everything from the space up, except U+FFFE and U+FFFF
    (in UTF-8 the bytes EF BF BE and EF BF BF). *)
Definition xml_char_ok (c : ascii) : bool :=
  Ascii.eqb c "009" || Ascii.eqb c "010" || Ascii.eqb c "013"
  || (32 <=? code c)%nat.

Definition nonchar_FFFE : string :=
  String "239" (String "191" (String "190" "")).
Definition nonchar_FFFF : string :=
  String "239" (String "191" (String "191" "")).

Definition xml_text_ok (s : string) : bool :=
  forallb_str xml_char_ok s
  && negb (contains nonchar_FFFE s) && negb (contains nonchar_FFFF s).

(** The parser reads a carriage return, alone or before a line feed, as a
    line feed. *)
Fixpoint normalize_newlines (s : string) : string :=
  match s with
  | "" => ""
  | String c r =>
      if Ascii.eqb c "013" then
        match r with
        | String c' r' =>
            if Ascii.eqb c' "010" then String "010" (normalize_newlines r')
            else String "010" (normalize_newlines r)
        | "" => nl
        end
      else String c (normalize_newlines r)
  end.

(** [xml.dom.minidom.parseString(ET.tostring(e, encoding='unicode'))], given
    on the element rather than on its serialisation: the parser undoes the
    escapes of [tostring], so the document it builds has the elements of
    [e], each non-empty text as one text node before the child elements.
    It raises [ExpatError] when the serialisation is not well-formed: a
    character outside XML in a text, or a tag that is not a name.  (Tags
    that are not ASCII names are all reported as errors here; for those the
    model makes no claim.) *)
Fixpoint parseString_tostring (e : Element) : result Node :=
  match e with
  | Elem tag text children =>
      if negb (xml_name_ok tag) then Raise ExpatError
      else if negb (xml_text_ok (text_or_empty text)) then Raise ExpatError
      else
        let fix nodes (cs : list Element) : result (list Node) :=
          match cs with
          | [] => Ok []
          | c :: cs' =>
              n <- parseString_tostring c ;;
              ns <- nodes cs' ;;
              Ok (n :: ns)
          end in
        ns <- nodes children ;;
        Ok (ElementNode tag
              (match text_or_empty text with
               | "" => ns
               | t => TextNode (normalize_newlines t) :: ns
               end))
  end.

Fixpoint parse_children (cs : list Element) : result (list Node) :=
  match cs with
  | [] => Ok []
  | c :: cs' =>
      n <- parseString_tostring c ;;
      ns <- parse_children cs' ;;
      Ok (n :: ns)
  end.

(** [minidom._write_data] *)
Definition write_data (data : string) : string :=
  replace_char ">" "&gt;"
    (replace_char "034" "&quot;"
       (replace_char "<" "&lt;" (replace_char "&" "&amp;" data))).

(** [Node.writexml(writer, indent, addindent, newl)]: what it writes. *)
Fixpoint writexml (n : Node) (indent addindent newl : string) : string :=
  match n with
  | TextNode data => write_data (indent ++ data ++ newl)
  | ElementNode tagName childNodes =>
      indent ++ "<" ++ tagName ++
      match childNodes with
      | [] => "/>" ++ newl
      | [TextNode data] =>
          ">" ++ write_data data ++ "</" ++ tagName ++ ">" ++ newl
      | _ =>
          ">" ++ newl
          ++ concat_str
               (map (fun node => writexml node (indent ++ addindent) addindent newl)
                    childNodes)
          ++ indent ++ "</" ++ tagName ++ ">" ++ newl
      end
  end.

(** [Document.toprettyxml(indent, encoding=None)] for the document whose
    only child is [root]. *)
Definition toprettyxml (root : Node) (indent : string) : string :=
  "<?xml version=" ++ dq ++ "1.0" ++ dq ++ " ?>" ++ nl
  ++ writexml root "" indent nl.

(** [''.join(s.splitlines(True)[1:])]: the text after the first line
    boundary. *)
Definition is_line_boundary (c : ascii) : bool :=
  in_range 10 13 c || in_range 28 30 c.

Fixpoint after_first_line (s : string) : string :=
  match s with
  | "" => ""
  | String c r =>
      if is_line_boundary c then
        if Ascii.eqb c "013" && startswith nl r then drop 1 r else r
      else after_first_line r
  end.

Definition generate_xml_from_dict (data : pyobj) (root_name : string)
  : result string :=
  let root := _to_xml_recurse (new_element root_name) data in
  reparsed <- parseString_tostring root ;;
  let pretty_xml := toprettyxml reparsed "  " in
  if startswith "<?xml" pretty_xml
  then Ok (strip (after_first_line pretty_xml))
  else Ok (strip pretty_xml).

(** ** [main]

    What a run on a file with the given text does: print the XML and exit
    with status 0, or print a message to standard error and exit with
    status 1 without having printed anything to standard output. *)
Inductive message : Type :=
| SyntaxErrorMessage                      (* "Syntax error in the configuration file: ..." *)
| RuntimeErrorMessage (text : string)     (* "Runtime error during processing: ..." *)
| UnexpectedErrorMessage.                 (* "An unexpected error occurred: ..." *)

Inductive outcome : Type :=
| Exit0 (stdout : string)
| Exit1 (stderr : message).

(** [str(e)] for a [VisitError] *)
Definition VisitError_str (rule : string) (orig_exc : exn) : string :=
  "Error trying to process rule " ++ dq ++ rule ++ dq ++ ":" ++ nl ++ nl
  ++ exn_str orig_exc.

Definition handle (e : error) : outcome :=
  match e with
  | UnexpectedInput => Exit1 SyntaxErrorMessage
  | VisitError rule orig_exc =>
      Exit1 (RuntimeErrorMessage
               ("Runtime error during processing: " ++ VisitError_str rule orig_exc))
  | ExpatError => Exit1 UnexpectedErrorMessage
  end.

Definition main (text : string) : outcome :=
  match (result_dict <- run text ;; generate_xml_from_dict result_dict "config") with
  | Ok xml_output => Exit0 (xml_output ++ nl)
  | Raise e => handle e
  end.

(** ** Auxiliary definitions used in the statements *)

(** A greedy run stops at the end of the text or at a character that does
    not belong to it. *)
Definition stops (p : ascii -> bool) (s : string) : Prop :=
  match s with
  | "" => True
  | String c _ => p c = false
  end.

Definition matcher_sound (m : matcher) : Prop :=
  forall s lexeme rest, m s = Some (lexeme, rest) ->
    s = lexeme ++ rest /\ lexeme <> "".

(** A sequence of assignments [d[k] = v], applied in order. *)
Definition dict_writes {V : Type} (ws : list (string * V)) (d : dict V) : dict V :=
  fold_left (fun d kv => dict_set (fst kv) (snd kv) d) ws d.

(** The keys of [ks] in the order of their first occurrence, leaving out
    the ones in [seen]. *)
Fixpoint first_occurrences (seen ks : list string) : list string :=
  match ks with
  | [] => []
  | k :: ks' =>
      if existsb (String.eqb k) seen then first_occurrences seen ks'
      else k :: first_occurrences (seen ++ [k]) ks'
  end.

(** The value of the last write to [k]. *)
Fixpoint last_write {V : Type} (k : string) (ws : list (string * V)) : option V :=
  match ws with
  | [] => None
  | (k', v) :: ws' =>
      match last_write k ws' with
      | Some v' => Some v'
      | None => if String.eqb k' k then Some v else None
      end
  end.

(** The shape of the lexemes: what each regular expression matches in
    full. *)
Definition is_NAME_lexeme (s : string) : bool :=
  match s with
  | "" => false
  | String c r => is_name_start c && forallb_str is_name_char r
  end.

Definition nonempty (s : string) : bool :=
  match s with
  | "" => false
  | _ => true
  end.

Definition is_NUMBER_lexeme (s : string) : bool :=
  match s with
  | "" => false
  | String c r =>
      if is_sign c then nonempty r && forallb_str is_digit r
      else forallb_str is_digit s
  end.

(** A double quote, [body] without double quotes, a double quote. *)
Definition is_STRING_lexeme (s : string) : Prop :=
  exists body, s = dq ++ body ++ dq /\ forallb_str not_dquote body = true.

Definition is_WS_lexeme (s : string) : bool := nonempty s && forallb_str is_ws s.

(** The tokens the lexer makes carry a lexeme of their terminal. *)
Definition lexeme_ok (tok : Token) : Prop :=
  match type tok with
  | NAME => is_NAME_lexeme (value tok) = true
  | NUMBER => is_NUMBER_lexeme (value tok) = true
  | STRING_DOUBLE => is_STRING_lexeme (value tok)
  | WS => is_WS_lexeme (value tok) = true
  | _ => True
  end.

(** The items of [start]: the source tells pairs from bare values. *)
Definition is_bare (o : pyobj) : bool :=
  match o with
  | PTuple _ _ => false
  | _ => true
  end.

Definition item_key (n : nat) : string := "item_" ++ py_str_int (Z.of_nat n).

(** The assignments [result_dict[key] = value] that the loop of [start]
    performs, in order, the counter starting at [n]. *)
Fixpoint entries (items : list pyobj) (n : nat) : list (string * pyobj) :=
  match items with
  | [] => []
  | item :: items' =>
      match item with
      | PTuple name val => (name, val) :: entries items' n
      | _ => (item_key n, item) :: entries items' (S n)
      end
  end.

(** Parse trees of the grammar: values, and top-level items. *)
Fixpoint value_tree (t : Tree) : Prop :=
  match t with
  | T_number tok => type tok = NUMBER /\ lexeme_ok tok
  | T_string tok => type tok = STRING_DOUBLE /\ lexeme_ok tok
  | T_resolve_const q l n r => type n = NAME /\ lexeme_ok n
  | T_array cs =>
      cs <> [] /\
      (fix all (cs : list Tree) : Prop :=
         match cs with
         | [] => True
         | c :: cs' => value_tree c /\ all cs'
         end) cs
  | T_start _ | T_assign_const _ _ => False
  end.

Definition item_tree (t : Tree) : Prop :=
  match t with
  | T_assign_const n v => type n = NAME /\ lexeme_ok n /\ value_tree v
  | _ => value_tree t
  end.

Definition is_assignment (t : Tree) : bool :=
  match t with
  | T_assign_const _ _ => true
  | _ => false
  end.

(** The invariant of the parser automaton. *)
Definition mode_ok (st : pstate) : Prop :=
  match mode st with
  | AtItem => opened st = [] /\ target st = None
  | AfterDef => opened st = [] /\ target st = None
  | AfterDefName n => opened st = [] /\ target st = None
                      /\ type n = NAME /\ lexeme_ok n
  | AtValue => True
  | AfterQuestion _ => True
  | AfterQBracket _ _ => True
  | AfterQName _ _ n => type n = NAME /\ lexeme_ok n
  | AfterElement => exists v acc outer, opened st = (v :: acc) :: outer
  end.

Definition pdata_ok (st : pstate) : Prop :=
  Forall item_tree (items_rev st)
  /\ Forall (Forall value_tree) (opened st)
  /\ match target st with
     | Some n => type n = NAME /\ lexeme_ok n
     | None => True
     end.

Definition pstate_ok (st : pstate) : Prop := pdata_ok st /\ mode_ok st.

Definition matcher_shape (t : terminal) (m : matcher) : Prop :=
  forall s lexeme rest, m s = Some (lexeme, rest) -> lexeme_ok (mkToken t lexeme).

(** The values of the specification: numbers, texts and arrays of values.
    [no_empty_list] says that no list in a value is empty. *)
Fixpoint spec_value (o : pyobj) : Prop :=
  match o with
  | PInt _ | PStr _ => True
  | PList l =>
      (fix all (l : list pyobj) : Prop :=
         match l with
         | [] => True
         | x :: l' => spec_value x /\ all l'
         end) l
  | PTuple _ _ | PDict _ => False
  end.

Fixpoint no_empty_list (o : pyobj) : Prop :=
  match o with
  | PInt _ | PStr _ => True
  | PList l =>
      l <> [] /\
      (fix all (l : list pyobj) : Prop :=
         match l with
         | [] => True
         | x :: l' => no_empty_list x /\ all l'
         end) l
  | PTuple _ v => no_empty_list v
  | PDict d =>
      (fix all (d : list (string * pyobj)) : Prop :=
         match d with
         | [] => True
         | kv :: d' => no_empty_list (snd kv) /\ all d'
         end) d
  end.

Fixpoint no_empty_array (t : Tree) : Prop :=
  match t with
  | T_start cs =>
      (fix all (cs : list Tree) : Prop :=
         match cs with
         | [] => True
         | c :: cs' => no_empty_array c /\ all cs'
         end) cs
  | T_assign_const _ v => no_empty_array v
  | T_array cs =>
      cs <> [] /\
      (fix all (cs : list Tree) : Prop :=
         match cs with
         | [] => True
         | c :: cs' => no_empty_array c /\ all cs'
         end) cs
  | T_resolve_const _ _ _ _ | T_number _ | T_string _ => True
  end.

(** The constant table of a run: values of the specification without empty
    arrays, under NAME keys. *)
Definition constants_ok (st : tstate) : Prop :=
  Forall (fun kv => is_NAME_lexeme (fst kv) = true
                    /\ spec_value (snd kv) /\ no_empty_list (snd kv))
         (constants st).

(** The first reference [?[NAME]], in the order of the traversal, to a name
    that has no definition before it.  [scan t defined] is [inl name] for
    such a reference, and otherwise [inr] of the names defined after [t]. *)
Fixpoint scan (t : Tree) (defined : list string) : string + list string :=
  let fix scan_all (cs : list Tree) (defined : list string)
    : string + list string :=
    match cs with
    | [] => inr defined
    | c :: cs' =>
        match scan c defined with
        | inl name => inl name
        | inr defined' => scan_all cs' defined'
        end
    end in
  match t with
  | T_start cs => scan_all cs defined
  | T_array cs => scan_all cs defined
  | T_assign_const n v =>
      match scan v defined with
      | inl name => inl name
      | inr defined' => inr (value n :: defined')
      end
  | T_resolve_const _ _ n _ =>
      if existsb (String.eqb (value n)) defined then inr defined
      else inl (value n)
  | T_number _ | T_string _ => inr defined
  end.

Fixpoint scan_children (cs : list Tree) (defined : list string)
  : string + list string :=
  match cs with
  | [] => inr defined
  | c :: cs' =>
      match scan c defined with
      | inl name => inl name
      | inr defined' => scan_children cs' defined'
      end
  end.

(** What [main] prints on standard error for an undefined constant. *)
Definition undefined_constant_message : string :=
  "Runtime error during processing: Error trying to process rule "
  ++ dq ++ "resolve_const" ++ dq ++ ":" ++ nl ++ nl
  ++ "VisitError.__init__() missing 2 required positional arguments: "
  ++ "'obj' and 'orig_exc'".

(** Every NUMBER token in the tree carries a NUMBER lexeme. *)
Fixpoint numbers_ok (t : Tree) : Prop :=
  match t with
  | T_start cs | T_array cs =>
      (fix all (cs : list Tree) : Prop :=
         match cs with
         | [] => True
         | c :: cs' => numbers_ok c /\ all cs'
         end) cs
  | T_assign_const _ v => numbers_ok v
  | T_number tok => is_NUMBER_lexeme (value tok) = true
  | T_resolve_const _ _ _ _ | T_string _ => True
  end.

(** [defined] lists the names the constant table of [st] has. *)
Definition same_names (defined : list string) (st : tstate) : Prop :=
  forall k, existsb (String.eqb k) defined = dict_mem k (constants st).

(** The result of an item of [start]: a pair for an assignment, and
    otherwise a value. *)
Definition item_obj (o : pyobj) : Prop :=
  match o with
  | PTuple name v =>
      is_NAME_lexeme name = true /\ spec_value v /\ no_empty_list v
  | _ => spec_value o /\ no_empty_list o
  end.

(** ** The inputs of the examples of the specification *)

(** [1 "x" {1,2,3}] *)
Definition roundtrip_input : string := "1 " ++ dq ++ "x" ++ dq ++ " {1,2,3}".

Definition roundtrip_document : pyobj :=
  PDict [("item_0", PInt 1); ("item_1", PStr "x");
         ("item_2", PList [PInt 1; PInt 2; PInt 3])].

Definition roundtrip_tree : Element :=
  Elem "config" None
    [Elem "item_0" (Some "1") [];
     Elem "item_1" (Some "x") [];
     Elem "item_2" None
       [Elem "array" None
          [Elem "item" (Some "1") [];
           Elem "item" (Some "2") [];
           Elem "item" (Some "3") []]]].

Definition roundtrip_xml : string :=
  "<config>" ++ nl ++
  "  <item_0>1</item_0>" ++ nl ++
  "  <item_1>x</item_1>" ++ nl ++
  "  <item_2>" ++ nl ++
  "    <array>" ++ nl ++
  "      <item>1</item>" ++ nl ++
  "      <item>2</item>" ++ nl ++
  "      <item>3</item>" ++ nl ++
  "    </array>" ++ nl ++
  "  </item_2>" ++ nl ++
  "</config>".

Definition redefinition_input : string :=
  "def A = 1 def B = ?[A] def A = 2 def C = ?[A]".

Definition overwrite_input : string := "def A = 1 def B = 2 def A = 3".

Definition mixed_input : string := "def A = 1 2 def B = 3 4".

(** A file of white space and comments only. *)
Definition blank_input : string :=
  "-- nothing here" ++ nl ++ "  |# a block" ++ nl ++ "comment #|" ++ nl.

Definition int64_max : Z := 9223372036854775807.

Definition is_item_key (k : string) : bool := startswith "item_" k.

Definition bare_values (items : list pyobj) : list pyobj := filter is_bare items.

(** Every text in the value is made of characters XML allows. *)
Fixpoint texts_ok (o : pyobj) : Prop :=
  match o with
  | PInt _ => True
  | PStr s => xml_text_ok s = true
  | PList l =>
      (fix all (l : list pyobj) : Prop :=
         match l with
         | [] => True
         | x :: l' => texts_ok x /\ all l'
         end) l
  | PTuple _ v => texts_ok v
  | PDict d =>
      (fix all (d : list (string * pyobj)) : Prop :=
         match d with
         | [] => True
         | kv :: d' => texts_ok (snd kv) /\ all d'
         end) d
  end.

(** A document of the specification that XML can represent: the keys are
    names, the values are numbers, texts and arrays (empty arrays
    included), and the texts have XML characters only. *)
Definition document_ok (d : dict pyobj) : Prop :=
  Forall (fun kv => xml_name_ok (fst kv) = true
                    /\ spec_value (snd kv) /\ texts_ok (snd kv)) d.

(** An element tree that serialises to well-formed XML. *)
Fixpoint elem_ok (e : Element) : Prop :=
  match e with
  | Elem tag text children =>
      xml_name_ok tag = true
      /\ xml_text_ok (text_or_empty text) = true
      /\ (fix all (cs : list Element) : Prop :=
            match cs with
            | [] => True
            | c :: cs' => elem_ok c /\ all cs'
            end) children
  end.

Definition empty_array_document : pyobj := PDict [("K", PList [])].

Definition empty_array_xml : string :=
  "<config>" ++ nl ++
  "  <K>" ++ nl ++
  "    <array/>" ++ nl ++
  "  </K>" ++ nl ++
  "</config>".

(** A document with a text that holds the control character U+0001. *)
Definition control_char_document : pyobj :=
  PDict [("item_0", PStr (String "001" ""))].

(** The characters of a decimal numeral. *)
Definition is_number_char (c : ascii) : bool := is_digit c || Ascii.eqb c "-".

(** ** Comments *)

Definition is_comment (t : terminal) : bool :=
  match t with
  | COMMENT_SINGLE | COMMENT_MULTI => true
  | _ => false
  end.

(** The text is the concatenation of the lexemes of its tokens, the ignored
    ones included.  The text without its comments is the concatenation of
    the lexemes of the tokens that are not comments. *)
Definition text_of (toks : list Token) : string := concat_str (map value toks).

Definition without_comments (toks : list Token) : list Token :=
  filter (fun tok => negb (is_comment (type tok))) toks.

(** A scalar value is a single NUMBER or STRING_DOUBLE token. *)
Definition is_scalar (tok : Token) : bool :=
  match type tok with
  | NUMBER | STRING_DOUBLE => true
  | _ => false
  end.

(** A file of comments, white space and one scalar value. *)
Definition commented_input : string :=
  "-- the answer" ++ nl ++ "|# in" ++ nl ++ "two lines #|42-- done".

Definition commented_tokens : list Token :=
  [mkToken COMMENT_SINGLE "-- the answer";
   mkToken WS nl;
   mkToken COMMENT_MULTI ("|# in" ++ nl ++ "two lines #|");
   mkToken NUMBER "42";
   mkToken COMMENT_SINGLE "-- done"].

(** ** The grammar

    The productions of the grammar as a derivation relation between token
    sequences and parse trees:

      start      : (assignment | value)*
      assignment : "def" NAME "=" value            -> assign_const
      value      : number | string | array | const_expr
      array      : "{" value ("," value)* "}"
      const_expr : QUESTION_MARK LBRACKET NAME RBRACKET -> resolve_const
      number     : NUMBER
      string     : STRING_DOUBLE                                          *)

Inductive derives_value : list Token -> Tree -> Prop :=
| DV_number (tok : Token) :
    type tok = NUMBER -> derives_value [tok] (T_number tok)
| DV_string (tok : Token) :
    type tok = STRING_DOUBLE -> derives_value [tok] (T_string tok)
| DV_const_expr (q l n r : Token) :
    type q = QUESTION_MARK -> type l = LBRACKET -> type n = NAME ->
    type r = RBRACKET ->
    derives_value [q; l; n; r] (T_resolve_const q l n r)
| DV_array (lbrace rbrace : Token) (toks : list Token) (cs : list Tree) :
    type lbrace = LBRACE -> type rbrace = RBRACE ->
    derives_elements toks cs ->
    derives_value (lbrace :: toks ++ [rbrace]) (T_array cs)

(** [value ("," value)*], the last value apart from the ones before it *)
with derives_elements : list Token -> list Tree -> Prop :=
| DE_first (toks : list Token) (v : Tree) :
    derives_value toks v -> derives_elements toks [v]
| DE_next (toks toks' : list Token) (comma : Token) (cs : list Tree) (v : Tree) :
    derives_elements toks cs -> type comma = COMMA ->
    derives_value toks' v ->
    derives_elements (toks ++ comma :: toks') (cs ++ [v]).

Scheme derives_value_mut := Minimality for derives_value Sort Prop
  with derives_elements_mut := Minimality for derives_elements Sort Prop.

Inductive derives_item : list Token -> Tree -> Prop :=
| DI_assignment (d n e : Token) (toks : list Token) (v : Tree) :
    type d = DEF -> type n = NAME -> type e = EQUAL ->
    derives_value toks v ->
    derives_item (d :: n :: e :: toks) (T_assign_const n v)
| DI_value (toks : list Token) (v : Tree) :
    derives_value toks v -> derives_item toks v.

(** [(assignment | value)*], the last item apart from the ones before it *)
Inductive derives_start : list Token -> list Tree -> Prop :=
| DS_nil : derives_start [] []
| DS_next (toks toks' : list Token) (items : list Tree) (item : Tree) :
    derives_start toks items -> derives_item toks' item ->
    derives_start (toks ++ toks') (items ++ [item]).

(** What the automaton has read of the item it is in: the tokens of the
    open arrays, each an opening brace followed by the elements read so far
    and their commas. *)
Inductive frame_tokens_open : list Tree -> list Token -> Prop :=
| FO_empty (lbrace : Token) :
    type lbrace = LBRACE -> frame_tokens_open [] [lbrace]
| FO_comma (lbrace comma : Token) (toks : list Token) (acc : list Tree) :
    type lbrace = LBRACE -> type comma = COMMA ->
    derives_elements toks (rev acc) ->
    frame_tokens_open acc (lbrace :: toks ++ [comma]).

Inductive frame_tokens_closed : list Tree -> list Token -> Prop :=
| FC (lbrace : Token) (toks : list Token) (acc : list Tree) :
    type lbrace = LBRACE -> derives_elements toks (rev acc) ->
    frame_tokens_closed acc (lbrace :: toks).

(** The open arrays, innermost first; the tokens, outermost first. *)
Inductive stack_tokens : list (list Tree) -> list Token -> Prop :=
| ST_nil : stack_tokens [] []
| ST_frame (acc : list Tree) (outer : list (list Tree))
           (toks_outer toks : list Token) :
    stack_tokens outer toks_outer -> frame_tokens_open acc toks ->
    stack_tokens (acc :: outer) (toks_outer ++ toks).

Inductive target_tokens : option Token -> list Token -> Prop :=
| TT_none : target_tokens None []
| TT_some (d n e : Token) :
    type d = DEF -> type n = NAME -> type e = EQUAL ->
    target_tokens (Some n) [d; n; e].

(** The tokens of the item being read, by mode. *)
Inductive current_tokens (st : pstate) : list Token -> Prop :=
| CT_item :
    mode st = AtItem -> opened st = [] -> target st = None ->
    current_tokens st []
| CT_def (d : Token) :
    mode st = AfterDef -> opened st = [] -> target st = None ->
    type d = DEF -> current_tokens st [d]
| CT_def_name (d n : Token) :
    mode st = AfterDefName n -> opened st = [] -> target st = None ->
    type d = DEF -> type n = NAME -> current_tokens st [d; n]
| CT_value (tt ts : list Token) :
    mode st = AtValue ->
    target_tokens (target st) tt -> stack_tokens (opened st) ts ->
    current_tokens st (tt ++ ts)
| CT_question (tt ts : list Token) (q : Token) :
    mode st = AfterQuestion q -> type q = QUESTION_MARK ->
    target_tokens (target st) tt -> stack_tokens (opened st) ts ->
    current_tokens st (tt ++ ts ++ [q])
| CT_qbracket (tt ts : list Token) (q l : Token) :
    mode st = AfterQBracket q l -> type q = QUESTION_MARK -> type l = LBRACKET ->
    target_tokens (target st) tt -> stack_tokens (opened st) ts ->
    current_tokens st (tt ++ ts ++ [q; l])
| CT_qname (tt ts : list Token) (q l n : Token) :
    mode st = AfterQName q l n -> type q = QUESTION_MARK -> type l = LBRACKET ->
    type n = NAME ->
    target_tokens (target st) tt -> stack_tokens (opened st) ts ->
    current_tokens st (tt ++ ts ++ [q; l; n])
| CT_element (tt ts tf : list Token) (acc : list Tree) (outer : list (list Tree)) :
    mode st = AfterElement -> opened st = acc :: outer ->
    target_tokens (target st) tt -> stack_tokens outer ts ->
    frame_tokens_closed acc tf ->
    current_tokens st (tt ++ ts ++ tf).

(** The automaton in state [st] has read [seen]: finished items and the
    beginning of one more. *)
Definition has_read (seen : list Token) (st : pstate) : Prop :=
  exists t_items t_current,
    seen = (t_items ++ t_current)%list
    /\ derives_start t_items (rev (items_rev st))
    /\ current_tokens st t_current.

Combined Scheme derives_mutind from derives_value_mut, derives_elements_mut.

(** ** Definitions for the further properties *)

(** The pairs [(name, value)] among the items of [start], in order: what the
    assignments of the file returned. *)
Fixpoint assigned (items : list pyobj) : list (string * pyobj) :=
  match items with
  | [] => []
  | PTuple name val :: items' => (name, val) :: assigned items'
  | _ :: items' => assigned items'
  end.

(** The entries of a document that are not under a synthesized key. *)
Definition named_entries (d : dict pyobj) : dict pyobj :=
  filter (fun kv => negb (is_item_key (fst kv))) d.

(** [def A = 1 def B = ?[A]] and its parse tree. *)
Definition defined_reference_input : string := "def A = 1 def B = ?[A]".

Definition defined_reference_tree : Tree :=
  T_start
    [T_assign_const (mkToken NAME "A") (T_number (mkToken NUMBER "1"));
     T_assign_const (mkToken NAME "B")
       (T_resolve_const (mkToken QUESTION_MARK "?") (mkToken LBRACKET "[")
          (mkToken NAME "A") (mkToken RBRACKET "]"))].

(** A key the program makes: a NAME or a synthesized key. *)
Definition program_key (k : string) : Prop :=
  is_NAME_lexeme k = true \/ exists n : nat, k = item_key n.

(** [def A = 1] alone in a file, and its tokens. *)
Definition single_definition_input : string := "def A = 1".

Definition single_definition_tokens : list Token :=
  [mkToken DEF "def"; mkToken NAME "A"; mkToken EQUAL "="; mkToken NUMBER "1"].

(** No element has both a text and child elements. *)
Fixpoint unmixed (e : Element) : Prop :=
  match e with
  | Elem _ text children =>
      (text = None \/ children = [])
      /\ (fix all (cs : list Element) : Prop :=
            match cs with
            | [] => True
            | c :: cs' => unmixed c /\ all cs'
            end) children
  end.

(** In a document, a text node is the only child of its element. *)
Fixpoint text_alone (n : Node) : Prop :=
  match n with
  | TextNode _ => True
  | ElementNode _ childNodes =>
      (forall data, In (TextNode data) childNodes -> childNodes = [TextNode data])
      /\ (fix all (cs : list Node) : Prop :=
            match cs with
            | [] => True
            | c :: cs' => text_alone c /\ all cs'
            end) childNodes
  end.

(** Numbers and texts. *)
Definition scalar_value (o : pyobj) : Prop :=
  match o with
  | PInt _ | PStr _ => True
  | _ => False
  end.

(** The line of an entry with a scalar value, one level below the root:
    two spaces, the element on one line, a line break. *)
Definition flat_line (kv : string * pyobj) : string :=
  "  <" ++ fst kv ++
  match py_str (snd kv) with
  | "" => "/>" ++ nl
  | t => ">" ++ write_data (normalize_newlines t) ++ "</" ++ fst kv ++ ">" ++ nl
  end.

(** The re-parsed element of an entry with a scalar value. *)
Definition flat_node (kv : string * pyobj) : Node :=
  ElementNode (fst kv)
    match py_str (snd kv) with
    | "" => []
    | t => [TextNode (normalize_newlines t)]
    end.

Definition flat_document : dict pyobj :=
  [("A", PInt 1); ("B", PStr "x<y"); ("C", PStr "")].

Definition flat_document_text : string :=
  "<config>" ++ nl ++
  "  <A>1</A>" ++ nl ++
  "  <B>x&lt;y</B>" ++ nl ++
  "  <C/>" ++ nl ++
  "</config>".

(** What [_write_data] writes for one character. *)
Definition escape_char (c : ascii) : string :=
  if Ascii.eqb c "&" then "&amp;"
  else if Ascii.eqb c "<" then "&lt;"
  else if Ascii.eqb c "034" then "&quot;"
  else if Ascii.eqb c ">" then "&gt;"
  else String c "".


(** What can follow a lexeme of terminal [t]: a text that does not make the
    match longer.  A NAME ends before a character that is not a name
    character, a NUMBER before a character that is not a digit, white space
    before a character that is not white space, a one-line comment at the
    end of the line; the other terminals end by themselves. *)
Definition follows_ok (t : terminal) (r : string) : Prop :=
  match t with
  | NAME => stops is_name_char r
  | NUMBER => stops is_digit r
  | WS => stops is_ws r
  | COMMENT_SINGLE => stops not_newline r
  | _ => True
  end.

(** A matcher of [t] takes the longest lexeme, and it finds a lexeme again
    in front of every text that can follow it. *)
Definition matcher_stable (t : terminal) (m : matcher) : Prop :=
  forall s lexeme rest, m s = Some (lexeme, rest) ->
    follows_ok t rest
    /\ forall r, follows_ok t r -> m (lexeme ++ r) = Some (lexeme, r).

(** A text with comment marks in it, and the literal that holds it. *)
Definition marks_text : string := "-- no comment |# here #| \ either".

Definition marks_literal : string := dq ++ marks_text ++ dq.

(** A value with its numbers replaced by their numerals: what the element
    tree keeps of it. *)
Fixpoint as_text (o : pyobj) : pyobj :=
  match o with
  | PInt z => PStr (py_str_int z)
  | PStr s => PStr s
  | PList l => PList (map as_text l)
  | PTuple n v => PTuple n (as_text v)
  | PDict d => PDict (map (fun kv => (fst kv, as_text (snd kv))) d)
  end.

(** ** The limits of the interpreter

    CPython refuses to convert between [int] and [str] when the numeral
    has more than [sys.int_max_str_digits] digits (4300 by default, the
    sign not counted, leading zeros counted): [int] and [str] then raise
    [ValueError].  The conversions of the model, [py_int] and
    [py_str_int], are the mathematical ones; the statements about numbers
    carry the limit as a hypothesis. *)
Definition int_max_str_digits : nat := 4300.

(** The digits of a NUMBER lexeme: the lexeme without its sign. *)
Definition digits_of (lexeme : string) : string :=
  match lexeme with
  | "" => ""
  | String c r => if is_sign c then r else lexeme
  end.

(** The decimal value of a string of digits, by the weights of its
    digits: the digit [d] with [n] digits after it counts [d * 10 ^ n]. *)
Fixpoint weighted_sum (s : string) : Z :=
  match s with
  | "" => 0
  | String c r =>
      Z.of_nat (code c - 48) * 10 ^ Z.of_nat (String.length r) + weighted_sum r
  end.

(** The decimal value of a NUMBER literal. *)
Definition decimal_value (lexeme : string) : Z :=
  match lexeme with
  | "" => 0
  | String c r =>
      if Ascii.eqb c "+" then weighted_sum r
      else if Ascii.eqb c "-" then (- weighted_sum r)%Z
      else weighted_sum lexeme
  end.

(** No surrogate code point: its three bytes would start with ED and a
    byte from A0 to BF.  A Python string with a surrogate has no UTF-8
    encoding, and the XML parser is never reached with it. *)
Fixpoint no_surrogate (s : string) : bool :=
  match s with
  | "" => true
  | String a r =>
      match r with
      | String b _ =>
          negb ((code a =? 237)%nat && (160 <=? code b)%nat
                && (code b <=? 191)%nat)
      | "" => true
      end && no_surrogate r
  end.

(** A value that [str] and the encoder accept: every integer has at most
    [int_max_str_digits] digits and no text has a surrogate. *)
Fixpoint representable (o : pyobj) : Prop :=
  match o with
  | PInt z => (Z.abs z < 10 ^ Z.of_nat int_max_str_digits)%Z
  | PStr s => no_surrogate s = true
  | PList l =>
      (fix all (l : list pyobj) : Prop :=
         match l with
         | [] => True
         | x :: l' => representable x /\ all l'
         end) l
  | PTuple _ v => representable v
  | PDict d =>
      (fix all (d : list (string * pyobj)) : Prop :=
         match d with
         | [] => True
         | kv :: d' => representable (snd kv) /\ all d'
         end) d
  end.

(** The characters of ASCII.  On a text of ASCII characters the digits of
    the pattern [\d] are the ten ASCII digits and [repr] is the one of
    [repr_char]. *)
Definition is_ascii (c : ascii) : bool := (code c <? 128)%nat.

(** A token with the lexeme of its terminal: the keyword and the
    punctuation marks are their literal, the other terminals have the
    shape of their pattern. *)
Definition token_ok (tok : Token) : Prop :=
  match type tok with
  | DEF => value tok = "def"
  | EQUAL => value tok = "="
  | LBRACE => value tok = "{"
  | RBRACE => value tok = "}"
  | COMMA => value tok = ","
  | QUESTION_MARK => value tok = "?"
  | LBRACKET => value tok = "["
  | RBRACKET => value tok = "]"
  | _ => lexeme_ok tok
  end.

(** Parse trees of the grammar, every token of which is of the terminal
    that its place needs and carries a lexeme of that terminal. *)
Fixpoint wf_value (t : Tree) : Prop :=
  match t with
  | T_number tok => type tok = NUMBER /\ token_ok tok
  | T_string tok => type tok = STRING_DOUBLE /\ token_ok tok
  | T_resolve_const q l n r =>
      (type q = QUESTION_MARK /\ token_ok q)
      /\ (type l = LBRACKET /\ token_ok l)
      /\ (type n = NAME /\ token_ok n)
      /\ (type r = RBRACKET /\ token_ok r)
  | T_array cs =>
      cs <> [] /\
      (fix all (cs : list Tree) : Prop :=
         match cs with
         | [] => True
         | c :: cs' => wf_value c /\ all cs'
         end) cs
  | T_start _ | T_assign_const _ _ => False
  end.

Definition wf_item (t : Tree) : Prop :=
  match t with
  | T_assign_const n v => (type n = NAME /\ token_ok n) /\ wf_value v
  | _ => wf_value t
  end.

(** A token whose numeral, if it is a NUMBER, is within the limit of
    [int], and a text all of whose numerals are. *)
Definition numeral_ok (tok : Token) : Prop :=
  type tok = NUMBER ->
  (String.length (digits_of (value tok)) <= int_max_str_digits)%nat.

Definition numerals_ok (text : string) : Prop :=
  forall toks, lex text = Some toks -> Forall numeral_ok toks.

(** * Properties *)

(** ** Strings *)

Lemma append_nil_r (s : string) : s ++ "" = s.
Proof. induction s; simpl; congruence. Qed.

Lemma append_assoc (a b c : string) : (a ++ b) ++ c = a ++ (b ++ c).
Proof. induction a; simpl; congruence. Qed.

Lemma length_append (a b : string) :
  String.length (a ++ b) = (String.length a + String.length b)%nat.
Proof. induction a; simpl; congruence. Qed.

Lemma span_append (p : ascii -> bool) (s : string) :
  fst (span p s) ++ snd (span p s) = s.
Proof.
  induction s as [|c r IH]; simpl; [reflexivity|].
  destruct (p c); [|reflexivity].
  destruct (span p r) as [a b]; simpl in *; congruence.
Qed.

Lemma span_forallb (p : ascii -> bool) (s : string) :
  forallb_str p (fst (span p s)) = true.
Proof.
  induction s as [|c r IH]; simpl; [reflexivity|].
  destruct (p c) eqn:E; [|reflexivity].
  destruct (span p r) as [a b]; simpl in *. now rewrite E.
Qed.

Lemma span_stops (p : ascii -> bool) (s : string) : stops p (snd (span p s)).
Proof.
  induction s as [|c r IH]; simpl; [exact I|].
  destruct (p c) eqn:E; [|exact E].
  destruct (span p r) as [a b]; simpl in *; exact IH.
Qed.

Lemma span_app (p : ascii -> bool) (a r : string) :
  forallb_str p a = true -> stops p r -> span p (a ++ r) = (a, r).
Proof.
  induction a as [|c a IH]; simpl; intros Ha Hr.
  - destruct r as [|c r]; simpl in *; [reflexivity|now rewrite Hr].
  - apply andb_true_iff in Ha as [Hc Ha]. rewrite Hc, (IH Ha Hr). reflexivity.
Qed.

(** ** Decimal numerals *)

Ltac eval_digit :=
  match goal with
  | |- context [digit_value ?c] =>
      let v := eval vm_compute in (digit_value c) in
      change (digit_value c) with v
  end; cbv iota beta.

Lemma digits_acc_of_uint_acc (d : Decimal.uint) (acc : positive) :
  digits_acc (NilEmpty.string_of_uint d) (Z.pos acc)
  = Some (Z.pos (Pos.of_uint_acc d acc)).
Proof.
  revert acc; induction d; intros acc;
    cbn [NilEmpty.string_of_uint digits_acc Pos.of_uint_acc];
    [reflexivity| ..];
    rewrite <- IHd; eval_digit; f_equal; lia.
Qed.

Lemma digits_acc_of_uint (d : Decimal.uint) :
  digits_acc (NilEmpty.string_of_uint d) 0 = Some (Z.of_uint d).
Proof.
  unfold Z.of_uint.
  induction d;
    cbn [NilEmpty.string_of_uint digits_acc Pos.of_uint Z.of_N];
    [reflexivity | eval_digit; exact IHd | ..];
    rewrite <- digits_acc_of_uint_acc; eval_digit; reflexivity.
Qed.

Lemma string_of_uint_first_digit (d : Decimal.uint) :
  d <> Decimal.Nil ->
  exists c r, NilEmpty.string_of_uint d = String c r /\ is_digit c = true.
Proof.
  destruct d; intros H; try congruence; simpl; eauto.
Qed.

Lemma is_digit_not_sign (c : ascii) :
  is_digit c = true -> Ascii.eqb c "+" = false /\ Ascii.eqb c "-" = false.
Proof.
  destruct c as [[|] [|] [|] [|] [|] [|] [|] [|]]; vm_compute; intros H;
    try discriminate H; split; reflexivity.
Qed.

Lemma py_int_unsigned (d : Decimal.uint) :
  d <> Decimal.Nil ->
  py_int (NilEmpty.string_of_uint d) = Some (Z.of_uint d).
Proof.
  intros Hd. destruct (string_of_uint_first_digit d Hd) as (c & r & E & Hc).
  pose proof (digits_acc_of_uint d) as H. rewrite E in *.
  destruct (is_digit_not_sign c Hc) as [H1 H2].
  unfold py_int. rewrite H1, H2. exact H.
Qed.

Lemma string_of_uint_nonnil (d : Decimal.uint) :
  d <> Decimal.Nil -> NilZero.string_of_uint d = NilEmpty.string_of_uint d.
Proof. destruct d; intros H; [congruence | reflexivity ..]. Qed.

Lemma digits_int_unsigned (d : Decimal.uint) :
  d <> Decimal.Nil ->
  digits_int (NilEmpty.string_of_uint d) = Some (Z.of_uint d).
Proof.
  intros Hd. destruct (string_of_uint_first_digit d Hd) as (c & r & E & _).
  unfold digits_int. rewrite <- digits_acc_of_uint. now rewrite E.
Qed.

(** [int(str(z)) == z] for every integer. *)
Lemma py_int_str_int (z : Z) : py_int (py_str_int z) = Some z.
Proof.
  unfold py_str_int. destruct z as [|p|p]; [reflexivity| |];
    pose proof (DecimalPos.Unsigned.to_uint_nonnil p) as Hn;
    cbn [Z.to_int NilZero.string_of_int];
    rewrite (string_of_uint_nonnil _ Hn).
  - rewrite (py_int_unsigned _ Hn). unfold Z.of_uint.
    now rewrite DecimalPos.Unsigned.of_to.
  - cbn [py_int]. change (Ascii.eqb "-" "+") with false.
    change (Ascii.eqb "-" "-") with true. cbv iota.
    rewrite (digits_int_unsigned _ Hn). unfold Z.of_uint.
    now rewrite DecimalPos.Unsigned.of_to.
Qed.

Lemma py_str_int_inj (a b : Z) : py_str_int a = py_str_int b -> a = b.
Proof.
  intros H. pose proof (py_int_str_int a) as Ha. rewrite H, py_int_str_int in Ha.
  congruence.
Qed.

(** ** Lexer: every token is a non-empty prefix of the text *)

Lemma startswith_drop (pre s : string) :
  startswith pre s = true -> s = pre ++ drop (String.length pre) s.
Proof.
  revert s; induction pre as [|a p IH]; intros s H; simpl in *; [reflexivity|].
  destruct s as [|b r]; [discriminate|].
  apply andb_true_iff in H as [Hab H]. apply Ascii.eqb_eq in Hab. subst b.
  simpl. f_equal. now apply IH.
Qed.

Lemma startswith_append (pre s : string) : startswith pre (pre ++ s) = true.
Proof.
  induction pre as [|a p IH]; simpl; [reflexivity|].
  now rewrite Ascii.eqb_refl.
Qed.

Lemma drop_append (pre s : string) : drop (String.length pre) (pre ++ s) = s.
Proof. induction pre; simpl; auto. Qed.

Lemma match_literal_sound (lit : string) :
  lit <> "" -> matcher_sound (match_literal lit).
Proof.
  intros Hl s lexeme rest. unfold match_literal.
  destruct (startswith lit s) eqn:E; [|discriminate].
  intros [= <- <-]. split; [now apply startswith_drop | exact Hl].
Qed.

Lemma match_NAME_sound : matcher_sound match_NAME.
Proof.
  intros s lexeme rest. unfold match_NAME.
  destruct s as [|c r]; [discriminate|].
  destruct (is_name_start c); [|discriminate].
  pose proof (span_append is_name_char r) as H.
  destruct (span is_name_char r) as [a b]; simpl in H.
  intros [= <- <-]. split; [simpl; congruence | discriminate].
Qed.

Lemma match_digits_sound : matcher_sound match_digits.
Proof.
  intros s lexeme rest. unfold match_digits.
  pose proof (span_append is_digit s) as H.
  destruct (span is_digit s) as [a b]; simpl in H.
  destruct a; [discriminate|].
  intros [= <- <-]. split; [congruence | discriminate].
Qed.

Lemma match_NUMBER_sound : matcher_sound match_NUMBER.
Proof.
  intros s lexeme rest. unfold match_NUMBER.
  destruct s as [|c r]; [discriminate|].
  destruct (is_sign c).
  - destruct (match_digits r) as [[ds rest']|] eqn:E; [|discriminate].
    apply match_digits_sound in E as [E _].
    intros [= <- <-]. split; [simpl; congruence | discriminate].
  - apply match_digits_sound.
Qed.

Lemma match_STRING_DOUBLE_sound : matcher_sound match_STRING_DOUBLE.
Proof.
  intros s lexeme rest. unfold match_STRING_DOUBLE.
  destruct s as [|c r]; [discriminate|].
  destruct (Ascii.eqb c "034"); [|discriminate].
  pose proof (span_append not_dquote r) as H.
  destruct (span not_dquote r) as [a b]; simpl in H.
  destruct b as [|q b]; [discriminate|].
  intros [= <- <-]. split; [|discriminate].
  simpl. rewrite append_assoc. simpl. congruence.
Qed.

Lemma match_COMMENT_SINGLE_sound : matcher_sound match_COMMENT_SINGLE.
Proof.
  intros s lexeme rest. unfold match_COMMENT_SINGLE.
  destruct (startswith "--" s) eqn:E; [|discriminate].
  apply startswith_drop in E.
  pose proof (span_append not_newline (drop 2 s)) as H.
  destruct (span not_newline (drop 2 s)) as [a b]; simpl in H.
  intros [= <- <-]. split; [|discriminate].
  change (s = "--" ++ (a ++ b)). rewrite H. exact E.
Qed.

Lemma until_close_sound (s body rest : string) :
  until_close s = Some (body, rest) -> s = body ++ rest.
Proof.
  revert body rest; induction s as [|c r IH]; intros body rest;
    [discriminate|].
  cbn [until_close].
  destruct (startswith "#|" (String c r)) eqn:E.
  - intros [= <- <-]. now apply startswith_drop in E.
  - destruct (until_close r) as [[a b]|]; [|discriminate].
    intros [= <- <-]. simpl. f_equal. now apply IH.
Qed.

Lemma match_COMMENT_MULTI_sound : matcher_sound match_COMMENT_MULTI.
Proof.
  intros s lexeme rest. unfold match_COMMENT_MULTI.
  destruct (startswith "|#" s) eqn:E; [|discriminate].
  apply startswith_drop in E.
  destruct (until_close (drop 2 s)) as [[a b]|] eqn:U; [|discriminate].
  apply until_close_sound in U.
  intros [= <- <-]. split; [|discriminate].
  change (s = "|#" ++ (a ++ b)). rewrite <- U. exact E.
Qed.

Lemma match_WS_sound : matcher_sound match_WS.
Proof.
  intros s lexeme rest. unfold match_WS.
  pose proof (span_append is_ws s) as H.
  destruct (span is_ws s) as [a b]; simpl in H.
  destruct a; [discriminate|].
  intros [= <- <-]. split; [congruence | discriminate].
Qed.

Lemma terminals_sound : Forall (fun tm => matcher_sound (snd tm)) terminals.
Proof.
  unfold terminals.
  repeat (apply Forall_cons;
          [simpl; first [ apply match_literal_sound; discriminate
                        | apply match_NAME_sound | apply match_NUMBER_sound
                        | apply match_STRING_DOUBLE_sound
                        | apply match_COMMENT_SINGLE_sound
                        | apply match_COMMENT_MULTI_sound
                        | apply match_WS_sound ] |]).
  apply Forall_nil.
Qed.

Lemma first_match_sound (ts : list (terminal * matcher)) :
  Forall (fun tm => matcher_sound (snd tm)) ts ->
  forall s tok rest, first_match ts s = Some (tok, rest) ->
    s = value tok ++ rest /\ value tok <> "".
Proof.
  induction 1 as [|[t m] ts Hm _ IH]; intros s tok rest; simpl; [discriminate|].
  destruct (m s) as [[lexeme r]|] eqn:E.
  - intros [= <- <-]. simpl. now apply Hm.
  - apply IH.
Qed.

Lemma next_token_sound (s : string) (tok : Token) (rest : string) :
  next_token s = Some (tok, rest) -> s = value tok ++ rest /\ value tok <> "".
Proof. apply first_match_sound, terminals_sound. Qed.

Lemma next_token_shorter (s : string) (tok : Token) (rest : string) :
  next_token s = Some (tok, rest) -> (String.length rest < String.length s)%nat.
Proof.
  intros H. apply next_token_sound in H as [-> Hne].
  rewrite length_append. destruct (value tok); [congruence | simpl; lia].
Qed.

(** The fuel of [lex_all] is enough: more fuel never changes the result, so
    a [None] is a lexical error and never a lack of fuel. *)
Lemma lex_fuel_enough (n : nat) (s : string) :
  (String.length s <= n)%nat -> lex_fuel n s = lex_all s.
Proof.
  unfold lex_all.
  remember (String.length s) as k eqn:Hk.
  revert n s Hk. induction k as [k IH] using lt_wf_ind. intros n s Hk Hn.
  destruct s as [|c r]; [destruct n, k; reflexivity|].
  destruct n as [|n]; [simpl in *; lia|].
  destruct k as [|k]; [discriminate|].
  cbn [lex_fuel].
  destruct (next_token (String c r)) as [[tok rest]|] eqn:E; [|reflexivity].
  pose proof (next_token_shorter _ _ _ E) as Hlt. simpl in Hlt, Hk, Hn.
  rewrite (IH (String.length rest)) by lia.
  rewrite (IH (String.length rest) ltac:(lia) k rest eq_refl ltac:(lia)).
  reflexivity.
Qed.

Lemma lex_all_nil : lex_all "" = Some [].
Proof. reflexivity. Qed.

(** The unfolding of [lex_all] at a non-empty text. *)
Lemma lex_all_step (s : string) :
  s <> "" ->
  lex_all s =
  match next_token s with
  | None => None
  | Some (tok, rest) =>
      match lex_all rest with
      | Some toks => Some (tok :: toks)
      | None => None
      end
  end.
Proof.
  intros Hs. destruct s as [|c r]; [congruence|].
  unfold lex_all at 1. cbn [String.length lex_fuel].
  destruct (next_token (String c r)) as [[tok rest]|] eqn:E; [|reflexivity].
  pose proof (next_token_shorter _ _ _ E) as Hlt. simpl in Hlt.
  rewrite lex_fuel_enough by lia. reflexivity.
Qed.

(** ** Dictionaries *)

Section DictFacts.
Context {V : Type}.
Implicit Types (d : dict V) (k : string) (v : V).

Lemma dict_mem_get k d : dict_mem k d = true <-> dict_get k d <> None.
Proof.
  induction d as [|[k' v'] d IH]; simpl; [intuition congruence|].
  destruct (String.eqb k' k); simpl; [intuition congruence | exact IH].
Qed.

Lemma dict_mem_keys k d : dict_mem k d = existsb (String.eqb k) (dict_keys d).
Proof.
  induction d as [|[k' v'] d IH]; simpl; [reflexivity|].
  now rewrite IH, (String.eqb_sym k k').
Qed.

Lemma dict_get_set_eq k v d : dict_get k (dict_set k v d) = Some v.
Proof.
  induction d as [|[k' v'] d IH]; simpl.
  - now rewrite String.eqb_refl.
  - destruct (String.eqb k' k) eqn:E; simpl; now rewrite E.
Qed.

Lemma dict_get_set_neq k k' v d :
  k <> k' -> dict_get k' (dict_set k v d) = dict_get k' d.
Proof.
  intros Hne. induction d as [|[k0 v0] d IH]; simpl.
  - apply String.eqb_neq in Hne. now rewrite Hne.
  - destruct (String.eqb k0 k) eqn:E; simpl.
    + apply String.eqb_eq in E. subst k0.
      apply String.eqb_neq in Hne. now rewrite Hne.
    + destruct (String.eqb k0 k'); [reflexivity | exact IH].
Qed.

Lemma dict_get_set k k' v d :
  dict_get k' (dict_set k v d)
  = if String.eqb k k' then Some v else dict_get k' d.
Proof.
  destruct (String.eqb_spec k k') as [->|Hne].
  - apply dict_get_set_eq.
  - now apply dict_get_set_neq.
Qed.

(** Assignment to a key that is present changes no key and no position. *)
Lemma dict_keys_set_present k v d :
  dict_mem k d = true -> dict_keys (dict_set k v d) = dict_keys d.
Proof.
  induction d as [|[k' v'] d IH]; simpl; [discriminate|].
  destruct (String.eqb k' k) eqn:E; simpl; [reflexivity|].
  intros H. now rewrite IH.
Qed.

(** Assignment to a new key appends it. *)
Lemma dict_keys_set_absent k v d :
  dict_mem k d = false -> dict_keys (dict_set k v d) = (dict_keys d ++ [k])%list.
Proof.
  induction d as [|[k' v'] d IH]; simpl; [reflexivity|].
  destruct (String.eqb k' k) eqn:E; simpl; [discriminate|].
  intros H. now rewrite IH.
Qed.

Lemma dict_writes_keys ws d :
  dict_keys (dict_writes ws d)
  = (dict_keys d ++ first_occurrences (dict_keys d) (map fst ws))%list.
Proof.
  revert d; induction ws as [|[k v] ws IH]; intros d; simpl.
  - now rewrite app_nil_r.
  - rewrite IH. simpl. rewrite <- dict_mem_keys.
    destruct (dict_mem k d) eqn:E.
    + now rewrite dict_keys_set_present.
    + rewrite dict_keys_set_absent by assumption.
      now rewrite <- app_assoc.
Qed.

Lemma dict_writes_get ws d k :
  dict_get k (dict_writes ws d)
  = match last_write k ws with
    | Some v => Some v
    | None => dict_get k d
    end.
Proof.
  revert d; induction ws as [|[k' v] ws IH]; intros d; simpl; [reflexivity|].
  rewrite IH. destruct (last_write k ws); [reflexivity|].
  rewrite dict_get_set. now destruct (String.eqb k' k).
Qed.
End DictFacts.

(** ** Lexer: the shape of the lexemes *)

Lemma is_sign_spec (c : ascii) :
  is_sign c = true <-> (c = "+"%char \/ c = "-"%char).
Proof.
  unfold is_sign. rewrite orb_true_iff, !Ascii.eqb_eq. reflexivity.
Qed.

Lemma is_digit_not_is_sign (c : ascii) : is_digit c = true -> is_sign c = false.
Proof.
  intros H. destruct (is_digit_not_sign c H) as [H1 H2].
  unfold is_sign. now rewrite H1, H2.
Qed.

Lemma match_digits_shape (s ds rest : string) :
  match_digits s = Some (ds, rest) ->
  nonempty ds = true /\ forallb_str is_digit ds = true /\ stops is_digit rest.
Proof.
  unfold match_digits.
  pose proof (span_forallb is_digit s) as H.
  pose proof (span_stops is_digit s) as H'.
  destruct (span is_digit s) as [a b]; simpl in H, H'.
  destruct a; [discriminate|]. intros [= <- <-]. auto.
Qed.

Lemma digits_NUMBER_lexeme (ds : string) :
  nonempty ds = true -> forallb_str is_digit ds = true ->
  is_NUMBER_lexeme ds = true.
Proof.
  destruct ds as [|c r]; [discriminate|]. intros _ H.
  unfold is_NUMBER_lexeme.
  pose proof H as H0. simpl in H0. apply andb_true_iff in H0 as [Hc _].
  now rewrite (is_digit_not_is_sign c Hc).
Qed.

Lemma match_NUMBER_shape : matcher_shape NUMBER match_NUMBER.
Proof.
  intros s lexeme rest. unfold match_NUMBER, lexeme_ok. simpl.
  destruct s as [|c r]; [discriminate|].
  destruct (is_sign c) eqn:Hc.
  - destruct (match_digits r) as [[ds rest']|] eqn:E; [|discriminate].
    apply match_digits_shape in E as (Hn & Hd & _).
    intros [= <- <-]. simpl. now rewrite Hc, Hn, Hd.
  - intros E. apply match_digits_shape in E as (Hn & Hd & _).
    now apply digits_NUMBER_lexeme.
Qed.

Lemma match_NAME_shape : matcher_shape NAME match_NAME.
Proof.
  intros s lexeme rest. unfold match_NAME, lexeme_ok. simpl.
  destruct s as [|c r]; [discriminate|].
  destruct (is_name_start c) eqn:Hc; [|discriminate].
  pose proof (span_forallb is_name_char r) as H.
  destruct (span is_name_char r) as [a b]; simpl in H.
  intros [= <- <-]. simpl. now rewrite Hc, H.
Qed.

Lemma match_STRING_DOUBLE_shape : matcher_shape STRING_DOUBLE match_STRING_DOUBLE.
Proof.
  intros s lexeme rest. unfold match_STRING_DOUBLE, lexeme_ok. simpl.
  destruct s as [|c r]; [discriminate|].
  destruct (Ascii.eqb c "034") eqn:Hc; [|discriminate].
  apply Ascii.eqb_eq in Hc. subst c.
  pose proof (span_forallb not_dquote r) as H.
  pose proof (span_stops not_dquote r) as H'.
  destruct (span not_dquote r) as [a b]; simpl in H, H'.
  destruct b as [|q b]; [discriminate|]. simpl in H'.
  unfold not_dquote in H'. apply negb_false_iff, Ascii.eqb_eq in H'. subst q.
  intros [= <- <-]. exists a. split; [reflexivity | exact H].
Qed.

Lemma match_WS_shape : matcher_shape WS match_WS.
Proof.
  intros s lexeme rest. unfold match_WS, lexeme_ok, is_WS_lexeme. simpl.
  pose proof (span_forallb is_ws s) as H.
  destruct (span is_ws s) as [a b]; simpl in H.
  destruct a; [discriminate|]. intros [= <- <-]. now rewrite H.
Qed.

Lemma trivial_shape (t : terminal) (m : matcher) :
  match t with NAME | NUMBER | STRING_DOUBLE | WS => False | _ => True end ->
  matcher_shape t m.
Proof.
  intros Ht s lexeme rest _. unfold lexeme_ok. simpl. now destruct t.
Qed.

Lemma terminals_shape :
  Forall (fun tm => matcher_shape (fst tm) (snd tm)) terminals.
Proof.
  unfold terminals.
  repeat (apply Forall_cons;
          [simpl; first [ apply match_NAME_shape | apply match_NUMBER_shape
                        | apply match_STRING_DOUBLE_shape | apply match_WS_shape
                        | apply trivial_shape; exact I ] |]).
  apply Forall_nil.
Qed.

Lemma first_match_shape (ts : list (terminal * matcher)) :
  Forall (fun tm => matcher_shape (fst tm) (snd tm)) ts ->
  forall s tok rest, first_match ts s = Some (tok, rest) -> lexeme_ok tok.
Proof.
  induction 1 as [|[t m] ts Hm _ IH]; intros s tok rest; simpl; [discriminate|].
  destruct (m s) as [[lexeme r]|] eqn:E.
  - intros [= <- <-]. now apply (Hm s lexeme r).
  - apply IH.
Qed.

Lemma next_token_shape (s : string) (tok : Token) (rest : string) :
  next_token s = Some (tok, rest) -> lexeme_ok tok.
Proof. apply first_match_shape, terminals_shape. Qed.

(** Induction along a successful run of the lexer. *)
Lemma lex_all_ind (P : string -> list Token -> Prop) :
  P "" [] ->
  (forall s tok rest toks,
      s <> "" -> next_token s = Some (tok, rest) ->
      lex_all rest = Some toks -> P rest toks -> P s (tok :: toks)) ->
  forall s toks, lex_all s = Some toks -> P s toks.
Proof.
  intros H0 Hstep s.
  remember (String.length s) as k eqn:Hk.
  revert s Hk. induction k as [k IH] using lt_wf_ind. intros s Hk toks H.
  destruct s as [|c r].
  - rewrite lex_all_nil in H. injection H as <-. exact H0.
  - rewrite lex_all_step in H by discriminate.
    destruct (next_token (String c r)) as [[tok rest]|] eqn:E; [|discriminate].
    destruct (lex_all rest) as [toks'|] eqn:E'; [|discriminate].
    injection H as <-.
    apply (Hstep _ _ rest); [discriminate | exact E | exact E' |].
    apply (IH (String.length rest)); [|reflexivity | exact E'].
    subst k. now apply next_token_shorter in E.
Qed.

Lemma lex_all_shape (s : string) (toks : list Token) :
  lex_all s = Some toks -> Forall lexeme_ok toks.
Proof.
  revert s toks. apply lex_all_ind; [constructor|].
  intros s tok rest toks _ E _ IH. constructor; [|exact IH].
  now apply next_token_shape in E.
Qed.

Lemma significant_Forall (P : Token -> Prop) (toks : list Token) :
  Forall P toks -> Forall P (significant toks).
Proof.
  unfold significant. induction 1; simpl; [constructor|].
  destruct (negb (ignored (type x))); [constructor|]; assumption.
Qed.

Lemma lex_shape (s : string) (toks : list Token) :
  lex s = Some toks -> Forall lexeme_ok toks.
Proof.
  unfold lex. destruct (lex_all s) as [all|] eqn:E; [|discriminate].
  intros [= <-]. apply significant_Forall. now apply lex_all_shape in E.
Qed.

(** ** Lexer: one terminal at a time *)

Lemma forallb_str_append (p : ascii -> bool) (a b : string) :
  forallb_str p (a ++ b) = (forallb_str p a && forallb_str p b)%bool.
Proof.
  induction a as [|c a IH]; simpl; [reflexivity|].
  now rewrite IH, andb_assoc.
Qed.

Lemma is_ws_cases (c : ascii) :
  is_ws c = true ->
  c = " "%char \/ c = "009"%char \/ c = "012"%char \/ c = "013"%char
  \/ c = "010"%char.
Proof.
  unfold is_ws. rewrite !orb_true_iff, !Ascii.eqb_eq. tauto.
Qed.

Lemma is_ws_not_digit (c : ascii) : is_ws c = true -> is_digit c = false.
Proof.
  intros H. destruct (is_ws_cases c H) as [->|[->|[->|[->| ->]]]]; reflexivity.
Qed.

(** At a white-space character only WS matches. *)
Lemma next_token_ws_start (c : ascii) (x : string) :
  is_ws c = true ->
  next_token (String c x)
  = match match_WS (String c x) with
    | Some (lexeme, rest) => Some (mkToken WS lexeme, rest)
    | None => None
    end.
Proof.
  intros H. destruct (is_ws_cases c H) as [->|[->|[->|[->| ->]]]]; reflexivity.
Qed.

Lemma next_token_WS (a r : string) :
  is_WS_lexeme a = true -> stops is_ws r ->
  next_token (a ++ r) = Some (mkToken WS a, r).
Proof.
  unfold is_WS_lexeme. intros H Hr. apply andb_true_iff in H as [Hn Ha].
  destruct a as [|c a]; [discriminate|].
  pose proof Ha as Hc. cbn [forallb_str] in Hc.
  apply andb_true_iff in Hc as [Hc _].
  change (String c a ++ r) with (String c (a ++ r)).
  rewrite (next_token_ws_start c _ Hc).
  change (String c (a ++ r)) with (String c a ++ r).
  unfold match_WS. now rewrite (span_app is_ws _ _ Ha Hr).
Qed.

Lemma lex_skip_token (s : string) (tok : Token) (rest : string) :
  next_token s = Some (tok, rest) -> ignored (type tok) = true ->
  lex s = lex rest.
Proof.
  intros E Hi. unfold lex. rewrite (lex_all_step s).
  - rewrite E. destruct (lex_all rest); [|reflexivity].
    simpl. unfold significant at 1. simpl. now rewrite Hi.
  - apply next_token_sound in E as [-> Hne].
    destruct (value tok); [congruence | discriminate].
Qed.

(** White space in front of a text does not change its tokens. *)
Lemma lex_skip_ws (w r : string) :
  forallb_str is_ws w = true -> lex (w ++ r) = lex r.
Proof.
  intros Hw.
  pose proof (span_append is_ws r) as Hr.
  pose proof (span_forallb is_ws r) as Hw'.
  pose proof (span_stops is_ws r) as Hs.
  destruct (span is_ws r) as [w' r']; simpl in Hr, Hw', Hs. subst r.
  assert (Hstep : forall a, forallb_str is_ws a = true ->
                            lex (a ++ r') = lex r').
  { intros a Ha. destruct a as [|c a]; [reflexivity|].
    apply (lex_skip_token _ (mkToken WS (String c a))); [|reflexivity].
    apply next_token_WS; [|exact Hs].
    unfold is_WS_lexeme. now rewrite Ha. }
  rewrite <- append_assoc, !Hstep; [reflexivity | exact Hw' |].
  now rewrite forallb_str_append, Hw, Hw'.
Qed.

(** At a sign or a digit, a NUMBER that matches is the token. *)
Lemma next_token_number_start (c : ascii) (x lexeme rest : string) :
  (is_sign c || is_digit c)%bool = true ->
  match_NUMBER (String c x) = Some (lexeme, rest) ->
  next_token (String c x) = Some (mkToken NUMBER lexeme, rest).
Proof.
  intros Hc Hm.
  assert (E : next_token (String c x)
              = match match_NUMBER (String c x) with
                | Some (lexeme, rest) => Some (mkToken NUMBER lexeme, rest)
                | None => first_match (skipn 10 terminals) (String c x)
                end).
  { clear Hm.
    destruct c as [[|] [|] [|] [|] [|] [|] [|] [|]];
      try (exfalso; vm_compute in Hc; discriminate Hc); reflexivity. }
  now rewrite E, Hm.
Qed.

Lemma match_NUMBER_lexeme (lexeme r : string) :
  is_NUMBER_lexeme lexeme = true -> stops is_digit r ->
  match_NUMBER (lexeme ++ r) = Some (lexeme, r).
Proof.
  destruct lexeme as [|c l]; [discriminate|].
  intros H Hr. unfold is_NUMBER_lexeme in H.
  change (String c l ++ r) with (String c (l ++ r)).
  cbn [match_NUMBER]. destruct (is_sign c) eqn:Hsgn.
  - apply andb_true_iff in H as [Hn Hd].
    unfold match_digits. rewrite (span_app is_digit _ _ Hd Hr).
    destruct l; [discriminate | reflexivity].
  - change (String c (l ++ r)) with (String c l ++ r).
    unfold match_digits. now rewrite (span_app is_digit _ _ H Hr).
Qed.

Lemma NUMBER_lexeme_start (c : ascii) (l : string) :
  is_NUMBER_lexeme (String c l) = true -> (is_sign c || is_digit c)%bool = true.
Proof.
  unfold is_NUMBER_lexeme. destruct (is_sign c); [reflexivity|].
  cbn [forallb_str]. intros H. apply andb_true_iff in H as [-> _]. reflexivity.
Qed.

Lemma next_token_NUMBER (lexeme r : string) :
  is_NUMBER_lexeme lexeme = true -> stops is_digit r ->
  next_token (lexeme ++ r) = Some (mkToken NUMBER lexeme, r).
Proof.
  intros H Hr. pose proof (match_NUMBER_lexeme _ _ H Hr) as Hm.
  destruct lexeme as [|c l]; [discriminate|].
  apply next_token_number_start; [|exact Hm].
  now apply (NUMBER_lexeme_start c l).
Qed.

Lemma next_token_STRING (lexeme r : string) :
  is_STRING_lexeme lexeme ->
  next_token (lexeme ++ r) = Some (mkToken STRING_DOUBLE lexeme, r).
Proof.
  intros (body & -> & Hb).
  assert (Hm : match_STRING_DOUBLE ((dq ++ body ++ dq) ++ r)
               = Some (dq ++ body ++ dq, r)).
  { change ((dq ++ body ++ dq) ++ r) with (String "034" ((body ++ dq) ++ r)).
    unfold match_STRING_DOUBLE. rewrite Ascii.eqb_refl.
    rewrite append_assoc, (span_app not_dquote body (dq ++ r) Hb);
      reflexivity. }
  assert (E : forall x,
             next_token (String "034" x)
             = match match_STRING_DOUBLE (String "034" x) with
               | Some (lexeme, rest) => Some (mkToken STRING_DOUBLE lexeme, rest)
               | None => first_match (skipn 11 terminals) (String "034" x)
               end) by reflexivity.
  change ((dq ++ body ++ dq) ++ r) with (String "034" ((body ++ dq) ++ r)) in *.
  now rewrite E, Hm.
Qed.

(** At a capital letter or an underscore only NAME matches. *)
Lemma next_token_name_start (c : ascii) (x : string) :
  is_name_start c = true ->
  next_token (String c x)
  = match match_NAME (String c x) with
    | Some (lexeme, rest) => Some (mkToken NAME lexeme, rest)
    | None => None
    end.
Proof.
  intros Hc.
  destruct c as [[|] [|] [|] [|] [|] [|] [|] [|]];
    try (exfalso; vm_compute in Hc; discriminate Hc); reflexivity.
Qed.

Lemma match_WS_start (s lexeme rest : string) :
  match_WS s = Some (lexeme, rest) ->
  exists c x, s = String c x /\ is_ws c = true.
Proof.
  unfold match_WS. destruct s as [|c x]; [discriminate|]. cbn [span].
  destruct (is_ws c) eqn:Hc.
  - intros _. now exists c, x.
  - intros H. cbv iota in H. discriminate H.
Qed.

Lemma match_NUMBER_start (s lexeme rest : string) :
  match_NUMBER s = Some (lexeme, rest) ->
  exists c x, s = String c x /\ (is_sign c || is_digit c)%bool = true.
Proof.
  unfold match_NUMBER. destruct s as [|c x]; [discriminate|].
  destruct (is_sign c) eqn:Hs.
  - intros _. exists c, x. now rewrite Hs.
  - unfold match_digits. cbn [span]. destruct (is_digit c) eqn:Hc.
    + intros _. exists c, x. now rewrite Hs, Hc.
    + intros H. cbv iota in H. discriminate H.
Qed.

(** The terminals exclude each other: whichever matcher matches at the
    start of a text, its match is the next token.  So the order in which
    the matchers are tried is immaterial. *)
Lemma terminal_match_next_token (t : terminal) (m : matcher)
    (s lexeme rest : string) :
  In (t, m) terminals -> m s = Some (lexeme, rest) ->
  next_token s = Some (mkToken t lexeme, rest).
Proof.
  assert (Hlit : forall lit, match_literal lit s = Some (lexeme, rest) ->
                 lexeme = lit /\ s = lit ++ rest).
  { intros lit. unfold match_literal.
    destruct (startswith lit s) eqn:E; [|discriminate].
    intros [= <- <-]. split; [reflexivity | now apply startswith_drop]. }
  unfold terminals. cbn [In].
  intros [H|[H|[H|[H|[H|[H|[H|[H|[H|[H|[H|[H|[H|[H|[]]]]]]]]]]]]]]];
    injection H as <- <-; intros Hm;
    try (destruct (Hlit _ Hm) as [-> ->]; reflexivity).
  - (* NAME *)
    destruct s as [|c x]; [discriminate|].
    assert (Hc : is_name_start c = true).
    { unfold match_NAME in Hm. now destruct (is_name_start c). }
    now rewrite (next_token_name_start c x Hc), Hm.
  - (* NUMBER *)
    destruct (match_NUMBER_start _ _ _ Hm) as (c & x & -> & Hc).
    now apply next_token_number_start.
  - (* STRING_DOUBLE *)
    pose proof Hm as Hs. apply match_STRING_DOUBLE_sound in Hs as [-> _].
    apply next_token_STRING.
    exact (match_STRING_DOUBLE_shape _ _ _ Hm).
  - (* COMMENT_SINGLE *)
    assert (Hs : exists x, s = "--" ++ x).
    { unfold match_COMMENT_SINGLE in Hm.
      destruct (startswith "--" s) eqn:E; [|discriminate].
      apply startswith_drop in E. eauto. }
    destruct Hs as [x ->].
    assert (E : next_token ("--" ++ x)
                = match match_COMMENT_SINGLE ("--" ++ x) with
                  | Some (lexeme, rest) =>
                      Some (mkToken COMMENT_SINGLE lexeme, rest)
                  | None => first_match (skipn 12 terminals) ("--" ++ x)
                  end) by reflexivity.
    now rewrite E, Hm.
  - (* COMMENT_MULTI *)
    assert (Hs : exists x, s = "|#" ++ x).
    { unfold match_COMMENT_MULTI in Hm.
      destruct (startswith "|#" s) eqn:E; [|discriminate].
      apply startswith_drop in E. eauto. }
    destruct Hs as [x ->].
    assert (E : next_token ("|#" ++ x)
                = match match_COMMENT_MULTI ("|#" ++ x) with
                  | Some (lexeme, rest) =>
                      Some (mkToken COMMENT_MULTI lexeme, rest)
                  | None => first_match (skipn 13 terminals) ("|#" ++ x)
                  end) by reflexivity.
    now rewrite E, Hm.
  - (* WS *)
    destruct (match_WS_start _ _ _ Hm) as (c & x & -> & Hc).
    now rewrite (next_token_ws_start c x Hc), Hm.
Qed.

Lemma terminals_disjoint (t1 t2 : terminal) (m1 m2 : matcher)
    (s : string) (r1 r2 : string * string) :
  In (t1, m1) terminals -> In (t2, m2) terminals ->
  m1 s = Some r1 -> m2 s = Some r2 -> t1 = t2 /\ r1 = r2.
Proof.
  destruct r1 as [l1 s1], r2 as [l2 s2]. intros H1 H2 E1 E2.
  pose proof (terminal_match_next_token _ _ _ _ _ H1 E1) as N1.
  pose proof (terminal_match_next_token _ _ _ _ _ H2 E2) as N2.
  rewrite N1 in N2. injection N2 as -> -> ->. auto.
Qed.

(** ** Parser: the trees it builds are trees of the grammar *)

Lemma value_tree_array (cs : list Tree) :
  value_tree (T_array cs) <-> cs <> [] /\ Forall value_tree cs.
Proof.
  simpl. apply and_iff_compat_l.
  induction cs as [|c cs IH]; [intuition constructor|].
  rewrite IH. split.
  - intros [H1 H2]. now constructor.
  - intros H. inversion H; subst. now split.
Qed.

Lemma value_tree_item (t : Tree) : value_tree t -> item_tree t.
Proof. destruct t; simpl; tauto. Qed.

Lemma reduce_value_ok (v : Tree) (st : pstate) :
  pdata_ok st -> value_tree v -> pstate_ok (reduce_value v st).
Proof.
  intros (Hi & Ho & Ht) Hv. unfold reduce_value.
  destruct (opened st) as [|acc outer] eqn:E.
  - repeat split; simpl; auto.
    constructor; [|exact Hi].
    destruct (target st); [simpl; tauto | now apply value_tree_item].
  - inversion Ho; subst. repeat split; simpl; auto.
    unfold mode_ok; simpl. eauto.
Qed.

Lemma value_start_ok (tok : Token) (st st' : pstate) :
  pdata_ok st -> lexeme_ok tok -> value_start tok st = Some st' -> pstate_ok st'.
Proof.
  intros Hd Htok. unfold value_start.
  destruct (type tok) eqn:Ety; try discriminate; intros [= <-].
  - destruct Hd as (Hi & Ho & Ht). repeat split; simpl; auto.
  - apply reduce_value_ok; simpl; auto.
  - apply reduce_value_ok; simpl; auto.
  - split; [exact Hd | exact I].
Qed.

Lemma pstep_ok (st st' : pstate) (tok : Token) :
  pstate_ok st -> lexeme_ok tok -> pstep st tok = Some st' -> pstate_ok st'.
Proof.
  intros [Hd Hm] Htok. unfold pstep, mode_ok in *.
  destruct (mode st) eqn:Em.
  - destruct (type tok) eqn:Ety;
      try (intros H; eapply value_start_ok; eauto;
           unfold value_start; rewrite Ety; exact H).
    intros [= <-]. split; [exact Hd | exact Hm].
  - destruct (type tok) eqn:Ety; try discriminate. intros [= <-].
    split; [exact Hd|]. unfold mode_ok; simpl. tauto.
  - destruct (type tok) eqn:Ety; try discriminate. intros [= <-].
    destruct Hd as (Hi & Ho & Ht). repeat split; simpl; tauto.
  - now apply value_start_ok.
  - destruct (type tok); try discriminate. intros [= <-]. split; [exact Hd | exact I].
  - destruct (type tok) eqn:Ety; try discriminate. intros [= <-].
    split; [exact Hd|]. unfold mode_ok; simpl. tauto.
  - destruct (type tok); try discriminate. intros [= <-].
    apply reduce_value_ok; simpl; auto.
  - destruct Hm as (v & acc & outer & Eo). rewrite Eo.
    destruct (type tok); try discriminate; intros [= <-].
    + destruct Hd as (Hi & Ho & Ht). rewrite Eo in Ho. inversion Ho; subst.
      apply reduce_value_ok.
      * repeat split; simpl; auto.
      * apply value_tree_array. split.
        -- simpl. intros H. apply app_eq_nil in H as [_ H]. discriminate.
        -- change (Forall value_tree (rev (v :: acc))). now apply Forall_rev.
    + split; [exact Hd | exact I].
Qed.

Lemma prun_ok (toks : list Token) (st st' : pstate) :
  pstate_ok st -> Forall lexeme_ok toks -> prun toks st = Some st' ->
  pstate_ok st'.
Proof.
  revert st; induction toks as [|tok toks IH]; intros st Hst Htoks; simpl.
  - now intros [= <-].
  - inversion Htoks; subst.
    destruct (pstep st tok) as [st1|] eqn:E; [|discriminate].
    apply IH; [|assumption]. eapply pstep_ok; eauto.
Qed.

Lemma pstate0_ok : pstate_ok pstate0.
Proof. repeat split; simpl; auto. Qed.

Lemma parse_items_ok (toks : list Token) (items : list Tree) :
  Forall lexeme_ok toks -> parse_items toks = Some items ->
  Forall item_tree items.
Proof.
  intros Htoks. unfold parse_items.
  destruct (prun toks pstate0) as [st|] eqn:E; [|discriminate].
  apply prun_ok in E; [|exact pstate0_ok | exact Htoks].
  destruct (mode st); try discriminate. intros [= <-].
  apply Forall_rev. apply E.
Qed.

Lemma prun_app (pre post : list Token) (st : pstate) :
  prun (pre ++ post) st
  = match prun pre st with
    | Some st' => prun post st'
    | None => None
    end.
Proof.
  revert st; induction pre as [|tok pre IH]; intros st; simpl; [reflexivity|].
  destruct (pstep st tok); [apply IH | reflexivity].
Qed.

(** ** The parser and the grammar

    The automaton accepts exactly the token sequences the grammar derives,
    with the parse tree of the derivation. *)

(** *** Every derivation is found *)

Lemma prun_derives_value :
  (forall toks v, derives_value toks v ->
     forall st rest, mode st = AtItem \/ mode st = AtValue ->
     prun (toks ++ rest)%list st = prun rest (reduce_value v st))
  /\ (forall toks cs, derives_elements toks cs ->
        forall st rest acc outer,
        mode st = AtValue -> opened st = acc :: outer ->
        prun (toks ++ rest)%list st
        = prun rest (mkPState AfterElement (items_rev st) (target st)
                       ((rev cs ++ acc)%list :: outer))).
Proof.
  apply derives_mutind.
  - intros tok Hty st rest Hm. cbn [app prun]. unfold pstep, value_start.
    destruct Hm as [-> | ->]; now rewrite Hty.
  - intros tok Hty st rest Hm. cbn [app prun]. unfold pstep, value_start.
    destruct Hm as [-> | ->]; now rewrite Hty.
  - intros q l n r Hq Hl Hn Hr st rest Hm. cbn [app prun].
    assert (E : pstep st q = Some (set_mode (AfterQuestion q) st)).
    { unfold pstep, value_start. destruct Hm as [-> | ->]; now rewrite Hq. }
    rewrite E. unfold pstep at 1. cbn [mode set_mode]. rewrite Hl.
    unfold pstep at 1. cbn [mode set_mode]. rewrite Hn.
    unfold pstep at 1. cbn [mode set_mode]. rewrite Hr. reflexivity.
  - intros lb rb toks cs Hlb Hrb _ IH st rest Hm. cbn [app prun].
    assert (E : pstep st lb
                = Some (mkPState AtValue (items_rev st) (target st)
                          ([] :: opened st))).
    { unfold pstep, value_start. destruct Hm as [-> | ->]; now rewrite Hlb. }
    rewrite E, <- app_assoc.
    rewrite (IH (mkPState AtValue (items_rev st) (target st) ([] :: opened st))
               _ [] (opened st) eq_refl eq_refl).
    cbn [app prun]. unfold pstep. cbn [mode opened items_rev target].
    rewrite Hrb, app_nil_r, rev_involutive. reflexivity.
  - intros toks v _ IH st rest acc outer Hm Ho.
    rewrite (IH st rest (or_intror Hm)). unfold reduce_value. now rewrite Ho.
  - intros toks toks' comma cs v _ IHe Hc _ IHv st rest acc outer Hm Ho.
    rewrite <- app_assoc. rewrite (IHe st _ acc outer Hm Ho).
    cbn [app prun]. unfold pstep at 1. cbn [mode opened]. rewrite Hc.
    rewrite IHv by (right; reflexivity).
    unfold reduce_value. cbn [opened set_mode items_rev target].
    now rewrite rev_app_distr.
Qed.

Lemma prun_derives_item (toks : list Token) (item : Tree) :
  derives_item toks item ->
  forall st rest, mode st = AtItem -> opened st = [] -> target st = None ->
  prun (toks ++ rest)%list st
  = prun rest (mkPState AtItem (item :: items_rev st) None []).
Proof.
  intros [d n e toks' v Hd Hn He Hv | toks' v Hv] st rest Hm Ho Ht.
  - cbn [app prun]. unfold pstep at 1. rewrite Hm, Hd.
    unfold pstep at 1. cbn [mode set_mode]. rewrite Hn.
    unfold pstep at 1. cbn [mode set_mode]. rewrite He.
    rewrite (proj1 prun_derives_value _ _ Hv) by (right; reflexivity).
    unfold reduce_value. cbn [opened set_mode items_rev target]. now rewrite Ho.
  - rewrite (proj1 prun_derives_value _ _ Hv) by (left; exact Hm).
    unfold reduce_value. now rewrite Ho, Ht.
Qed.

Lemma prun_derives_start (toks : list Token) (items : list Tree) :
  derives_start toks items ->
  prun toks pstate0 = Some (mkPState AtItem (rev items) None []).
Proof.
  induction 1 as [|toks toks' items item _ IH Hitem]; [reflexivity|].
  rewrite prun_app, IH. rewrite <- (app_nil_r toks').
  rewrite (prun_derives_item _ _ Hitem) by reflexivity.
  cbn [prun items_rev]. now rewrite rev_app_distr.
Qed.

Lemma parse_items_complete (toks : list Token) (items : list Tree) :
  derives_start toks items -> parse_items toks = Some items.
Proof.
  intros H. unfold parse_items. rewrite (prun_derives_start _ _ H).
  cbn [mode items_rev]. now rewrite rev_involutive.
Qed.

(** *** Every accepted sequence has a derivation *)

Ltac list_eq :=
  repeat (progress (repeat rewrite <- app_assoc; cbn [app];
                    repeat rewrite app_nil_r));
  reflexivity.

Lemma reduce_value_read (st : pstate) (ti tt ts tv : list Token) (v : Tree) :
  derives_start ti (rev (items_rev st)) ->
  target_tokens (target st) tt -> stack_tokens (opened st) ts ->
  derives_value tv v ->
  has_read (ti ++ tt ++ ts ++ tv)%list (reduce_value v st).
Proof.
  intros Hi Ht Hs Hv. unfold reduce_value.
  destruct (opened st) as [|acc outer] eqn:Eo.
  - inversion Hs; subst.
    exists (ti ++ tt ++ tv)%list, []. split; [list_eq|]. split.
    + cbn [items_rev rev]. apply DS_next; [exact Hi|].
      destruct (target st); inversion Ht; subst.
      * now apply DI_assignment.
      * now apply DI_value.
    + now apply CT_item.
  - inversion Hs as [|acc' outer' toks_outer toks_frame Hso Hf]; subst.
    inversion Hf as [lb Hlb | lb comma toks acc' Hlb Hc He]; subst.
    + exists ti, (tt ++ toks_outer ++ lb :: tv)%list. split; [list_eq|].
      split; [exact Hi|].
      apply (CT_element _ tt toks_outer (lb :: tv) [v] outer); auto.
      apply FC; [exact Hlb|]. now apply DE_first.
    + exists ti, (tt ++ toks_outer ++ lb :: (toks ++ comma :: tv))%list.
      split; [list_eq|]. split; [exact Hi|].
      apply (CT_element _ tt toks_outer (lb :: (toks ++ comma :: tv))%list
               (v :: acc) outer); auto.
      apply FC; [exact Hlb|]. cbn [rev]. now apply DE_next.
Qed.

Lemma value_start_read (st st' : pstate) (tok : Token) (ti tt ts : list Token) :
  derives_start ti (rev (items_rev st)) ->
  target_tokens (target st) tt -> stack_tokens (opened st) ts ->
  value_start tok st = Some st' ->
  has_read ((ti ++ tt ++ ts) ++ [tok])%list st'.
Proof.
  intros Hi Ht Hs. unfold value_start.
  destruct (type tok) eqn:Ety; try discriminate; intros [= <-].
  - exists ti, (tt ++ ts ++ [tok])%list. split; [list_eq|]. split; [exact Hi|].
    apply (CT_value _ tt (ts ++ [tok])%list); auto.
    apply ST_frame; [exact Hs | now apply FO_empty].
  - replace ((ti ++ tt ++ ts) ++ [tok])%list
      with (ti ++ tt ++ ts ++ [tok])%list by list_eq.
    apply reduce_value_read; auto. now apply DV_number.
  - replace ((ti ++ tt ++ ts) ++ [tok])%list
      with (ti ++ tt ++ ts ++ [tok])%list by list_eq.
    apply reduce_value_read; auto. now apply DV_string.
  - exists ti, (tt ++ ts ++ [tok])%list. split; [list_eq|]. split; [exact Hi|].
    now apply CT_question.
Qed.

Lemma has_read_step (seen : list Token) (st st' : pstate) (tok : Token) :
  has_read seen st -> pstep st tok = Some st' ->
  has_read (seen ++ [tok])%list st'.
Proof.
  intros (ti & tc & -> & Hi & Hc) Hstep. unfold pstep in Hstep.
  destruct Hc as [Hm Ho Ht | d Hm Ho Ht Hd | d n Hm Ho Ht Hd Hn
                 | tt ts Hm Ht Hs | tt ts q Hm Hq Ht Hs
                 | tt ts q l Hm Hq Hl Ht Hs | tt ts q l n Hm Hq Hl Hn Ht Hs
                 | tt ts tf acc outer Hm Ho Ht Hs Hf];
    rewrite Hm in Hstep.
  - (* between items *)
    assert (Hv : value_start tok st = Some st' ->
                 has_read ((ti ++ []) ++ [tok])%list st').
    { intros H.
      replace ((ti ++ []) ++ [tok])%list with ((ti ++ [] ++ []) ++ [tok])%list
        by list_eq.
      apply (value_start_read st); auto.
      - rewrite Ht. constructor.
      - rewrite Ho. constructor. }
    destruct (type tok) eqn:Ety; try (now apply Hv).
    injection Hstep as <-.
    exists ti, [tok]. split; [list_eq|]. split; [exact Hi|].
    now apply CT_def.
  - destruct (type tok) eqn:Ety; try discriminate. injection Hstep as <-.
    exists ti, [d; tok]. split; [list_eq|]. split; [exact Hi|].
    now apply CT_def_name.
  - destruct (type tok) eqn:Ety; try discriminate. injection Hstep as <-.
    exists ti, ([d; n; tok] ++ [])%list. split; [list_eq|]. split; [exact Hi|].
    apply CT_value; [reflexivity | now apply TT_some |].
    cbn [opened]. rewrite Ho. constructor.
  - now apply (value_start_read st).
  - destruct (type tok) eqn:Ety; try discriminate. injection Hstep as <-.
    exists ti, (tt ++ ts ++ [q; tok])%list. split; [list_eq|].
    split; [exact Hi|]. now apply CT_qbracket.
  - destruct (type tok) eqn:Ety; try discriminate. injection Hstep as <-.
    exists ti, (tt ++ ts ++ [q; l; tok])%list. split; [list_eq|].
    split; [exact Hi|]. now apply CT_qname.
  - destruct (type tok) eqn:Ety; try discriminate. injection Hstep as <-.
    replace ((ti ++ tt ++ ts ++ [q; l; n]) ++ [tok])%list
      with (ti ++ tt ++ ts ++ [q; l; n; tok])%list by list_eq.
    apply reduce_value_read; auto. now apply DV_const_expr.
  - rewrite Ho in Hstep.
    destruct (type tok) eqn:Ety; try discriminate; injection Hstep as <-.
    + (* closing brace *)
      inversion Hf as [lb toks acc' Hlb He]; subst.
      replace ((ti ++ tt ++ ts ++ lb :: toks) ++ [tok])%list
        with (ti ++ tt ++ ts ++ (lb :: toks ++ [tok]))%list by list_eq.
      apply reduce_value_read; auto. now apply DV_array.
    + (* comma *)
      inversion Hf as [lb toks acc' Hlb He]; subst.
      exists ti, (tt ++ (ts ++ (lb :: toks ++ [tok])))%list.
      split; [list_eq|]. split; [exact Hi|].
      apply CT_value; [reflexivity | exact Ht |].
      cbn [opened set_mode]. rewrite Ho.
      apply ST_frame; [exact Hs | now apply FO_comma].
Qed.

Lemma has_read_0 : has_read [] pstate0.
Proof.
  exists [], []. split; [reflexivity|]. split; [constructor|].
  now apply CT_item.
Qed.

Lemma prun_has_read (toks seen : list Token) (st st' : pstate) :
  has_read seen st -> prun toks st = Some st' ->
  has_read (seen ++ toks)%list st'.
Proof.
  revert seen st; induction toks as [|tok toks IH]; intros seen st Hr; simpl.
  - intros [= <-]. now rewrite app_nil_r.
  - destruct (pstep st tok) as [st1|] eqn:E; [|discriminate]. intros H.
    replace (seen ++ tok :: toks)%list with ((seen ++ [tok]) ++ toks)%list
      by list_eq.
    apply (IH _ st1); [|exact H]. now apply (has_read_step seen st).
Qed.

Lemma parse_items_sound (toks : list Token) (items : list Tree) :
  parse_items toks = Some items -> derives_start toks items.
Proof.
  unfold parse_items.
  destruct (prun toks pstate0) as [st|] eqn:E; [|discriminate].
  apply (prun_has_read _ [] _ _ has_read_0) in E.
  destruct E as (ti & tc & E & Hi & Hc).
  destruct (mode st) eqn:Em; try discriminate. intros [= <-].
  inversion Hc; try congruence. subst tc.
  simpl in E. rewrite app_nil_r in E. now subst ti.
Qed.

(** The parser and the grammar agree. *)
Theorem parse_items_derives (toks : list Token) (items : list Tree) :
  parse_items toks = Some items <-> derives_start toks items.
Proof.
  split; [apply parse_items_sound | apply parse_items_complete].
Qed.

(** The grammar derives no array without elements. *)
Lemma derives_elements_nonempty (toks : list Token) (cs : list Tree) :
  derives_elements toks cs -> cs <> [].
Proof.
  intros [toks' v _ | toks1 toks2 comma cs' v _ _ _]; [discriminate|].
  intros H. apply app_eq_nil in H as [_ H]. discriminate.
Qed.

Lemma derives_array_nonempty (toks : list Token) (cs : list Tree) :
  derives_value toks (T_array cs) -> cs <> [].
Proof.
  intros H. inversion H; subst. now apply (derives_elements_nonempty toks0).
Qed.

(** ** Induction principles for the nested types *)

Lemma Tree_ind2 (P : Tree -> Prop) :
  (forall cs, Forall P cs -> P (T_start cs)) ->
  (forall n c, P c -> P (T_assign_const n c)) ->
  (forall q l n r, P (T_resolve_const q l n r)) ->
  (forall cs, Forall P cs -> P (T_array cs)) ->
  (forall tok, P (T_number tok)) ->
  (forall tok, P (T_string tok)) ->
  forall t, P t.
Proof.
  intros Hs Ha Hr Harr Hn Hstr.
  fix IH 1. intros [cs|n c|q l n r|cs|tok|tok].
  - apply Hs. induction cs; constructor; [apply IH | assumption].
  - apply Ha, IH.
  - apply Hr.
  - apply Harr. induction cs; constructor; [apply IH | assumption].
  - apply Hn.
  - apply Hstr.
Qed.

Lemma pyobj_ind2 (P : pyobj -> Prop) :
  (forall z, P (PInt z)) ->
  (forall s, P (PStr s)) ->
  (forall l, Forall P l -> P (PList l)) ->
  (forall n v, P v -> P (PTuple n v)) ->
  (forall d, Forall (fun kv => P (snd kv)) d -> P (PDict d)) ->
  forall o, P o.
Proof.
  intros Hi Hs Hl Ht Hd.
  fix IH 1. intros [z|s|l|n v|d].
  - apply Hi.
  - apply Hs.
  - apply Hl. induction l; constructor; [apply IH | assumption].
  - apply Ht, IH.
  - apply Hd. induction d as [|[k v] d IHd]; constructor; [apply IH | assumption].
Qed.

Lemma spec_value_list (l : list pyobj) :
  spec_value (PList l) <-> Forall spec_value l.
Proof.
  simpl. induction l as [|x l IH]; [intuition constructor|].
  rewrite IH. split.
  - intros [H1 H2]. now constructor.
  - intros H. inversion H; subst. now split.
Qed.

Lemma no_empty_list_list (l : list pyobj) :
  no_empty_list (PList l) <-> l <> [] /\ Forall no_empty_list l.
Proof.
  simpl. apply and_iff_compat_l.
  induction l as [|x l IH]; [intuition constructor|].
  rewrite IH. split.
  - intros [H1 H2]. now constructor.
  - intros H. inversion H; subst. now split.
Qed.

Lemma no_empty_list_dict (d : list (string * pyobj)) :
  no_empty_list (PDict d) <-> Forall (fun kv => no_empty_list (snd kv)) d.
Proof.
  simpl. induction d as [|x d IH]; [intuition constructor|].
  rewrite IH. split.
  - intros [H1 H2]. now constructor.
  - intros H. inversion H; subst. now split.
Qed.

Lemma no_empty_array_start (cs : list Tree) :
  no_empty_array (T_start cs) <-> Forall no_empty_array cs.
Proof.
  simpl. induction cs as [|x cs IH]; [intuition constructor|].
  rewrite IH. split.
  - intros [H1 H2]. now constructor.
  - intros H. inversion H; subst. now split.
Qed.

Lemma no_empty_array_array (cs : list Tree) :
  no_empty_array (T_array cs) <-> cs <> [] /\ Forall no_empty_array cs.
Proof.
  simpl. apply and_iff_compat_l.
  induction cs as [|x cs IH]; [intuition constructor|].
  rewrite IH. split.
  - intros [H1 H2]. now constructor.
  - intros H. inversion H; subst. now split.
Qed.

(** ** Transformer *)

Lemma transform_tree_start (cs : list Tree) (st : tstate) :
  transform_tree (T_start cs) st
  = ('(items, st1) <- transform_children cs st ;;
     call_userfunc "start" (start items st1)).
Proof. reflexivity. Qed.

Lemma transform_tree_array (cs : list Tree) (st : tstate) :
  transform_tree (T_array cs) st
  = ('(items, st1) <- transform_children cs st ;;
     call_userfunc "array" (array items st1)).
Proof. reflexivity. Qed.

Lemma transform_children_cons (c : Tree) (cs : list Tree) (st : tstate) :
  transform_children (c :: cs) st
  = ('(v, st1) <- transform_tree c st ;;
     '(vs, st2) <- transform_children cs st1 ;;
     Ok (v :: vs, st2)).
Proof. reflexivity. Qed.

Lemma bind_Ok {A B : Type} (r : result A) (k : A -> result B) (b : B) :
  bind r k = Ok b -> exists a, r = Ok a /\ k a = Ok b.
Proof. destruct r; simpl; [eauto | discriminate]. Qed.

Lemma digits_acc_total (s : string) (acc : Z) :
  forallb_str is_digit s = true -> exists z, digits_acc s acc = Some z.
Proof.
  revert acc; induction s as [|c r IH]; intros acc; simpl; [eauto|].
  intros H. apply andb_true_iff in H as [Hc Hr].
  unfold digit_value. rewrite Hc. now apply IH.
Qed.

Lemma digits_int_total (s : string) :
  nonempty s = true -> forallb_str is_digit s = true ->
  exists z, digits_int s = Some z.
Proof.
  intros Hn Hd. destruct s; [discriminate|]. now apply digits_acc_total.
Qed.

(** [int] accepts every NUMBER lexeme. *)
Lemma py_int_total (s : string) :
  is_NUMBER_lexeme s = true -> exists z, py_int s = Some z.
Proof.
  destruct s as [|c r]; [discriminate|]. unfold is_NUMBER_lexeme, py_int.
  destruct (is_sign c) eqn:Hs.
  - intros H. apply andb_true_iff in H as [Hn Hd].
    destruct (digits_int_total r Hn Hd) as [z Hz]. rewrite Hz.
    apply is_sign_spec in Hs as [->| ->]; simpl; eauto.
  - intros H. unfold is_sign in Hs. apply orb_false_iff in Hs as [H1 H2].
    rewrite H1, H2. now apply digits_int_total.
Qed.

Lemma dict_get_In {V : Type} (k : string) (v : V) (d : dict V) :
  dict_get k d = Some v -> In (k, v) d.
Proof.
  induction d as [|[k' v'] d IH]; simpl; [discriminate|].
  destruct (String.eqb_spec k' k) as [->|_].
  - intros [= ->]. now left.
  - intros H. right. now apply IH.
Qed.

Lemma dict_mem_set {V : Type} (k k' : string) (v : V) (d : dict V) :
  dict_mem k (dict_set k' v d) = (String.eqb k k' || dict_mem k d)%bool.
Proof.
  induction d as [|[k0 v0] d IH]; simpl.
  - now rewrite (String.eqb_sym k' k).
  - destruct (String.eqb_spec k0 k') as [E|Hne]; simpl; [|rewrite IH];
      destruct (String.eqb_spec k k'), (String.eqb_spec k0 k);
      simpl; congruence.
Qed.

Lemma dict_set_Forall {V : Type} (P : string * V -> Prop) (k : string) (v : V)
    (d : dict V) :
  P (k, v) -> Forall P d -> Forall P (dict_set k v d).
Proof.
  intros Hkv. induction 1 as [|[k' v'] d Hx Hd IH]; simpl.
  - repeat constructor. exact Hkv.
  - destruct (String.eqb_spec k' k) as [->|_]; constructor; auto.
Qed.

Lemma constants_ok_get (st : tstate) (k : string) (v : pyobj) :
  constants_ok st -> dict_get k (constants st) = Some v ->
  spec_value v /\ no_empty_list v.
Proof.
  intros Hc Hg. apply dict_get_In in Hg.
  unfold constants_ok in Hc. rewrite Forall_forall in Hc.
  now destruct (Hc _ Hg) as (_ & H1 & H2).
Qed.

(** A value of the grammar transforms, if it does, into a value of the
    specification without an empty array, and leaves the tables as they
    are. *)
Lemma transform_value_tree (t : Tree) :
  value_tree t -> forall st v st', constants_ok st ->
  transform_tree t st = Ok (v, st') ->
  st' = st /\ spec_value v /\ no_empty_list v.
Proof.
  induction t as [cs IH|n c IH|q l n r|cs IH|tok|tok] using Tree_ind2;
    intros Hv st v st' Hc; try (now destruct Hv).
  - (* resolve_const *)
    cbn [transform_tree]. unfold resolve_const.
    destruct (negb (dict_mem (value n) (constants st))); [discriminate|].
    destruct (dict_get (value n) (constants st)) as [v0|] eqn:Eg; [|discriminate].
    simpl. intros [= <- <-]. split; [reflexivity|].
    now apply (constants_ok_get st (value n)).
  - (* array *)
    apply value_tree_array in Hv as [Hne Hall].
    rewrite transform_tree_array. intros H.
    apply bind_Ok in H as ([items st1] & Hch & H). simpl in H.
    injection H as <- <-.
    assert (Hgen : st1 = st /\ Forall spec_value items
                   /\ Forall no_empty_list items
                   /\ length items = length cs).
    { clear Hne. revert st items st1 Hc Hch.
      induction cs as [|c cs IHcs]; intros st items st1 Hc Hch.
      - injection Hch as <- <-. repeat split; constructor.
      - rewrite transform_children_cons in Hch.
        apply bind_Ok in Hch as ([v1 st2] & H1 & Hch). simpl in Hch.
        apply bind_Ok in Hch as ([vs st3] & H2 & Hch). simpl in Hch.
        injection Hch as <- <-.
        inversion IH as [|? ? IHc IHrest]; subst.
        inversion Hall as [|? ? Hvc Hvrest]; subst.
        destruct (IHc Hvc _ _ _ Hc H1) as (-> & Hs1 & Hn1).
        destruct (IHcs IHrest Hvrest _ _ _ Hc H2) as (-> & Hs2 & Hn2 & Hlen).
        repeat split; try constructor; auto. simpl. now rewrite Hlen. }
    destruct Hgen as (-> & Hs & Hn & Hlen).
    split; [reflexivity|]. split.
    + now apply spec_value_list.
    + apply no_empty_list_list. split; [|exact Hn].
      destruct items; [destruct cs; [congruence | discriminate] | discriminate].
  - (* number *)
    cbn [transform_tree]. unfold number.
    destruct (py_int (value tok)); [|discriminate].
    simpl. intros [= <- <-]. repeat split.
  - (* string *)
    cbn [transform_tree]. unfold string_. simpl. intros [= <- <-]. repeat split.
Qed.

Lemma spec_value_item_obj (v : pyobj) :
  spec_value v -> no_empty_list v -> item_obj v /\ is_bare v = true.
Proof. destruct v; simpl; tauto. Qed.

Lemma constants_ok_0 : constants_ok tstate0.
Proof. constructor. Qed.

(** A top-level item transforms into a pair (an assignment) or a value (a
    bare value), and keeps the constant table well formed. *)
Lemma transform_item_tree (t : Tree) (st : tstate) (v : pyobj) (st' : tstate) :
  item_tree t -> constants_ok st -> transform_tree t st = Ok (v, st') ->
  item_obj v /\ constants_ok st' /\ is_bare v = negb (is_assignment t).
Proof.
  intros Ht Hc H.
  destruct t as [cs|n c|q l n r|cs|tok|tok];
    try (destruct (transform_value_tree _ Ht _ _ _ Hc H) as (-> & Hs & Hn);
         destruct (spec_value_item_obj v Hs Hn); now repeat split).
  destruct Ht as (Hty & Hn & Hv). cbn [transform_tree] in H.
  apply bind_Ok in H as ([v0 st1] & Hch & H). simpl in H.
  injection H as <- <-.
  destruct (transform_value_tree _ Hv _ _ _ Hc Hch) as (-> & Hs & Hne).
  unfold lexeme_ok in Hn. rewrite Hty in Hn.
  repeat split; auto.
  unfold constants_ok. simpl. apply dict_set_Forall; [simpl; auto | exact Hc].
Qed.

Lemma transform_items (cs : list Tree) :
  Forall item_tree cs -> forall st items st', constants_ok st ->
  transform_children cs st = Ok (items, st') ->
  Forall item_obj items /\ constants_ok st'
  /\ map is_bare items = map (fun c => negb (is_assignment c)) cs.
Proof.
  induction 1 as [|c cs Hc Hcs IH]; intros st items st' Hst H.
  - injection H as <- <-. repeat split; [constructor | exact Hst].
  - rewrite transform_children_cons in H.
    apply bind_Ok in H as ([v1 st1] & H1 & H). simpl in H.
    apply bind_Ok in H as ([vs st2] & H2 & H). simpl in H.
    injection H as <- <-.
    destruct (transform_item_tree _ _ _ _ Hc Hst H1) as (Ho & Hst1 & Hb).
    destruct (IH _ _ _ Hst1 H2) as (Hos & Hst2 & Hbs).
    repeat split; [now constructor | exact Hst2 | simpl; congruence].
Qed.

(** What the parser returns. *)
Lemma parse_inv (text : string) (t : Tree) :
  parse text = Ok t ->
  exists toks cs, lex text = Some toks /\ parse_items toks = Some cs
                  /\ Forall item_tree cs /\ t = expand1_start cs.
Proof.
  unfold parse. destruct (lex text) as [toks|] eqn:El; [|discriminate].
  destruct (parse_items toks) as [cs|] eqn:Ep; [|discriminate].
  intros [= <-]. exists toks, cs. repeat split; auto.
  apply (parse_items_ok toks cs); [|exact Ep]. now apply (lex_shape text).
Qed.

(** ** The loop of [start] *)

Lemma start_loop_entries (items : list pyobj) (d : dict pyobj) (n : nat) :
  start_loop items d n = dict_writes (entries items n) d.
Proof.
  revert d n; induction items as [|item items IH]; intros d n; [reflexivity|].
  destruct item; simpl; apply IH.
Qed.

(** * The claims of the specification *)

(** ** Round-trip shape *)

(** C5. The input [1 "x" {1,2,3}] produces the document with the keys
    item_0, item_1, item_2, in that order, bound to 1, "x" and [1, 2, 3];
    the element tree has three children under the root, the third holding
    an [array] element with three [item] children whose texts are 1, 2 and
    3; and this is the XML text that is printed. *)
Theorem roundtrip_shape :
  run roundtrip_input = Ok roundtrip_document
  /\ _to_xml_recurse (new_element "config") roundtrip_document = roundtrip_tree
  /\ generate_xml_from_dict roundtrip_document "config" = Ok roundtrip_xml
  /\ main roundtrip_input = Exit0 (roundtrip_xml ++ nl).
Proof. split; [|split; [|split]]; vm_compute; reflexivity. Qed.

(** ** Empty input *)

Lemma significant_ignored (toks : list Token) :
  forallb (fun tok => ignored (type tok)) toks = true -> significant toks = [].
Proof.
  unfold significant. induction toks as [|tok toks IH]; simpl; [reflexivity|].
  intros H. apply andb_true_iff in H as [H1 H2]. rewrite H1. now apply IH.
Qed.

(** C10. A text that consists of white space and comments only (the empty
    text included) is accepted: the document has no entries, and the XML
    output is exactly the self-closed root element, with no declaration
    line and no surrounding white space. *)
Theorem empty_input_config (text : string) (toks : list Token) :
  lex_all text = Some toks ->
  forallb (fun tok => ignored (type tok)) toks = true ->
  run text = Ok (PDict [])
  /\ generate_xml_from_dict (PDict []) "config" = Ok "<config/>"
  /\ main text = Exit0 ("<config/>" ++ nl).
Proof.
  intros Hl Hi.
  assert (Hrun : run text = Ok (PDict [])).
  { unfold run, parse, lex. rewrite Hl. simpl.
    now rewrite (significant_ignored toks Hi). }
  split; [exact Hrun|]. split; [reflexivity|].
  unfold main. now rewrite Hrun.
Qed.

Lemma empty_input_config_witness :
  run blank_input = Ok (PDict [])
  /\ generate_xml_from_dict (PDict []) "config" = Ok "<config/>"
  /\ main blank_input = Exit0 ("<config/>" ++ nl).
Proof.
  apply (empty_input_config blank_input
           [mkToken COMMENT_SINGLE "-- nothing here";
            mkToken WS (nl ++ "  ");
            mkToken COMMENT_MULTI ("|# a block" ++ nl ++ "comment #|");
            mkToken WS nl]); vm_compute; reflexivity.
Defined.

Example empty_text :
  run "" = Ok (PDict [])
  /\ tostring (_to_xml_recurse (new_element "config") (PDict [])) = "<config />"
  /\ main "" = Exit0 ("<config/>" ++ nl).
Proof. split; [|split]; reflexivity. Qed.

(** ** Numbers *)

Lemma string_of_uint_digits (d : Decimal.uint) :
  forallb_str is_digit (NilEmpty.string_of_uint d) = true.
Proof. induction d; simpl; auto. Qed.

Lemma py_str_int_NUMBER (z : Z) : is_NUMBER_lexeme (py_str_int z) = true.
Proof.
  unfold py_str_int. destruct z as [|p|p]; [reflexivity| |];
    pose proof (DecimalPos.Unsigned.to_uint_nonnil p) as Hn;
    cbn [Z.to_int NilZero.string_of_int];
    rewrite (string_of_uint_nonnil _ Hn);
    destruct (string_of_uint_first_digit _ Hn) as (c & r & E & Hc);
    pose proof (string_of_uint_digits (Pos.to_uint p)) as Hd.
  - apply digits_NUMBER_lexeme; [now rewrite E | exact Hd].
  - cbn [is_NUMBER_lexeme]. change (is_sign "-") with true. cbv iota.
    rewrite Hd, E. reflexivity.
Qed.

(** [int] reads a string of digits as the sum of its weighted digits. *)
Lemma digits_acc_weighted (s : string) :
  forallb_str is_digit s = true -> forall acc : Z,
  digits_acc s acc
  = Some (acc * 10 ^ Z.of_nat (String.length s) + weighted_sum s)%Z.
Proof.
  induction s as [|c r IH]; intros H acc.
  - simpl. f_equal. lia.
  - cbn [forallb_str] in H. apply andb_true_iff in H as [Hc Hr].
    cbn [digits_acc]. unfold digit_value. rewrite Hc, (IH Hr).
    f_equal. cbn [String.length weighted_sum].
    rewrite Nat2Z.inj_succ. rewrite Z.pow_succ_r; [ring | lia].
Qed.

Lemma digits_int_weighted (s : string) :
  nonempty s = true -> forallb_str is_digit s = true ->
  digits_int s = Some (weighted_sum s).
Proof.
  intros Hn Hd. destruct s as [|c r]; [discriminate|].
  unfold digits_int. rewrite (digits_acc_weighted _ Hd). reflexivity.
Qed.

(** [int] gives every NUMBER lexeme its decimal value. *)
Lemma py_int_decimal_value (lexeme : string) :
  is_NUMBER_lexeme lexeme = true ->
  py_int lexeme = Some (decimal_value lexeme).
Proof.
  destruct lexeme as [|c r]; [discriminate|].
  unfold is_NUMBER_lexeme, py_int, decimal_value.
  destruct (is_sign c) eqn:Hs.
  - intros H. apply andb_true_iff in H as [Hn Hd].
    rewrite (digits_int_weighted r Hn Hd).
    apply is_sign_spec in Hs as [->| ->]; reflexivity.
  - intros H. unfold is_sign in Hs. apply orb_false_iff in Hs as [H1 H2].
    rewrite H1, H2. now apply digits_int_weighted.
Qed.

(** C4, as the code has it.  A NUMBER literal of ASCII digits that is
    within the interpreter's limit on the length of a numeral is converted
    to the Python integer that has the literal's decimal value: the sum of
    its weighted digits, negated after a minus sign.  There is no bound on
    this value other than the length of the numeral: for every integer,
    the decimal numeral of the integer is a NUMBER literal with that very
    value, and when it is within the limit it is converted to that very
    integer. *)
Theorem number_unbounded :
  (forall (tok : Token) (st : tstate),
      is_NUMBER_lexeme (value tok) = true ->
      (String.length (digits_of (value tok)) <= int_max_str_digits)%nat ->
      number tok st = Returns (PInt (decimal_value (value tok))) st)
  /\ (forall z : Z,
         is_NUMBER_lexeme (py_str_int z) = true
         /\ decimal_value (py_str_int z) = z)
  /\ (forall (z : Z) (st : tstate),
         (String.length (digits_of (py_str_int z)) <= int_max_str_digits)%nat ->
         number (mkToken NUMBER (py_str_int z)) st = Returns (PInt z) st).
Proof.
  split; [|split].
  - intros tok st H _. unfold number.
    now rewrite (py_int_decimal_value _ H).
  - intros z. split; [apply py_str_int_NUMBER|].
    pose proof (py_int_decimal_value _ (py_str_int_NUMBER z)) as H.
    rewrite py_int_str_int in H. now injection H.
  - intros z st _. unfold number. simpl. now rewrite py_int_str_int.
Qed.

Lemma number_unbounded_witness :
  number (mkToken NUMBER "+0042") tstate0 = Returns (PInt 42) tstate0.
Proof.
  apply (proj1 number_unbounded (mkToken NUMBER "+0042") tstate0).
  - reflexivity.
  - unfold int_max_str_digits. simpl. lia.
Defined.

(** The literal 9223372036854775808 is one more than the largest 64-bit
    signed integer; it is accepted and keeps its value, in the document and
    in the output. *)
Lemma number_overflow_counterexample :
  (int64_max < 9223372036854775808)%Z
  /\ run "9223372036854775808" = Ok (PInt 9223372036854775808)
  /\ main "9223372036854775808"
     = Exit0 ("<config>9223372036854775808</config>" ++ nl).
Proof. split; [|split]; vm_compute; reflexivity. Qed.

(** ** Repeated keys *)

(** C3, as the code has it.  The document is the result of the assignments
    [result_dict[key] = value] made for the items in order.  Its keys are in
    the order of their first occurrence, and each key is bound to the value
    of its last occurrence: a later entry overwrites the value of an earlier
    one with the same key, and the entry stays where the key first stood. *)
Theorem overwrite_keeps_first_position (items : list pyobj) :
  let d := start_loop items [] 0 in
  dict_keys d = first_occurrences [] (map fst (entries items 0))
  /\ (forall k, dict_get k d = last_write k (entries items 0))
  /\ (forall k v (d0 : dict pyobj), dict_mem k d0 = true ->
        dict_keys (dict_set k v d0) = dict_keys d0
        /\ dict_get k (dict_set k v d0) = Some v).
Proof.
  cbv zeta. rewrite start_loop_entries. split; [|split].
  - apply (dict_writes_keys (entries items 0) []).
  - intros k. rewrite dict_writes_get. now destruct (last_write k _).
  - intros k v d0 H. split.
    + now apply dict_keys_set_present.
    + apply dict_get_set_eq.
Qed.

Lemma overwrite_keeps_first_position_witness :
  dict_keys (dict_set "A" (PInt 3) [("A", PInt 1); ("B", PInt 2)]) = ["A"; "B"]
  /\ dict_get "A" (dict_set "A" (PInt 3) [("A", PInt 1); ("B", PInt 2)])
     = Some (PInt 3).
Proof.
  apply (proj2 (proj2 (overwrite_keeps_first_position []))
           "A" (PInt 3) [("A", PInt 1); ("B", PInt 2)]).
  reflexivity.
Defined.

(** In [def A = 1 def B = 2 def A = 3] the later occurrence of A is the
    third entry, after B; the surviving entry for A is the first one. *)
Lemma overwrite_position_counterexample :
  run overwrite_input = Ok (PDict [("A", PInt 3); ("B", PInt 2)])
  /\ run overwrite_input <> Ok (PDict [("B", PInt 2); ("A", PInt 3)]).
Proof. split; [vm_compute; reflexivity | vm_compute; discriminate]. Qed.

(** ** The counter of the synthesized keys *)

Lemma item_key_inj (a b : nat) : item_key a = item_key b -> a = b.
Proof.
  unfold item_key. intros H. simpl in H. injection H as H.
  apply py_str_int_inj in H. lia.
Qed.

Lemma item_key_is_item_key (n : nat) : is_item_key (item_key n) = true.
Proof. reflexivity. Qed.

(** A NAME starts with a capital letter or an underscore, so it is never a
    synthesized key. *)
Lemma NAME_not_item_key (name : string) :
  is_NAME_lexeme name = true -> is_item_key name = false.
Proof.
  destruct name as [|c r]; [reflexivity|]. cbn [is_NAME_lexeme].
  intros H. apply andb_true_iff in H as [Hc _].
  unfold is_item_key.
  change (startswith "item_" (String c r))
    with (Ascii.eqb "i" c && startswith "tem_" r).
  destruct (Ascii.eqb_spec "i" c) as [<-|]; [discriminate Hc | reflexivity].
Qed.

Lemma NAME_neq_item_key (name : string) (n : nat) :
  is_NAME_lexeme name = true -> name <> item_key n.
Proof.
  intros H ->. apply NAME_not_item_key in H.
  now rewrite item_key_is_item_key in H.
Qed.

Lemma entries_bare_cons (x : pyobj) (items : list pyobj) (n : nat) :
  is_bare x = true ->
  entries (x :: items) n = (item_key n, x) :: entries items (S n).
Proof. destruct x; simpl; intros H; [reflexivity ..|discriminate|reflexivity]. Qed.

(** No key [item_<n>] is written by items whose counter starts above [n]. *)
Lemma last_write_fresh (items : list pyobj) (n m : nat) :
  Forall item_obj items -> (n < m)%nat ->
  last_write (item_key n) (entries items m) = None.
Proof.
  intros Hitems. revert m. induction Hitems as [|x items Hx _ IH]; intros m Hlt;
    [reflexivity|].
  destruct (is_bare x) eqn:Eb.
  - rewrite entries_bare_cons by assumption. cbn [last_write].
    rewrite IH by lia.
    destruct (String.eqb_spec (item_key m) (item_key n)) as [E|_];
      [apply item_key_inj in E; lia | reflexivity].
  - destruct x; try discriminate. cbn [entries last_write].
    rewrite IH by assumption.
    destruct (String.eqb_spec name (item_key n)) as [E|_]; [|reflexivity].
    destruct Hx as (Hname & _). now apply NAME_neq_item_key in E.
Qed.

(** The [i]-th bare value is the last thing written under [item_<n+i>]. *)
Lemma last_write_bare (items : list pyobj) :
  Forall item_obj items -> forall (n i : nat) (v : pyobj),
  nth_error (bare_values items) i = Some v ->
  last_write (item_key (n + i)) (entries items n) = Some v.
Proof.
  unfold bare_values.
  induction 1 as [|x items Hx Hitems IH]; intros n i v Hnth.
  - destruct i; discriminate.
  - destruct (is_bare x) eqn:Eb.
    + rewrite entries_bare_cons by assumption. cbn [last_write].
      simpl in Hnth. rewrite Eb in Hnth. destruct i as [|i]; simpl in Hnth.
      * injection Hnth as ->. rewrite Nat.add_0_r.
        rewrite last_write_fresh by (auto; lia).
        now rewrite String.eqb_refl.
      * replace (n + S i)%nat with (S n + i)%nat by lia.
        now rewrite (IH (S n) i v Hnth).
    + destruct x; try discriminate. cbn [entries last_write].
      simpl in Hnth. now rewrite (IH n i v Hnth).
Qed.

Lemma existsb_app_single (k k' : string) (seen : list string) :
  existsb (String.eqb k) (seen ++ [k'])
  = (existsb (String.eqb k) seen || String.eqb k k')%bool.
Proof. rewrite existsb_app. simpl. now rewrite orb_false_r. Qed.

(** The synthesized keys come out in the order of the counter, one per bare
    value. *)
Lemma item_keys_in_order (items : list pyobj) :
  Forall item_obj items -> forall (n : nat) (seen : list string),
  (forall m, (n <= m)%nat -> existsb (String.eqb (item_key m)) seen = false) ->
  filter is_item_key (first_occurrences seen (map fst (entries items n)))
  = map item_key (seq n (length (bare_values items))).
Proof.
  unfold bare_values.
  induction 1 as [|x items Hx Hitems IH]; intros n seen Hseen; [reflexivity|].
  destruct (is_bare x) eqn:Eb.
  - rewrite entries_bare_cons by assumption.
    cbn [map fst first_occurrences filter]. rewrite Eb, (Hseen n) by lia.
    cbn [filter length seq map]. rewrite item_key_is_item_key. f_equal.
    apply IH. intros m Hm. rewrite existsb_app_single, Hseen by lia.
    destruct (String.eqb_spec (item_key m) (item_key n)) as [E|_];
      [apply item_key_inj in E; lia | reflexivity].
  - destruct x; try discriminate. destruct Hx as (Hname & _).
    cbn [entries map fst first_occurrences filter]. rewrite Eb.
    destruct (existsb (String.eqb name) seen).
    + now apply IH.
    + cbn [filter]. rewrite (NAME_not_item_key _ Hname).
      apply IH. intros m Hm. rewrite existsb_app_single, Hseen by lia.
      destruct (String.eqb_spec (item_key m) name) as [E|_]; [|reflexivity].
      symmetry in E. now apply NAME_neq_item_key in E.
Qed.

Lemma parse_start_inv (text : string) (cs : list Tree) :
  parse text = Ok (T_start cs) -> Forall item_tree cs.
Proof.
  intros H. apply parse_inv in H as (toks & cs' & _ & _ & Hcs & E).
  destruct cs' as [|c [|c' cs']]; simpl in E.
  - injection E as ->. constructor.
  - subst c. inversion Hcs as [|? ? Hc _]; subst. destruct Hc.
  - now injection E as ->.
Qed.

(** C6. For every input whose parse tree is a [start] node (so every input
    that mixes assignments and bare values), the counter of the synthesized
    keys counts the bare top-level values only: an item of the document is
    bare exactly when it is not an assignment, the [i]-th bare value, in the
    order of appearance, is bound to [item_<i>], and the [item_<n>] keys of
    the document are item_0, ..., item_<m-1> in this order, [m] being the
    number of bare values. *)
Theorem item_counter_counts_bare_values
    (text : string) (cs : list Tree) (d : dict pyobj) :
  parse text = Ok (T_start cs) ->
  run text = Ok (PDict d) ->
  exists (items : list pyobj) (st : tstate),
    transform_children cs tstate0 = Ok (items, st)
    /\ map is_bare items = map (fun c => negb (is_assignment c)) cs
    /\ (forall i v, nth_error (bare_values items) i = Some v ->
          dict_get (item_key i) d = Some v)
    /\ filter is_item_key (dict_keys d)
       = map item_key (seq 0 (length (bare_values items))).
Proof.
  intros Hp Hr. pose proof (parse_start_inv _ _ Hp) as Hcs.
  unfold run in Hr. rewrite Hp in Hr. simpl in Hr. unfold transform in Hr.
  rewrite transform_tree_start in Hr.
  destruct (transform_children cs tstate0) as [[items st]|] eqn:Et;
    [|discriminate].
  simpl in Hr. injection Hr as <-.
  destruct (transform_items cs Hcs _ _ _ constants_ok_0 Et) as (Hitems & _ & Hb).
  exists items, st. split; [reflexivity|]. split; [exact Hb|].
  rewrite start_loop_entries. split.
  - intros i v Hnth. rewrite dict_writes_get.
    pose proof (last_write_bare items Hitems 0 i v Hnth) as H.
    rewrite Nat.add_0_l in H. now rewrite H.
  - rewrite dict_writes_keys. simpl.
    apply item_keys_in_order; [exact Hitems | reflexivity].
Qed.

Lemma item_counter_counts_bare_values_witness :
  exists (items : list pyobj) (st : tstate),
    transform_children
      [T_assign_const (mkToken NAME "A") (T_number (mkToken NUMBER "1"));
       T_number (mkToken NUMBER "2");
       T_assign_const (mkToken NAME "B") (T_number (mkToken NUMBER "3"));
       T_number (mkToken NUMBER "4")] tstate0 = Ok (items, st)
    /\ map is_bare items = [false; true; false; true]
    /\ (forall i v, nth_error (bare_values items) i = Some v ->
          dict_get (item_key i)
            [("A", PInt 1); ("item_0", PInt 2); ("B", PInt 3); ("item_1", PInt 4)]
          = Some v)
    /\ filter is_item_key ["A"; "item_0"; "B"; "item_1"]
       = map item_key (seq 0 (length (bare_values items))).
Proof.
  apply (item_counter_counts_bare_values mixed_input); vm_compute; reflexivity.
Defined.

Example mixed_input_document :
  run mixed_input
  = Ok (PDict [("A", PInt 1); ("item_0", PInt 2); ("B", PInt 3);
               ("item_1", PInt 4)]).
Proof. vm_compute; reflexivity. Qed.

(** ** References to constants *)

Lemma transform_children_app (pre post : list Tree) :
  forall st vs st',
  transform_children (pre ++ post) st = Ok (vs, st') ->
  exists vs1 st1 vs2,
    transform_children pre st = Ok (vs1, st1)
    /\ transform_children post st1 = Ok (vs2, st')
    /\ vs = (vs1 ++ vs2)%list.
Proof.
  induction pre as [|c pre IH]; intros st vs st' H.
  - exists [], st, vs. auto.
  - change ((c :: pre) ++ post)%list with (c :: (pre ++ post))%list in H.
    rewrite transform_children_cons in H.
    apply bind_Ok in H as ([v1 st1] & H1 & H). simpl in H.
    apply bind_Ok in H as ([vs' st2] & H2 & H). simpl in H.
    injection H as <- <-.
    destruct (IH _ _ _ H2) as (vs1 & st3 & vs2 & Ha & Hb & ->).
    exists (v1 :: vs1), st3, vs2. rewrite transform_children_cons, H1. simpl.
    rewrite Ha. simpl. auto.
Qed.

Lemma resolve_const_defined (q l n r : Token) (st : tstate) (v : pyobj) :
  dict_get (value n) (constants st) = Some v ->
  transform_tree (T_resolve_const q l n r) st = Ok (v, st).
Proof.
  intros H. cbn [transform_tree]. unfold resolve_const.
  assert (Hm : dict_mem (value n) (constants st) = true).
  { apply dict_mem_get. congruence. }
  now rewrite Hm, H.
Qed.

Lemma assign_const_defines (n : Token) (c : Tree) (st st1 : tstate) (v : pyobj) :
  transform_tree c st = Ok (v, st1) ->
  exists st', transform_tree (T_assign_const n c) st = Ok (PTuple (value n) v, st')
    /\ dict_get (value n) (constants st') = Some v
    /\ (forall k, k <> value n ->
          dict_get k (constants st') = dict_get k (constants st1)).
Proof.
  intros H. cbn [transform_tree]. rewrite H. simpl.
  eexists. split; [reflexivity|]. simpl. split.
  - apply dict_get_set_eq.
  - intros k Hk. apply dict_get_set_neq. congruence.
Qed.

(** C1. In [def A = 1 def B = ?[A] def A = 2 def C = ?[A]] B is bound to 1
    and C to 2.  In general a reference [?[NAME]] yields the value the
    constant table holds for NAME at that point of the traversal and leaves
    the table as it is; an assignment binds its name to the value of its
    right-hand side from there on; and what the items up to some point are
    transformed into is what they are transformed into on their own,
    whatever follows them: a later redefinition changes no earlier value. *)
Theorem const_ref_resolved_at_point_of_use :
  run redefinition_input
  = Ok (PDict [("A", PInt 2); ("B", PInt 1); ("C", PInt 2)])
  /\ (forall (q l n r : Token) (st : tstate) (v : pyobj),
         dict_get (value n) (constants st) = Some v ->
         transform_tree (T_resolve_const q l n r) st = Ok (v, st))
  /\ (forall (n : Token) (c : Tree) (st st1 : tstate) (v : pyobj),
         transform_tree c st = Ok (v, st1) ->
         exists st',
           transform_tree (T_assign_const n c) st = Ok (PTuple (value n) v, st')
           /\ dict_get (value n) (constants st') = Some v
           /\ (forall k, k <> value n ->
                 dict_get k (constants st') = dict_get k (constants st1)))
  /\ (forall (pre post : list Tree) (st : tstate) (vs : list pyobj)
             (st' : tstate),
         transform_children (pre ++ post) st = Ok (vs, st') ->
         exists vs1 st1 vs2,
           transform_children pre st = Ok (vs1, st1)
           /\ transform_children post st1 = Ok (vs2, st')
           /\ vs = (vs1 ++ vs2)%list).
Proof.
  split; [vm_compute; reflexivity|]. split; [|split].
  - exact resolve_const_defined.
  - exact assign_const_defines.
  - exact transform_children_app.
Qed.

Lemma const_ref_resolved_at_point_of_use_witness :
  transform_tree
    (T_resolve_const (mkToken QUESTION_MARK "?") (mkToken LBRACKET "[")
       (mkToken NAME "A") (mkToken RBRACKET "]"))
    (mkTState [("A", PInt 1)] [("A", PInt 1)])
  = Ok (PInt 1, mkTState [("A", PInt 1)] [("A", PInt 1)]).
Proof.
  apply (proj1 (proj2 const_ref_resolved_at_point_of_use)).
  reflexivity.
Defined.

(** ** Undefined constants *)

Lemma scan_start (cs : list Tree) (defined : list string) :
  scan (T_start cs) defined = scan_children cs defined.
Proof. reflexivity. Qed.

Lemma scan_array (cs : list Tree) (defined : list string) :
  scan (T_array cs) defined = scan_children cs defined.
Proof. reflexivity. Qed.

Lemma numbers_ok_start (cs : list Tree) :
  numbers_ok (T_start cs) <-> Forall numbers_ok cs.
Proof.
  simpl. induction cs as [|x cs IH]; [intuition constructor|].
  rewrite IH. split.
  - intros [H1 H2]. now constructor.
  - intros H. inversion H; subst. now split.
Qed.

Lemma numbers_ok_array (cs : list Tree) :
  numbers_ok (T_array cs) <-> Forall numbers_ok cs.
Proof. exact (numbers_ok_start cs). Qed.

Lemma value_tree_numbers_ok (t : Tree) : value_tree t -> numbers_ok t.
Proof.
  induction t as [cs IH|n c IH|q l n r|cs IH|tok|tok] using Tree_ind2;
    intros H; try (now destruct H); try exact I.
  - apply value_tree_array in H as [_ H]. apply numbers_ok_array.
    rewrite Forall_forall in *. auto.
  - destruct H as [Hty H]. unfold lexeme_ok in H. now rewrite Hty in H.
Qed.

Lemma item_tree_numbers_ok (t : Tree) : item_tree t -> numbers_ok t.
Proof.
  destruct t; try apply value_tree_numbers_ok.
  intros (_ & _ & H). exact (value_tree_numbers_ok _ H).
Qed.

Lemma parse_numbers_ok (text : string) (t : Tree) :
  parse text = Ok t -> numbers_ok t.
Proof.
  intros H. apply parse_inv in H as (toks & cs & _ & _ & Hcs & ->).
  assert (Hall : Forall numbers_ok cs).
  { rewrite Forall_forall in *. intros c Hc. now apply item_tree_numbers_ok, Hcs. }
  destruct cs as [|c [|c' cs]]; simpl.
  - exact I.
  - now inversion Hall.
  - now apply (numbers_ok_start (c :: c' :: cs)).
Qed.

(** The transformer fails exactly at the first reference to a name that has
    no definition before it, and then with the error of [resolve_const]. *)
Lemma transform_scan (t : Tree) :
  numbers_ok t -> forall st defined, same_names defined st ->
  match scan t defined with
  | inl name =>
      transform_tree t st
      = Raise (VisitError "resolve_const"
                 (VisitError_call1
                    ("Undefined constant '" ++ name ++ "' used in expression ?["
                     ++ name ++ "]")))
  | inr defined' =>
      exists v st', transform_tree t st = Ok (v, st') /\ same_names defined' st'
  end.
Proof.
  assert (Hchildren : forall cs,
    Forall (fun t => numbers_ok t -> forall st defined, same_names defined st ->
      match scan t defined with
      | inl name =>
          transform_tree t st
          = Raise (VisitError "resolve_const"
                     (VisitError_call1
                        ("Undefined constant '" ++ name
                         ++ "' used in expression ?[" ++ name ++ "]")))
      | inr defined' =>
          exists v st', transform_tree t st = Ok (v, st')
                        /\ same_names defined' st'
      end) cs ->
    Forall numbers_ok cs -> forall st defined, same_names defined st ->
    match scan_children cs defined with
    | inl name =>
        transform_children cs st
        = Raise (VisitError "resolve_const"
                   (VisitError_call1
                      ("Undefined constant '" ++ name
                       ++ "' used in expression ?[" ++ name ++ "]")))
    | inr defined' =>
        exists vs st', transform_children cs st = Ok (vs, st')
                       /\ same_names defined' st'
    end).
  { induction 1 as [|c cs Hc _ IH]; intros Hn st defined Hs.
    - simpl. eauto.
    - inversion Hn as [|? ? Hnc Hncs]; subst.
      cbn [scan_children]. rewrite transform_children_cons.
      specialize (Hc Hnc st defined Hs).
      destruct (scan c defined) as [name|defined1].
      + now rewrite Hc.
      + destruct Hc as (v & st1 & -> & Hs1). simpl.
        specialize (IH Hncs st1 defined1 Hs1).
        destruct (scan_children cs defined1) as [name|defined2].
        * now rewrite IH.
        * destruct IH as (vs & st2 & -> & Hs2). simpl. eauto. }
  induction t as [cs IH|n c IH|q l n r|cs IH|tok|tok] using Tree_ind2;
    intros Hn st defined Hs.
  - apply numbers_ok_start in Hn.
    rewrite scan_start, transform_tree_start.
    specialize (Hchildren cs IH Hn st defined Hs).
    destruct (scan_children cs defined) as [name|defined'].
    + now rewrite Hchildren.
    + destruct Hchildren as (vs & st' & -> & Hs'). simpl. eauto.
  - cbn [scan transform_tree]. specialize (IH Hn st defined Hs).
    destruct (scan c defined) as [name|defined'].
    + now rewrite IH.
    + destruct IH as (v & st' & -> & Hs'). simpl.
      eexists _, _. split; [reflexivity|].
      intros k. simpl. rewrite dict_mem_set. now rewrite <- Hs'.
  - cbn [scan transform_tree]. unfold resolve_const. rewrite (Hs (value n)).
    destruct (dict_mem (value n) (constants st)) eqn:Em; simpl.
    + apply dict_mem_get in Em.
      destruct (dict_get (value n) (constants st)); [|congruence].
      simpl. eauto.
    + reflexivity.
  - apply numbers_ok_array in Hn.
    rewrite scan_array, transform_tree_array.
    specialize (Hchildren cs IH Hn st defined Hs).
    destruct (scan_children cs defined) as [name|defined'].
    + now rewrite Hchildren.
    + destruct Hchildren as (vs & st' & -> & Hs'). simpl. eauto.
  - cbn [scan transform_tree]. unfold number. simpl in Hn.
    destruct (py_int_total _ Hn) as [z ->]. simpl. eauto.
  - cbn [scan transform_tree]. simpl. eauto.
Qed.

Lemma same_names_0 : same_names [] tstate0.
Proof. intros k. reflexivity. Qed.



(** The message for [def B = ?[A]] has no occurrence of the name, and it is
    the message for any other undefined name. *)
Example undefined_message_unnamed :
  main "def B = ?[A]" = main "def B = ?[OTHER]"
  /\ contains "Undefined constant" undefined_constant_message = false
  /\ contains "'A'" undefined_constant_message = false.
Proof. split; [|split]; vm_compute; reflexivity. Qed.

(** ** Arrays are never empty *)

Lemma value_tree_no_empty_array (t : Tree) : value_tree t -> no_empty_array t.
Proof.
  induction t as [cs IH|n c IH|q l n r|cs IH|tok|tok] using Tree_ind2;
    intros H; try (now destruct H); try exact I.
  apply value_tree_array in H as [Hne H]. apply no_empty_array_array.
  split; [exact Hne|]. rewrite Forall_forall in *. auto.
Qed.

Lemma item_tree_no_empty_array (t : Tree) : item_tree t -> no_empty_array t.
Proof.
  destruct t; try apply value_tree_no_empty_array.
  intros (_ & _ & H). exact (value_tree_no_empty_array _ H).
Qed.

Lemma parse_no_empty_array (text : string) (t : Tree) :
  parse text = Ok t -> no_empty_array t.
Proof.
  intros H. apply parse_inv in H as (toks & cs & _ & _ & Hcs & ->).
  assert (Hall : Forall no_empty_array cs).
  { rewrite Forall_forall in *. intros c Hc.
    now apply item_tree_no_empty_array, Hcs. }
  destruct cs as [|c [|c' cs]]; simpl.
  - exact I.
  - now inversion Hall.
  - now apply (no_empty_array_start (c :: c' :: cs)).
Qed.

Lemma item_obj_no_empty_list (o : pyobj) : item_obj o -> no_empty_list o.
Proof. destruct o; simpl; tauto. Qed.

Lemma entries_no_empty_list (items : list pyobj) :
  Forall item_obj items -> forall n,
  Forall (fun kv => no_empty_list (snd kv)) (entries items n).
Proof.
  induction 1 as [|x items Hx _ IH]; intros n; [constructor|].
  destruct x; cbn [entries]; constructor; simpl; try apply IH;
    try (now apply item_obj_no_empty_list in Hx); exact I.
Qed.

Lemma dict_writes_Forall {V : Type} (P : string * V -> Prop)
    (ws : list (string * V)) :
  Forall P ws -> forall d, Forall P d -> Forall P (dict_writes ws d).
Proof.
  induction 1 as [|[k v] ws Hkv _ IH]; intros d Hd; [exact Hd|].
  simpl. apply IH. now apply dict_set_Forall.
Qed.

Lemma run_no_empty_list (text : string) (v : pyobj) :
  run text = Ok v -> no_empty_list v.
Proof.
  unfold run. intros H. apply bind_Ok in H as (t & Hp & H).
  apply parse_inv in Hp as (toks & cs & _ & _ & Hcs & ->).
  unfold transform in H. apply bind_Ok in H as ([v' st] & Ht & H).
  simpl in H. injection H as <-.
  destruct cs as [|c [|c' cs]]; simpl in Ht.
  - injection Ht as <- _. exact I.
  - inversion Hcs as [|? ? Hc _]; subst.
    destruct (transform_item_tree _ _ _ _ Hc constants_ok_0 Ht) as (Ho & _).
    now apply item_obj_no_empty_list.
  - change (transform_tree (T_start (c :: c' :: cs)) tstate0 = Ok (v', st)) in Ht.
    rewrite transform_tree_start in Ht.
    apply bind_Ok in Ht as ([items st1] & Hch & Ht). simpl in Ht.
    injection Ht as <- _.
    destruct (transform_items _ Hcs _ _ _ constants_ok_0 Hch) as (Hitems & _).
    apply no_empty_list_dict. rewrite start_loop_entries.
    apply dict_writes_Forall; [|constructor].
    now apply entries_no_empty_list.
Qed.

Lemma pstep_LBRACE (st st' : pstate) (tok : Token) :
  type tok = LBRACE -> pstep st tok = Some st' -> mode st' = AtValue.
Proof.
  intros Hty. unfold pstep, value_start. rewrite Hty.
  destruct (mode st); try discriminate; now intros [= <-].
Qed.

Lemma pstep_RBRACE_at_value (st : pstate) (tok : Token) :
  type tok = RBRACE -> mode st = AtValue -> pstep st tok = None.
Proof.
  intros Hty Hm. unfold pstep, value_start. now rewrite Hm, Hty.
Qed.

(** C7. An array literal has at least one element.  The text [{}] is a
    syntax error, and so is every token stream in which a closing brace
    follows an opening brace directly; the grammar derives no [array] node
    without children, no parse tree has one, and no value that a run
    produces has an empty list in it. *)
Theorem arrays_nonempty :
  parse "{}" = Raise UnexpectedInput
  /\ main "{}" = Exit1 SyntaxErrorMessage
  /\ (forall (pre post : list Token) (lbrace rbrace : Token),
         type lbrace = LBRACE -> type rbrace = RBRACE ->
         parse_items (pre ++ lbrace :: rbrace :: post) = None)
  /\ (forall (toks : list Token) (cs : list Tree),
         derives_value toks (T_array cs) -> cs <> [])
  /\ (forall (text : string) (t : Tree), parse text = Ok t -> no_empty_array t)
  /\ (forall (text : string) (v : pyobj), run text = Ok v -> no_empty_list v).
Proof.
  split; [reflexivity|]. split; [reflexivity|]. split; [|split; [|split]].
  - intros pre post lb rb Hl Hr. unfold parse_items. rewrite prun_app.
    destruct (prun pre pstate0) as [st|]; [|reflexivity].
    cbn [prun]. destruct (pstep st lb) as [st1|] eqn:E1; [|reflexivity].
    apply (pstep_LBRACE _ _ _ Hl) in E1.
    now rewrite (pstep_RBRACE_at_value _ _ Hr E1).
  - exact derives_array_nonempty.
  - exact parse_no_empty_array.
  - exact run_no_empty_list.
Qed.

Lemma arrays_nonempty_witness :
  parse_items ([mkToken NUMBER "1"]
               ++ mkToken LBRACE "{" :: mkToken RBRACE "}" :: [mkToken NUMBER "2"])
  = None.
Proof.
  apply (proj1 (proj2 (proj2 arrays_nonempty))); reflexivity.
Defined.

(** ** The XML emitter *)

Lemma Element_ind2 (P : Element -> Prop) :
  (forall tag text children, Forall P children -> P (Elem tag text children)) ->
  forall e, P e.
Proof.
  intros H. fix IH 1. intros [tag text children]. apply H.
  induction children; constructor; [apply IH | assumption].
Qed.

Lemma elem_ok_Elem (tag : string) (text : option string) (cs : list Element) :
  elem_ok (Elem tag text cs)
  <-> xml_name_ok tag = true /\ xml_text_ok (text_or_empty text) = true
      /\ Forall elem_ok cs.
Proof.
  simpl. do 2 apply and_iff_compat_l.
  induction cs as [|c cs IH]; [intuition constructor|].
  rewrite IH. split.
  - intros [H1 H2]. now constructor.
  - intros H. inversion H; subst. now split.
Qed.

Lemma parseString_tostring_Elem (tag : string) (text : option string)
    (children : list Element) :
  parseString_tostring (Elem tag text children)
  = if negb (xml_name_ok tag) then Raise ExpatError
    else if negb (xml_text_ok (text_or_empty text)) then Raise ExpatError
    else
      ns <- parse_children children ;;
      Ok (ElementNode tag
            (match text_or_empty text with
             | "" => ns
             | t => TextNode (normalize_newlines t) :: ns
             end)).
Proof. reflexivity. Qed.

(** The re-parse succeeds on a well-formed tree. *)
Lemma parseString_tostring_ok (e : Element) :
  elem_ok e -> exists n, parseString_tostring e = Ok n.
Proof.
  induction e as [tag text children IH] using Element_ind2. intros H.
  apply elem_ok_Elem in H as (Hn & Ht & Hc).
  rewrite parseString_tostring_Elem, Hn, Ht. cbn [negb].
  assert (Hch : exists ns, parse_children children = Ok ns).
  { induction children as [|c cs IHcs]; [simpl; eauto|].
    inversion IH as [|? ? IHc IHrest]; subst.
    inversion Hc as [|? ? Hc1 Hc2]; subst.
    destruct (IHc Hc1) as [n En]. destruct (IHcs IHrest Hc2) as [ns Ens].
    exists (n :: ns). cbn [parse_children]. rewrite En. simpl.
    now rewrite Ens. }
  destruct Hch as [ns ->]. simpl. eauto.
Qed.

Lemma elem_ok_append_child (parent child : Element) :
  elem_ok parent -> elem_ok child -> elem_ok (append_child parent child).
Proof.
  destruct parent as [tag text cs]. intros Hp Hc. cbn [append_child].
  apply elem_ok_Elem in Hp as (Hn & Ht & Hcs). apply elem_ok_Elem.
  repeat split; auto. apply Forall_app. split; [exact Hcs | now constructor].
Qed.

Lemma elem_ok_set_text (parent : Element) (s : string) :
  elem_ok parent -> xml_text_ok s = true -> elem_ok (set_text parent s).
Proof.
  destruct parent as [tag text cs]. intros Hp Hs. cbn [set_text].
  apply elem_ok_Elem in Hp as (Hn & _ & Hcs). apply elem_ok_Elem. auto.
Qed.

Lemma elem_ok_new_element (tag : string) :
  xml_name_ok tag = true -> elem_ok (new_element tag).
Proof. intros H. unfold new_element. apply elem_ok_Elem. auto. Qed.

Lemma contains_no_lead (c0 : ascii) (needle s : string) :
  forallb_str (fun c => negb (Ascii.eqb c0 c)) s = true ->
  contains (String c0 needle) s = false.
Proof.
  induction s as [|c r IH]; [reflexivity|].
  cbn [forallb_str]. intros H. apply andb_true_iff in H as [Hc Hr].
  cbn [contains startswith]. apply negb_true_iff in Hc. now rewrite Hc, IH.
Qed.

Lemma forallb_str_impl (p q : ascii -> bool) (s : string) :
  (forall c, p c = true -> q c = true) ->
  forallb_str p s = true -> forallb_str q s = true.
Proof.
  intros Hpq. induction s as [|c r IH]; [reflexivity|]. simpl.
  intros H. apply andb_true_iff in H as [Hc Hr]. now rewrite (Hpq c Hc), IH.
Qed.

Lemma number_char_xml (c : ascii) :
  is_number_char c = true ->
  xml_char_ok c = true /\ negb (Ascii.eqb "239" c) = true.
Proof.
  destruct c as [[|] [|] [|] [|] [|] [|] [|] [|]]; vm_compute; intros H;
    try discriminate H; split; reflexivity.
Qed.

Lemma py_str_int_chars (z : Z) :
  forallb_str is_number_char (py_str_int z) = true.
Proof.
  assert (Hd : forall d, forallb_str is_number_char (NilEmpty.string_of_uint d)
                         = true).
  { intros d. apply (forallb_str_impl is_digit); [|apply string_of_uint_digits].
    intros c Hc. unfold is_number_char. now rewrite Hc. }
  unfold py_str_int. destruct z as [|p|p]; [reflexivity| |];
    pose proof (DecimalPos.Unsigned.to_uint_nonnil p) as Hn;
    cbn [Z.to_int NilZero.string_of_int];
    rewrite (string_of_uint_nonnil _ Hn); [apply Hd|].
  cbn [forallb_str]. now rewrite Hd.
Qed.

(** The decimal numeral of an integer is a text XML can hold. *)
Lemma py_str_int_xml (z : Z) : xml_text_ok (py_str_int z) = true.
Proof.
  pose proof (py_str_int_chars z) as H. unfold xml_text_ok.
  rewrite (forallb_str_impl is_number_char xml_char_ok _
             (fun c Hc => proj1 (number_char_xml c Hc)) H).
  unfold nonchar_FFFE, nonchar_FFFF.
  rewrite !contains_no_lead; [reflexivity | |];
    apply (forallb_str_impl is_number_char); auto;
    intros c Hc; apply (proj2 (number_char_xml c Hc)).
Qed.

Lemma texts_ok_list (l : list pyobj) : texts_ok (PList l) <-> Forall texts_ok l.
Proof.
  simpl. induction l as [|x l IH]; [intuition constructor|].
  rewrite IH. split.
  - intros [H1 H2]. now constructor.
  - intros H. inversion H; subst. now split.
Qed.

Lemma to_xml_recurse_list (parent : Element) (l : list pyobj) :
  _to_xml_recurse parent (PList l)
  = append_child parent
      (fold_left
         (fun array_container item =>
            append_child array_container
              (_to_xml_recurse (new_element "item") item))
         l (new_element "array")).
Proof. reflexivity. Qed.

Lemma to_xml_recurse_dict (parent : Element) (d : dict pyobj) :
  _to_xml_recurse parent (PDict d)
  = fold_left
      (fun parent kv =>
         append_child parent (_to_xml_recurse (new_element (fst kv)) (snd kv)))
      d parent.
Proof. reflexivity. Qed.

(** Filling an element with a value of the specification whose texts are
    XML texts keeps the tree well formed. *)
Lemma to_xml_recurse_ok (v : pyobj) :
  spec_value v -> texts_ok v -> forall parent,
  elem_ok parent -> elem_ok (_to_xml_recurse parent v).
Proof.
  induction v as [z|s|l IH|n v IH|d IH] using pyobj_ind2;
    intros Hs Ht parent Hp; try (now destruct Hs).
  - apply elem_ok_set_text; [exact Hp | apply py_str_int_xml].
  - apply elem_ok_set_text; [exact Hp | exact Ht].
  - rewrite to_xml_recurse_list. apply elem_ok_append_child; [exact Hp|].
    apply spec_value_list in Hs. apply texts_ok_list in Ht.
    assert (Hacc : elem_ok (new_element "array"))
      by (now apply elem_ok_new_element).
    revert Hacc. generalize (new_element "array").
    induction l as [|x l IHl]; intros acc Hacc; [exact Hacc|].
    inversion IH as [|? ? IHx IHrest]; subst.
    inversion Hs as [|? ? Hsx Hsrest]; subst.
    inversion Ht as [|? ? Htx Htrest]; subst.
    cbn [fold_left]. apply IHl; auto.
    apply elem_ok_append_child; [exact Hacc|].
    apply IHx; auto. now apply elem_ok_new_element.
Qed.

Lemma to_xml_recurse_document_ok (d : dict pyobj) :
  document_ok d -> forall root,
  elem_ok root -> elem_ok (_to_xml_recurse root (PDict d)).
Proof.
  intros Hd root Hroot. rewrite to_xml_recurse_dict. revert root Hroot.
  induction Hd as [|[k v] d (Hk & Hs & Ht) _ IH]; intros root Hroot;
    [exact Hroot|].
  cbn [fold_left]. apply IH. apply elem_ok_append_child; [exact Hroot|].
  apply to_xml_recurse_ok; auto. now apply elem_ok_new_element.
Qed.

Lemma generate_xml_document_ok (d : dict pyobj) :
  document_ok d ->
  exists xml, generate_xml_from_dict (PDict d) "config" = Ok xml.
Proof.
  intros Hd. unfold generate_xml_from_dict.
  destruct (parseString_tostring_ok
              (_to_xml_recurse (new_element "config") (PDict d))) as [n ->].
  { apply to_xml_recurse_document_ok; [exact Hd|].
    now apply elem_ok_new_element. }
  cbn [bind].
  destruct (startswith "<?xml" (toprettyxml n "  ")); eauto.
Qed.

(** The keys the program makes are XML names. *)
Lemma NAME_xml_name (name : string) :
  is_NAME_lexeme name = true -> xml_name_ok name = true.
Proof.
  destruct name as [|c r]; [discriminate|]. cbn [is_NAME_lexeme xml_name_ok].
  intros H. apply andb_true_iff in H as [Hc Hr]. apply andb_true_iff. split.
  - unfold is_name_start in Hc. unfold is_xml_name_start.
    apply orb_true_iff in Hc as [-> | ->]; [reflexivity|].
    now rewrite orb_true_r.
  - apply (forallb_str_impl is_name_char); [|exact Hr].
    intros a. unfold is_name_char, is_xml_name_char, is_xml_name_start.
    destruct (is_underscore a), (is_lower a), (is_upper a), (is_digit a);
      simpl; congruence.
Qed.

Lemma item_key_xml_name (n : nat) : xml_name_ok (item_key n) = true.
Proof.
  unfold item_key.
  change (xml_name_ok ("item_" ++ py_str_int (Z.of_nat n)))
    with (forallb_str is_xml_name_char ("tem_" ++ py_str_int (Z.of_nat n))).
  rewrite forallb_str_append. change (forallb_str is_xml_name_char "tem_") with true.
  apply (forallb_str_impl is_number_char); [|apply py_str_int_chars].
  intros c. unfold is_number_char, is_xml_name_char.
  destruct (is_digit c), (Ascii.eqb c "-"), (is_xml_name_start c),
    (Ascii.eqb c "."); simpl; congruence.
Qed.

Lemma item_obj_spec_value (o : pyobj) :
  item_obj o -> match o with PTuple _ v => spec_value v | _ => spec_value o end.
Proof. destruct o; simpl; tauto. Qed.

Lemma entries_keys_values (items : list pyobj) :
  Forall item_obj items -> forall n,
  Forall (fun kv => xml_name_ok (fst kv) = true /\ spec_value (snd kv))
         (entries items n).
Proof.
  induction 1 as [|x items Hx _ IH]; intros n; [constructor|].
  pose proof (item_obj_spec_value x Hx) as Hs.
  destruct x; cbn [entries]; constructor; try apply IH; simpl;
    try (split; [apply item_key_xml_name | exact Hs]).
  split; [|exact Hs]. destruct Hx as [Hname _]. now apply NAME_xml_name.
Qed.

Lemma texts_ok_dict (d : dict pyobj) :
  texts_ok (PDict d) <-> Forall (fun kv => texts_ok (snd kv)) d.
Proof.
  simpl. induction d as [|x d IH]; [intuition constructor|].
  rewrite IH. split.
  - intros [H1 H2]. now constructor.
  - intros H. inversion H; subst. now split.
Qed.

(** A run whose result is a dictionary with XML texts prints its XML. *)
Lemma main_prints (text : string) (d : dict pyobj) :
  run text = Ok (PDict d) -> texts_ok (PDict d) ->
  exists xml, generate_xml_from_dict (PDict d) "config" = Ok xml
              /\ main text = Exit0 (xml ++ nl).
Proof.
  intros Hr Ht.
  assert (Hd : document_ok d).
  { assert (Hkv : Forall (fun kv => xml_name_ok (fst kv) = true
                                   /\ spec_value (snd kv)) d).
    { unfold run in Hr. apply bind_Ok in Hr as (t & Hp & Hr).
      apply parse_inv in Hp as (toks & cs & _ & _ & Hcs & ->).
      unfold transform in Hr. apply bind_Ok in Hr as ([v st] & Htr & Hr).
      simpl in Hr. injection Hr as ->.
      destruct cs as [|c [|c' cs]]; simpl in Htr.
      - injection Htr as <- _. constructor.
      - inversion Hcs as [|? ? Hc _]; subst.
        destruct (transform_item_tree _ _ _ _ Hc constants_ok_0 Htr)
          as (Ho & _). simpl in Ho. tauto.
      - change (transform_tree (T_start (c :: c' :: cs)) tstate0
                = Ok (PDict d, st)) in Htr.
        rewrite transform_tree_start in Htr.
        apply bind_Ok in Htr as ([items st1] & Hch & Htr). simpl in Htr.
        injection Htr as <- _.
        destruct (transform_items _ Hcs _ _ _ constants_ok_0 Hch)
          as (Hitems & _).
        rewrite start_loop_entries.
        apply dict_writes_Forall; [|constructor].
        now apply entries_keys_values. }
    apply texts_ok_dict in Ht. unfold document_ok.
    rewrite Forall_forall in *. intros kv Hin.
    destruct (Hkv kv Hin). auto. }
  destruct (generate_xml_document_ok d Hd) as [xml Hx].
  exists xml. split; [exact Hx|]. unfold main. rewrite Hr. cbn [bind].
  now rewrite Hx.
Qed.

(** C9, as the code has it.  The emitter succeeds on every document whose
    keys are ASCII names without a colon (a letter or an underscore, then
    letters, digits, underscores, hyphens and full stops), whose numbers
    have at most [int_max_str_digits] digits and whose texts are made of
    characters XML allows, surrogates excluded, whether the grammar can
    produce the document or not.  An empty array is no obstacle: it becomes
    an [array] element without children, written as a self-closed
    element. *)
Theorem emitter_total_on_xml_documents :
  (forall d : dict pyobj, document_ok d -> representable (PDict d) ->
     exists xml, generate_xml_from_dict (PDict d) "config" = Ok xml)
  /\ (forall parent : Element,
        _to_xml_recurse parent (PList [])
        = append_child parent (Elem "array" None []))
  /\ _to_xml_recurse (new_element "config") empty_array_document
     = Elem "config" None [Elem "K" None [Elem "array" None []]]
  /\ generate_xml_from_dict empty_array_document "config" = Ok empty_array_xml.
Proof.
  split; [intros d Hd _; now apply generate_xml_document_ok|]. split; [|split].
  - reflexivity.
  - reflexivity.
  - vm_compute; reflexivity.
Qed.

Lemma emitter_total_on_xml_documents_witness :
  exists xml,
    generate_xml_from_dict
      (PDict [("K", PList []); ("T", PStr "a<b"); ("N", PInt (-7))]) "config"
    = Ok xml.
Proof.
  apply (proj1 emitter_total_on_xml_documents).
  - repeat constructor.
  - cbn [representable snd]. repeat split.
Defined.

(** A document of the specification on which the emitter fails: the text
    of its only entry is the control character U+0001, which no XML
    document can contain, and the re-parse of the serialised tree raises.
    The grammar can produce such a text ([STRING_DOUBLE] excludes the
    double quote only), and the run then ends with an error. *)
Lemma emitter_total_counterexample :
  spec_value (PStr (String "001" ""))
  /\ generate_xml_from_dict control_char_document "config" = Raise ExpatError
  /\ run ("1 " ++ dq ++ String "001" "" ++ dq)
     = Ok (PDict [("item_0", PInt 1); ("item_1", PStr (String "001" ""))])
  /\ main ("1 " ++ dq ++ String "001" "" ++ dq) = Exit1 UnexpectedErrorMessage.
Proof.
  split; [exact I|]. split; [|split]; vm_compute; reflexivity.
Qed.

(** ** Comments are transparent *)

Lemma lex_all_text_of (s : string) (toks : list Token) :
  lex_all s = Some toks -> text_of toks = s.
Proof.
  revert s toks. apply lex_all_ind; [reflexivity|].
  intros s tok rest toks _ E _ IH.
  apply next_token_sound in E as [-> _]. unfold text_of in *. simpl.
  now rewrite IH.
Qed.

(** A scalar token is found again in front of white space or at the end. *)
Lemma next_token_scalar (tok : Token) (w : string) :
  is_scalar tok = true -> lexeme_ok tok -> forallb_str is_ws w = true ->
  next_token (value tok ++ w) = Some (tok, w).
Proof.
  destruct tok as [ty lexeme]. unfold is_scalar, lexeme_ok. simpl.
  intros Hs Hok Hw. destruct ty; try discriminate.
  - apply next_token_NUMBER; [exact Hok|].
    destruct w as [|c w]; [exact I|]. simpl in *.
    apply andb_true_iff in Hw as [Hc _]. now apply is_ws_not_digit.
  - now apply next_token_STRING.
Qed.

Lemma significant_single (toks : list Token) (tok : Token) :
  significant toks = [tok] ->
  exists pre post,
    toks = (pre ++ tok :: post)%list
    /\ Forall (fun t => ignored (type t) = true) pre
    /\ Forall (fun t => ignored (type t) = true) post.
Proof.
  unfold significant.
  induction toks as [|t toks IH]; simpl; [discriminate|].
  destruct (ignored (type t)) eqn:Ei; simpl.
  - intros H. destruct (IH H) as (pre & post & -> & Hpre & Hpost).
    exists (t :: pre), post. repeat split; auto.
  - intros [= -> H]. exists [], toks. repeat split; auto.
    clear IH. induction toks as [|t toks IH]; [constructor|].
    simpl in H. destruct (ignored (type t)) eqn:Ei'; simpl in H;
      [|discriminate].
    constructor; auto.
Qed.

(** What is left of ignored tokens without the comments is white space. *)
Lemma without_comments_ws (toks : list Token) :
  Forall lexeme_ok toks ->
  Forall (fun t => ignored (type t) = true) toks ->
  forallb_str is_ws (text_of (without_comments toks)) = true.
Proof.
  unfold text_of, without_comments.
  induction 1 as [|[ty lexeme] toks Hok _ IH]; intros Hi; [reflexivity|].
  inversion Hi as [|? ? Hty Hrest]; subst. simpl in Hty.
  unfold lexeme_ok in Hok. simpl in Hok.
  destruct ty; try discriminate Hty; simpl; auto.
  rewrite forallb_str_append, IH by assumption.
  unfold is_WS_lexeme in Hok. apply andb_true_iff in Hok as [_ ->]. reflexivity.
Qed.

Lemma text_of_app (a b : list Token) :
  text_of (a ++ b) = text_of a ++ text_of b.
Proof.
  unfold text_of. induction a as [|t a IH]; simpl; [reflexivity|].
  now rewrite IH, append_assoc.
Qed.

Lemma lex_ws_only (w : string) : forallb_str is_ws w = true -> lex w = Some [].
Proof.
  intros H. rewrite <- (append_nil_r w). now rewrite lex_skip_ws.
Qed.

Lemma run_lex (a b : string) : lex a = lex b -> run a = run b.
Proof. intros H. unfold run, parse. now rewrite H. Qed.

(** C8. Comments are transparent.  For a file that consists of comments,
    white space and one scalar value, the same file with all the comments
    removed has the same tokens for the parser, hence the same result of
    the transformation and the same output. *)
Theorem comments_transparent (text : string) (toks : list Token) (scalar : Token) :
  lex_all text = Some toks ->
  significant toks = [scalar] ->
  is_scalar scalar = true ->
  text_of toks = text
  /\ lex (text_of (without_comments toks)) = lex text
  /\ run (text_of (without_comments toks)) = run text
  /\ main (text_of (without_comments toks)) = main text.
Proof.
  intros Hl Hs Hsc.
  assert (Hlex : lex (text_of (without_comments toks)) = lex text).
  { pose proof (lex_all_shape _ _ Hl) as Hok.
    assert (Ht : lex text = Some [scalar])
      by (unfold lex; rewrite Hl; simpl; now rewrite Hs).
    rewrite Ht.
    destruct (significant_single _ _ Hs) as (pre & post & -> & Hpre & Hpost).
    apply Forall_app in Hok as [Hokpre Hok].
    inversion Hok as [|? ? Hoks Hokpost]; subst.
    assert (Hkeep : negb (is_comment (type scalar)) = true).
    { unfold is_scalar in Hsc. now destruct (type scalar). }
    unfold without_comments. rewrite filter_app. cbn [filter]. rewrite Hkeep.
    rewrite text_of_app.
    change (text_of (scalar :: ?l)) with (value scalar ++ text_of l).
    rewrite lex_skip_ws by (now apply without_comments_ws).
    pose proof (without_comments_ws post Hokpost Hpost) as Hw.
    unfold without_comments in Hw.
    pose proof (next_token_scalar scalar _ Hsc Hoks Hw) as Hn.
    pose proof (lex_ws_only _ Hw) as Hrest.
    unfold lex in *. rewrite lex_all_step.
    - rewrite Hn.
      destruct (lex_all (text_of (filter _ post))) as [l|]; [|discriminate].
      simpl in *. injection Hrest as Hrest. unfold significant at 1. simpl.
      assert (Hi : ignored (type scalar) = false).
      { unfold is_scalar in Hsc. now destruct (type scalar). }
      rewrite Hi. simpl. fold (significant l). now rewrite Hrest.
    - apply next_token_sound in Hn as [_ Hne].
      destruct (value scalar); [congruence | discriminate]. }
  split; [now apply lex_all_text_of|]. split; [exact Hlex|].
  pose proof (run_lex _ _ Hlex) as Hrun. split; [exact Hrun|].
  unfold main. now rewrite Hrun.
Qed.

Lemma comments_transparent_witness :
  text_of commented_tokens = commented_input
  /\ lex (text_of (without_comments commented_tokens)) = lex commented_input
  /\ run (text_of (without_comments commented_tokens)) = run commented_input
  /\ main (text_of (without_comments commented_tokens)) = main commented_input.
Proof.
  apply (comments_transparent commented_input commented_tokens
           (mkToken NUMBER "42")); vm_compute; reflexivity.
Defined.

Example commented_input_result :
  text_of (without_comments commented_tokens) = nl ++ "42"
  /\ run commented_input = Ok (PInt 42)
  /\ run (nl ++ "42") = Ok (PInt 42).
Proof. split; [|split]; vm_compute; reflexivity. Qed.

(** * Further properties of the code *)

(** ** The transformer and its tables *)

(** A value of the grammar leaves the tables as they are, whatever they
    hold. *)
Lemma transform_value_state (t : Tree) :
  value_tree t -> forall st v st',
  transform_tree t st = Ok (v, st') -> st' = st.
Proof.
  induction t as [cs IH|n c IH|q l n r|cs IH|tok|tok] using Tree_ind2;
    intros Hv st v st'; try (now destruct Hv).
  - cbn [transform_tree]. unfold resolve_const.
    destruct (negb (dict_mem (value n) (constants st))); [discriminate|].
    destruct (dict_get (value n) (constants st)); [|discriminate].
    simpl. now intros [= _ <-].
  - apply value_tree_array in Hv as [_ Hall].
    rewrite transform_tree_array. intros H.
    apply bind_Ok in H as ([items st1] & Hch & H). simpl in H.
    injection H as _ <-.
    revert st items st1 Hch.
    induction cs as [|c cs IHcs]; intros st items st1 Hch.
    + now injection Hch as _ <-.
    + rewrite transform_children_cons in Hch.
      apply bind_Ok in Hch as ([v1 st2] & H1 & Hch). simpl in Hch.
      apply bind_Ok in Hch as ([vs st3] & H2 & Hch). simpl in Hch.
      injection Hch as _ <-.
      inversion IH as [|? ? IHc IHrest]; subst.
      inversion Hall as [|? ? Hvc Hvrest]; subst.
      rewrite (IHc Hvc _ _ _ H1) in H2. now apply (IHcs IHrest Hvrest _ _ _ H2).
  - cbn [transform_tree]. unfold number.
    destruct (py_int (value tok)); [|discriminate]. simpl. now intros [= _ <-].
  - cbn [transform_tree]. unfold string_. simpl. now intros [= _ <-].
Qed.

(** The elements of an array are all transformed in the state the array
    is met in. *)
Lemma transform_children_values (cs : list Tree) :
  Forall value_tree cs -> forall st items st',
  transform_children cs st = Ok (items, st') ->
  st' = st /\ Forall2 (fun c x => transform_tree c st = Ok (x, st)) cs items.
Proof.
  induction 1 as [|c cs Hc _ IH]; intros st items st' H.
  - injection H as <- <-. split; [reflexivity | constructor].
  - rewrite transform_children_cons in H.
    apply bind_Ok in H as ([v1 st1] & H1 & H). simpl in H.
    apply bind_Ok in H as ([vs st2] & H2 & H). simpl in H.
    injection H as <- <-.
    pose proof (transform_value_state c Hc _ _ _ H1) as E. subst st1.
    destruct (IH _ _ _ H2) as [-> HF]. split; [reflexivity|].
    now constructor.
Qed.

Lemma transform_tables (t : Tree) :
  forall st v st', transform_tree t st = Ok (v, st') ->
  (assignments st = constants st -> assignments st' = constants st')
  /\ (forall k, dict_mem k (constants st) = true ->
                dict_mem k (constants st') = true).
Proof.
  assert (Hchildren : forall cs,
    Forall (fun t => forall st v st', transform_tree t st = Ok (v, st') ->
      (assignments st = constants st -> assignments st' = constants st')
      /\ (forall k, dict_mem k (constants st) = true ->
                    dict_mem k (constants st') = true)) cs ->
    forall st vs st', transform_children cs st = Ok (vs, st') ->
      (assignments st = constants st -> assignments st' = constants st')
      /\ (forall k, dict_mem k (constants st) = true ->
                    dict_mem k (constants st') = true)).
  { induction 1 as [|c cs Hc _ IH]; intros st vs st' H.
    - injection H as _ <-. auto.
    - rewrite transform_children_cons in H.
      apply bind_Ok in H as ([v1 st1] & H1 & H). simpl in H.
      apply bind_Ok in H as ([vs' st2] & H2 & H). simpl in H.
      injection H as _ <-.
      destruct (Hc _ _ _ H1) as [Ha Hb]. destruct (IH _ _ _ H2) as [Ha' Hb'].
      split; auto. }
  induction t as [cs IH|n c IH|q l n r|cs IH|tok|tok] using Tree_ind2;
    intros st v st'.
  - rewrite transform_tree_start. intros H.
    apply bind_Ok in H as ([items st1] & Hch & H). simpl in H.
    injection H as _ <-. exact (Hchildren cs IH _ _ _ Hch).
  - cbn [transform_tree]. intros H.
    apply bind_Ok in H as ([v0 st1] & Hc & H). simpl in H.
    injection H as _ <-. destruct (IH _ _ _ Hc) as [Ha Hb]. simpl. split.
    + intros E. now rewrite (Ha E).
    + intros k Hk. rewrite dict_mem_set, (Hb k Hk). apply orb_true_r.
  - cbn [transform_tree]. unfold resolve_const.
    destruct (negb (dict_mem (value n) (constants st))); [discriminate|].
    destruct (dict_get (value n) (constants st)); [|discriminate].
    simpl. intros [= _ <-]. auto.
  - rewrite transform_tree_array. intros H.
    apply bind_Ok in H as ([items st1] & Hch & H). simpl in H.
    injection H as _ <-. exact (Hchildren cs IH _ _ _ Hch).
  - cbn [transform_tree]. unfold number.
    destruct (py_int (value tok)); [|discriminate]. simpl. intros [= _ <-]. auto.
  - cbn [transform_tree]. unfold string_. simpl. intros [= _ <-]. auto.
Qed.

(** X1. A parsed input is transformed without error exactly when every
    reference [?[NAME]] comes after a definition of NAME.  The transformer
    has no other way to fail: [int] accepts every NUMBER token, the slice of
    [string] is defined on every text, and the look-up in [resolve_const]
    is made after the membership test. *)
Theorem transformer_fails_only_on_undefined (text : string) (t : Tree) :
  parse text = Ok t ->
  ((exists v, run text = Ok v) <-> (exists names, scan t [] = inr names)).
Proof.
  intros Hp.
  pose proof (transform_scan t (parse_numbers_ok _ _ Hp) tstate0 []
                same_names_0) as H.
  unfold run. rewrite Hp. cbn [bind]. unfold transform.
  destruct (scan t []) as [name|names].
  - rewrite H. simpl. split; intros [x Hx]; discriminate Hx.
  - destruct H as (v & st' & -> & _). simpl. split; eauto.
Qed.

Lemma transformer_fails_only_on_undefined_witness :
  (exists v, run defined_reference_input = Ok v)
  <-> (exists names, scan defined_reference_tree [] = inr names).
Proof.
  apply (transformer_fails_only_on_undefined defined_reference_input).
  vm_compute; reflexivity.
Defined.

(** X2. [assign_const] writes every definition to both tables, and no
    other callback writes to either: a transformation that starts with equal
    tables ends with equal tables, and no name that the constant table has
    is ever removed from it. *)
Theorem tables_grow_together (t : Tree) (st st' : tstate) (v : pyobj) :
  transform_tree t st = Ok (v, st') ->
  assignments st = constants st ->
  assignments st' = constants st'
  /\ (forall k, dict_mem k (constants st) = true ->
                dict_mem k (constants st') = true).
Proof.
  intros H E. destruct (transform_tables t _ _ _ H) as [Ha Hb]. auto.
Qed.

Lemma tables_grow_together_witness :
  assignments (mkTState [("A", PInt 1); ("B", PInt 1)]
                        [("A", PInt 1); ("B", PInt 1)])
  = constants (mkTState [("A", PInt 1); ("B", PInt 1)]
                        [("A", PInt 1); ("B", PInt 1)])
  /\ (forall k, dict_mem k (constants tstate0) = true ->
                dict_mem k (constants
                              (mkTState [("A", PInt 1); ("B", PInt 1)]
                                        [("A", PInt 1); ("B", PInt 1)])) = true).
Proof.
  apply (tables_grow_together defined_reference_tree tstate0 _
           (PDict [("A", PInt 1); ("B", PInt 1)])); reflexivity.
Defined.

(** ** The document and the constant table *)

Lemma filter_dict_set {V : Type} (P : string -> bool) (k : string) (v : V)
    (d : dict V) :
  filter (fun kv => P (fst kv)) (dict_set k v d)
  = if P k then dict_set k v (filter (fun kv => P (fst kv)) d)
    else filter (fun kv => P (fst kv)) d.
Proof.
  induction d as [|[k' v'] d IH]; simpl.
  - now destruct (P k).
  - destruct (String.eqb_spec k' k) as [->|Hne]; simpl.
    + destruct (P k); simpl; [|reflexivity]. now rewrite String.eqb_refl.
    + rewrite IH. destruct (P k'), (P k); simpl; try reflexivity.
      apply String.eqb_neq in Hne. now rewrite Hne.
Qed.

Lemma assigned_bare (x : pyobj) (items : list pyobj) :
  is_bare x = true -> assigned (x :: items) = assigned items.
Proof. destruct x; simpl; intros H; [reflexivity ..|discriminate|reflexivity]. Qed.

Lemma named_entries_writes (items : list pyobj) :
  Forall item_obj items -> forall (n : nat) (d : dict pyobj),
  named_entries (dict_writes (entries items n) d)
  = dict_writes (assigned items) (named_entries d).
Proof.
  unfold named_entries.
  induction 1 as [|x items Hx _ IH]; intros n d; [reflexivity|].
  destruct (is_bare x) eqn:Eb.
  - rewrite entries_bare_cons, assigned_bare by assumption.
    cbn [dict_writes fold_left fst snd]. fold (dict_writes (entries items (S n))).
    change (fold_left ?f (entries items (S n)) ?a)
      with (dict_writes (entries items (S n)) a).
    rewrite IH, (filter_dict_set (fun k => negb (is_item_key k))).
    now rewrite item_key_is_item_key.
  - destruct x; try discriminate. destruct Hx as (Hname & _).
    cbn [entries assigned dict_writes fold_left fst snd].
    change (fold_left ?f (entries items n) ?a)
      with (dict_writes (entries items n) a).
    change (fold_left ?f (assigned items) ?a)
      with (dict_writes (assigned items) a).
    rewrite IH, (filter_dict_set (fun k => negb (is_item_key k))).
    now rewrite (NAME_not_item_key _ Hname).
Qed.

(** The tables after the items of a file: the writes of its assignments. *)
Lemma transform_children_constants (cs : list Tree) :
  Forall item_tree cs -> forall st items st', constants_ok st ->
  transform_children cs st = Ok (items, st') ->
  constants st' = dict_writes (assigned items) (constants st).
Proof.
  induction 1 as [|c cs Hc _ IH]; intros st items st' Hst H.
  - now injection H as <- <-.
  - rewrite transform_children_cons in H.
    apply bind_Ok in H as ([v1 st1] & H1 & H). simpl in H.
    apply bind_Ok in H as ([vs st2] & H2 & H). simpl in H.
    injection H as <- <-.
    destruct (transform_item_tree _ _ _ _ Hc Hst H1) as (_ & Hst1 & Hb).
    rewrite (IH _ _ _ Hst1 H2).
    destruct c as [cs'|n c|q l n r|cs'|tok|tok];
      try (rewrite assigned_bare by exact Hb;
           now rewrite (transform_value_state _ Hc _ _ _ H1)).
    destruct Hc as (_ & _ & Hv). cbn [transform_tree] in H1.
    apply bind_Ok in H1 as ([v0 st0] & Hch & H1). simpl in H1.
    injection H1 as <- <-.
    now rewrite (transform_value_state _ Hv _ _ _ Hch).
Qed.

(** X3. After a file with several items has been transformed, the constant
    table is the document without its [item_<n>] entries: the same names in
    the same order, bound to the same values; and the table of assignments
    is the same table. *)
Theorem constants_are_named_entries
    (text : string) (cs : list Tree) (d : dict pyobj) (st : tstate) :
  parse text = Ok (T_start cs) ->
  transform_tree (T_start cs) tstate0 = Ok (PDict d, st) ->
  constants st = named_entries d /\ assignments st = constants st.
Proof.
  intros Hp H. pose proof (parse_start_inv _ _ Hp) as Hcs.
  split; [|exact (proj1 (transform_tables _ _ _ _ H) eq_refl)].
  rewrite transform_tree_start in H.
  apply bind_Ok in H as ([items st1] & Hch & H). simpl in H.
  injection H as <- <-.
  destruct (transform_items cs Hcs _ _ _ constants_ok_0 Hch) as (Hitems & _).
  rewrite (transform_children_constants cs Hcs _ _ _ constants_ok_0 Hch).
  rewrite start_loop_entries. now rewrite named_entries_writes.
Qed.

Lemma constants_are_named_entries_witness :
  constants (mkTState [("A", PInt 1); ("B", PInt 3)] [("A", PInt 1); ("B", PInt 3)])
  = named_entries [("A", PInt 1); ("item_0", PInt 2); ("B", PInt 3);
                   ("item_1", PInt 4)]
  /\ assignments (mkTState [("A", PInt 1); ("B", PInt 3)]
                           [("A", PInt 1); ("B", PInt 3)])
     = constants (mkTState [("A", PInt 1); ("B", PInt 3)]
                           [("A", PInt 1); ("B", PInt 3)]).
Proof.
  apply (constants_are_named_entries mixed_input
           [T_assign_const (mkToken NAME "A") (T_number (mkToken NUMBER "1"));
            T_number (mkToken NUMBER "2");
            T_assign_const (mkToken NAME "B") (T_number (mkToken NUMBER "3"));
            T_number (mkToken NUMBER "4")]); vm_compute; reflexivity.
Defined.

(** X4. The elements of an array are transformed from left to right, each
    in the state the array is met in: the list has one value per element,
    in the order of the elements, every reference inside the array sees the
    same constant table, and the array leaves the tables as they are. *)
Theorem array_elements_in_order
    (cs : list Tree) (st st' : tstate) (v : pyobj) :
  Forall value_tree cs ->
  transform_tree (T_array cs) st = Ok (v, st') ->
  st' = st
  /\ exists items, v = PList items
       /\ Forall2 (fun c x => transform_tree c st = Ok (x, st)) cs items.
Proof.
  intros Hcs H. rewrite transform_tree_array in H.
  apply bind_Ok in H as ([items st1] & Hch & H). simpl in H.
  injection H as <- <-.
  destruct (transform_children_values cs Hcs _ _ _ Hch) as [-> HF].
  split; [reflexivity|]. now exists items.
Qed.

Lemma array_elements_in_order_witness :
  mkTState [("A", PInt 7)] [] = mkTState [("A", PInt 7)] []
  /\ exists items, PList [PInt 7; PStr "x"] = PList items
       /\ Forall2 (fun c x => transform_tree c (mkTState [("A", PInt 7)] [])
                              = Ok (x, mkTState [("A", PInt 7)] []))
            [T_resolve_const (mkToken QUESTION_MARK "?") (mkToken LBRACKET "[")
               (mkToken NAME "A") (mkToken RBRACKET "]");
             T_string (mkToken STRING_DOUBLE (dq ++ "x" ++ dq))]
            items.
Proof.
  apply (array_elements_in_order
           [T_resolve_const (mkToken QUESTION_MARK "?") (mkToken LBRACKET "[")
              (mkToken NAME "A") (mkToken RBRACKET "]");
            T_string (mkToken STRING_DOUBLE (dq ++ "x" ++ dq))]
           (mkTState [("A", PInt 7)] [])).
  - repeat constructor. exists "x". split; reflexivity.
  - reflexivity.
Defined.

(** What a run returns when it returns a dictionary: the result of the
    loop of [start] on the items of the file. *)
Lemma run_dict_inv (text : string) (d : dict pyobj) :
  run text = Ok (PDict d) ->
  exists items, Forall item_obj items /\ d = dict_writes (entries items 0) [].
Proof.
  unfold run. intros H. apply bind_Ok in H as (t & Hp & H).
  apply parse_inv in Hp as (toks & cs & _ & _ & Hcs & ->).
  unfold transform in H. apply bind_Ok in H as ([v st] & Ht & H).
  simpl in H. injection H as ->.
  destruct cs as [|c [|c' cs]]; simpl in Ht.
  - injection Ht as <- _. exists []. split; [constructor | reflexivity].
  - inversion Hcs as [|? ? Hc _]; subst.
    destruct (transform_item_tree _ _ _ _ Hc constants_ok_0 Ht) as (Ho & _).
    simpl in Ho. tauto.
  - change (transform_tree (T_start (c :: c' :: cs)) tstate0
            = Ok (PDict d, st)) in Ht.
    rewrite transform_tree_start in Ht.
    apply bind_Ok in Ht as ([items st1] & Hch & Ht). simpl in Ht.
    injection Ht as <- _.
    destruct (transform_items _ Hcs _ _ _ constants_ok_0 Hch) as (Hitems & _).
    exists items. split; [exact Hitems | apply start_loop_entries].
Qed.

Lemma entries_program_keys (items : list pyobj) :
  Forall item_obj items -> forall n,
  Forall (fun kv => program_key (fst kv) /\ xml_name_ok (fst kv) = true
                    /\ spec_value (snd kv))
         (entries items n).
Proof.
  induction 1 as [|x items Hx _ IH]; intros n; [constructor|].
  pose proof (item_obj_spec_value x Hx) as Hs.
  destruct x; cbn [entries]; constructor; try apply IH; simpl;
    try (split; [right; now exists n
                | split; [apply item_key_xml_name | exact Hs]]).
  destruct Hx as [Hname _].
  split; [now left | split; [now apply NAME_xml_name | exact Hs]].
Qed.

Lemma in_keys_set {V : Type} (k k' : string) (v : V) (d : dict V) :
  In k' (dict_keys (dict_set k v d)) -> k' = k \/ In k' (dict_keys d).
Proof.
  induction d as [|[k0 v0] d IH]; simpl.
  - intros [<-|[]]. now left.
  - destruct (String.eqb_spec k0 k) as [->|_]; simpl.
    + intros [<-|H]; auto.
    + intros [<-|H]; auto. destruct (IH H); auto.
Qed.

Lemma dict_set_NoDup {V : Type} (k : string) (v : V) (d : dict V) :
  NoDup (dict_keys d) -> NoDup (dict_keys (dict_set k v d)).
Proof.
  induction d as [|[k0 v0] d IH]; simpl; intros H.
  - constructor; [intros [] | constructor].
  - inversion H as [|? ? Hn Hd]; subst.
    destruct (String.eqb_spec k0 k) as [->|Hne]; simpl.
    + now constructor.
    + constructor; [|now apply IH].
      intros Hin. apply in_keys_set in Hin as [E|Hin]; auto.
Qed.

Lemma dict_writes_NoDup {V : Type} (ws : list (string * V)) :
  forall d, NoDup (dict_keys d) -> NoDup (dict_keys (dict_writes ws d)).
Proof.
  induction ws as [|[k v] ws IH]; intros d Hd; [exact Hd|].
  simpl. apply IH. now apply dict_set_NoDup.
Qed.

(** X5. Every document that a run produces is well formed: no key occurs
    twice, every key is a NAME of the file or a synthesized [item_<n>] key,
    hence an XML name, and every value is a number, a text or a list of
    such values: no pair and no dictionary is ever inside a document. *)
Theorem document_keys_and_values (text : string) (d : dict pyobj) :
  run text = Ok (PDict d) ->
  NoDup (dict_keys d)
  /\ Forall (fun kv => program_key (fst kv) /\ xml_name_ok (fst kv) = true
                       /\ spec_value (snd kv)) d.
Proof.
  intros H. apply run_dict_inv in H as (items & Hitems & ->). split.
  - apply dict_writes_NoDup. constructor.
  - apply dict_writes_Forall; [|constructor]. now apply entries_program_keys.
Qed.

Lemma document_keys_and_values_witness :
  NoDup (dict_keys [("A", PInt 1); ("item_0", PInt 2); ("B", PInt 3);
                    ("item_1", PInt 4)])
  /\ Forall (fun kv => program_key (fst kv) /\ xml_name_ok (fst kv) = true
                       /\ spec_value (snd kv))
            [("A", PInt 1); ("item_0", PInt 2); ("B", PInt 3);
             ("item_1", PInt 4)].
Proof.
  apply (document_keys_and_values mixed_input). vm_compute; reflexivity.
Defined.

(** ** Files whose names are all different *)

Lemma entries_keys_cases (items : list pyobj) :
  Forall item_obj items -> forall (n : nat) (k : string),
  In k (map fst (entries items n)) ->
  (In k (map fst (assigned items)) /\ is_NAME_lexeme k = true)
  \/ exists m, (n <= m)%nat /\ k = item_key m.
Proof.
  induction 1 as [|x items Hx _ IH]; intros n k; [intros []|].
  destruct (is_bare x) eqn:Eb.
  - rewrite entries_bare_cons, assigned_bare by assumption.
    intros [<-|Hin]; [right; exists n; split; [lia | reflexivity]|].
    destruct (IH _ _ Hin) as [Hl|(m & Hm & ->)]; [now left|].
    right. exists m. split; [lia | reflexivity].
  - destruct x; try discriminate. destruct Hx as (Hname & _).
    cbn [entries assigned map fst].
    intros [<-|Hin]; [left; split; [now left | exact Hname]|].
    destruct (IH _ _ Hin) as [[Hl Hn]|Hr]; [left; split; [now right | exact Hn]|].
    now right.
Qed.

Lemma entries_NoDup (items : list pyobj) :
  Forall item_obj items -> NoDup (map fst (assigned items)) ->
  forall n, NoDup (map fst (entries items n)).
Proof.
  induction 1 as [|x items Hx Hitems IH]; intros Hnd n; [constructor|].
  destruct (is_bare x) eqn:Eb.
  - rewrite entries_bare_cons by assumption.
    rewrite assigned_bare in Hnd by assumption.
    cbn [map fst]. constructor; [|now apply IH].
    intros Hin.
    destruct (entries_keys_cases items Hitems _ _ Hin) as [[_ Hn]|(m & Hm & E)].
    + now apply (NAME_neq_item_key _ n) in Hn.
    + apply item_key_inj in E. lia.
  - destruct x; try discriminate. destruct Hx as (Hname & _).
    cbn [assigned map fst] in Hnd. inversion Hnd as [|? ? Hnotin Hnd']; subst.
    cbn [entries map fst]. constructor; [|now apply IH].
    intros Hin.
    destruct (entries_keys_cases items Hitems _ _ Hin) as [[Hl _]|(m & _ & E)].
    + contradiction.
    + now apply (NAME_neq_item_key _ m) in Hname.
Qed.

Lemma dict_set_new {V : Type} (k : string) (v : V) (d : dict V) :
  ~ In k (dict_keys d) -> dict_set k v d = (d ++ [(k, v)])%list.
Proof.
  induction d as [|[k0 v0] d IH]; simpl; intros Hn; [reflexivity|].
  destruct (String.eqb_spec k0 k) as [->|_]; [tauto|].
  rewrite IH; [reflexivity | tauto].
Qed.

Lemma dict_writes_new {V : Type} (ws : list (string * V)) :
  NoDup (map fst ws) -> forall d,
  (forall k, In k (map fst ws) -> ~ In k (dict_keys d)) ->
  dict_writes ws d = (d ++ ws)%list.
Proof.
  induction ws as [|[k v] ws IH]; intros Hnd d Hd; simpl.
  - now rewrite app_nil_r.
  - inversion Hnd as [|? ? Hk Hnd']; subst.
    change (fold_left ?f ws ?a) with (dict_writes ws a).
    rewrite dict_set_new by (apply Hd; now left).
    rewrite IH; [now rewrite <- app_assoc | exact Hnd' |].
    intros k' Hin. unfold dict_keys. rewrite map_app, in_app_iff. simpl.
    intros [H|[<-|[]]]; [|contradiction].
    apply (Hd k'); [now right | exact H].
Qed.

(** X6. When no name is defined twice, no entry is ever overwritten: the
    document has one entry per top-level item, in the order of the items,
    each definition under its name and each bare value under the next
    [item_<n>] key. *)
Theorem distinct_names_keep_all_entries
    (text : string) (cs : list Tree) (items : list pyobj) (st : tstate) :
  parse text = Ok (T_start cs) ->
  transform_children cs tstate0 = Ok (items, st) ->
  NoDup (map fst (assigned items)) ->
  run text = Ok (PDict (entries items 0))
  /\ length (entries items 0) = length cs.
Proof.
  intros Hp Hch Hnd. pose proof (parse_start_inv _ _ Hp) as Hcs.
  destruct (transform_items cs Hcs _ _ _ constants_ok_0 Hch) as (Hitems & _ & Hb).
  split.
  - unfold run. rewrite Hp. cbn [bind]. unfold transform.
    rewrite transform_tree_start, Hch. simpl.
    rewrite start_loop_entries.
    rewrite dict_writes_new; [reflexivity | now apply entries_NoDup |].
    intros k _ [].
  - assert (Hlen : forall l n, length (entries l n) = length l).
    { induction l as [|x l IHl]; intros n; [reflexivity|].
      destruct x; simpl; now rewrite IHl. }
    rewrite Hlen. apply (f_equal (@length bool)) in Hb.
    now rewrite !length_map in Hb.
Qed.

Lemma distinct_names_keep_all_entries_witness :
  run mixed_input
  = Ok (PDict (entries [PTuple "A" (PInt 1); PInt 2; PTuple "B" (PInt 3); PInt 4] 0))
  /\ length (entries [PTuple "A" (PInt 1); PInt 2; PTuple "B" (PInt 3); PInt 4] 0)
     = length [T_assign_const (mkToken NAME "A") (T_number (mkToken NUMBER "1"));
               T_number (mkToken NUMBER "2");
               T_assign_const (mkToken NAME "B") (T_number (mkToken NUMBER "3"));
               T_number (mkToken NUMBER "4")].
Proof.
  apply (distinct_names_keep_all_entries mixed_input _ _
           (mkTState [("A", PInt 1); ("B", PInt 3)]
                     [("A", PInt 1); ("B", PInt 3)])).
  - vm_compute; reflexivity.
  - vm_compute; reflexivity.
  - repeat constructor; simpl; intuition discriminate.
Defined.

(** ** A file with a single item *)

(** X7. The [start] rule is inlined when it has exactly one child, so for a
    file that consists of one item the callback [start] is never called:
    the result is what the item itself is transformed into, a value or the
    pair of an assignment, never a dictionary.  Unless the item is an
    array, the root element then holds the text [str] gives for the result
    and has no child element: there is no [item_0] element and no element
    named after the constant. *)
Theorem single_item_is_not_wrapped
    (text : string) (toks : list Token) (item : Tree) (v : pyobj) :
  lex text = Some toks ->
  parse_items toks = Some [item] ->
  run text = Ok v ->
  transform item = Ok v
  /\ item_obj v
  /\ is_bare v = negb (is_assignment item)
  /\ (forall d, v <> PDict d)
  /\ (forall root, (forall l, v <> PList l) ->
        _to_xml_recurse (new_element root) v = Elem root (Some (py_str v)) []).
Proof.
  intros Hl Hp Hr.
  assert (Hitem : item_tree item).
  { pose proof (parse_items_ok toks [item] (lex_shape _ _ Hl) Hp) as H.
    now inversion H. }
  unfold run, parse in Hr. rewrite Hl, Hp in Hr. cbn [expand1_start bind] in Hr.
  split; [exact Hr|].
  unfold transform in Hr. apply bind_Ok in Hr as ([v' st] & Ht & Hr).
  simpl in Hr. injection Hr as ->.
  destruct (transform_item_tree _ _ _ _ Hitem constants_ok_0 Ht) as (Ho & _ & Hb).
  split; [exact Ho|]. split; [exact Hb|]. split.
  - intros d ->. simpl in Ho. tauto.
  - intros root Hnl. destruct v; try reflexivity.
    + now destruct (Hnl items).
    + simpl in Ho. tauto.
Qed.

Lemma single_item_is_not_wrapped_witness :
  transform (T_assign_const (mkToken NAME "A") (T_number (mkToken NUMBER "1")))
  = Ok (PTuple "A" (PInt 1))
  /\ item_obj (PTuple "A" (PInt 1))
  /\ is_bare (PTuple "A" (PInt 1))
     = negb (is_assignment
               (T_assign_const (mkToken NAME "A") (T_number (mkToken NUMBER "1"))))
  /\ (forall d, PTuple "A" (PInt 1) <> PDict d)
  /\ (forall root, (forall l, PTuple "A" (PInt 1) <> PList l) ->
        _to_xml_recurse (new_element root) (PTuple "A" (PInt 1))
        = Elem root (Some (py_str (PTuple "A" (PInt 1)))) []).
Proof.
  apply (single_item_is_not_wrapped single_definition_input
           single_definition_tokens); vm_compute; reflexivity.
Defined.

(** ** The parser and the grammar *)

Lemma derives_start_app (a b : list Token) (x y : list Tree) :
  derives_start a x -> derives_start b y ->
  derives_start (a ++ b)%list (x ++ y)%list.
Proof.
  intros Ha Hb. induction Hb as [|t t' items item _ IH Hitem].
  - now rewrite !app_nil_r.
  - rewrite !app_assoc. now constructor.
Qed.

(** X8. The parser accepts exactly the token sequences that the grammar
    derives, with the parse tree of the derivation; so a text is parsed
    exactly when its tokens, white space and comments left out, are a
    sequence of items of the grammar, and the tree returned is the [start]
    node of these items, or the item itself when there is exactly one. *)
Theorem parser_accepts_grammar :
  (forall (toks : list Token) (items : list Tree),
      parse_items toks = Some items <-> derives_start toks items)
  /\ (forall (text : string) (t : Tree),
         parse text = Ok t
         <-> exists toks items,
               lex text = Some toks /\ derives_start toks items
               /\ t = expand1_start items).
Proof.
  split; [exact parse_items_derives|].
  intros text t. split.
  - intros H. apply parse_inv in H as (toks & cs & Hl & Hp & _ & ->).
    exists toks, cs. split; [exact Hl|]. split; [|reflexivity].
    now apply parse_items_sound.
  - intros (toks & items & Hl & Hd & ->).
    unfold parse. rewrite Hl. now rewrite (parse_items_complete _ _ Hd).
Qed.

(** X9. The grammar is unambiguous: a token sequence has at most one
    sequence of parse trees. *)
Theorem grammar_unambiguous (toks : list Token) (a b : list Tree) :
  derives_start toks a -> derives_start toks b -> a = b.
Proof.
  intros Ha Hb.
  apply parse_items_complete in Ha. apply parse_items_complete in Hb.
  congruence.
Qed.

Lemma grammar_unambiguous_witness :
  [T_assign_const (mkToken NAME "A") (T_number (mkToken NUMBER "1"))]
  = [T_assign_const (mkToken NAME "A") (T_number (mkToken NUMBER "1"))].
Proof.
  apply (grammar_unambiguous single_definition_tokens).
  - apply (DS_next [] single_definition_tokens [] _ DS_nil).
    apply DI_assignment; try reflexivity. now apply DV_number.
  - apply (DS_next [] single_definition_tokens [] _ DS_nil).
    apply DI_assignment; try reflexivity. now apply DV_number.
Defined.

(** X10. Top-level items need no separator and do not depend on each
    other syntactically: when two token sequences are accepted, so is the
    one followed by the other, and its items are the items of the first
    followed by the items of the second. *)
Theorem items_concatenate (a b : list Token) (x y : list Tree) :
  parse_items a = Some x -> parse_items b = Some y ->
  parse_items (a ++ b)%list = Some (x ++ y)%list.
Proof.
  intros Ha Hb. apply parse_items_complete.
  apply derives_start_app; now apply parse_items_sound.
Qed.

Lemma items_concatenate_witness :
  parse_items (single_definition_tokens ++ [mkToken NUMBER "2"])%list
  = Some ([T_assign_const (mkToken NAME "A") (T_number (mkToken NUMBER "1"))]
          ++ [T_number (mkToken NUMBER "2")])%list.
Proof.
  apply items_concatenate; reflexivity.
Defined.

(** ** The shape of the output *)

Lemma rev_str_acc_append (s acc : string) :
  rev_str_acc s acc = rev_str s ++ acc.
Proof.
  unfold rev_str. revert acc. induction s as [|c r IH]; intros acc; [reflexivity|].
  cbn [rev_str_acc]. rewrite (IH (String c acc)), (IH (String c "")).
  now rewrite append_assoc.
Qed.

Lemma rev_str_cons (c : ascii) (r : string) :
  rev_str (String c r) = rev_str r ++ String c "".
Proof. unfold rev_str at 1. cbn [rev_str_acc]. apply rev_str_acc_append. Qed.

Lemma rev_str_append (a b : string) :
  rev_str (a ++ b) = rev_str b ++ rev_str a.
Proof.
  induction a as [|c a IH]; simpl.
  - now rewrite append_nil_r.
  - now rewrite !rev_str_cons, IH, append_assoc.
Qed.

Lemma rev_str_involutive (s : string) : rev_str (rev_str s) = s.
Proof.
  induction s as [|c r IH]; [reflexivity|].
  now rewrite rev_str_cons, rev_str_append, IH.
Qed.

(** [strip] takes the final line break off a text that starts with [<] and
    ends with [>] and a line break, and nothing else. *)
Lemma strip_element_text (body : string) :
  strip ("<" ++ body ++ ">" ++ nl) = "<" ++ body ++ ">".
Proof.
  unfold strip.
  change (lstrip ("<" ++ body ++ ">" ++ nl)) with ("<" ++ body ++ ">" ++ nl).
  replace ("<" ++ body ++ ">" ++ nl) with (("<" ++ body) ++ ">" ++ nl)
    by (now rewrite append_assoc).
  rewrite rev_str_append.
  change (rev_str (">" ++ nl)) with (nl ++ ">").
  change (lstrip ((nl ++ ">") ++ rev_str ("<" ++ body)))
    with (">" ++ rev_str ("<" ++ body)).
  rewrite rev_str_append, rev_str_involutive.
  now rewrite append_assoc.
Qed.

Lemma writexml_root (tagName : string) (childNodes : list Node)
    (addindent : string) :
  exists body,
    writexml (ElementNode tagName childNodes) "" addindent nl
    = "<" ++ tagName ++ body ++ ">" ++ nl.
Proof.
  assert (H : forall x,
             "" ++ "<" ++ tagName ++ ">" ++ nl ++ x ++ "" ++ "</" ++ tagName
             ++ ">" ++ nl
             = "<" ++ tagName ++ (">" ++ nl ++ x ++ "</" ++ tagName) ++ ">" ++ nl).
  { intros x. cbn [append]. now rewrite !append_assoc. }
  destruct childNodes as [|[data|t cs] [|n ns]]; cbn [writexml].
  - exists "/". reflexivity.
  - exists (">" ++ write_data data ++ "</" ++ tagName).
    cbn [append]. now rewrite !append_assoc.
  - eexists. apply H.
  - eexists. apply H.
  - eexists. apply H.
Qed.

Lemma fold_append_children {A : Type} (f : A -> Element) (l : list A)
    (tag : string) (text : option string) (cs : list Element) :
  fold_left (fun parent x => append_child parent (f x)) l (Elem tag text cs)
  = Elem tag text (cs ++ map f l)%list.
Proof.
  revert cs. induction l as [|x l IH]; intros cs; simpl.
  - now rewrite app_nil_r.
  - rewrite IH. now rewrite <- app_assoc.
Qed.

(** What [_to_xml_recurse] makes of a new element. *)
Lemma to_xml_recurse_new (tag : string) (data : pyobj) :
  _to_xml_recurse (new_element tag) data
  = match data with
    | PDict d =>
        Elem tag None
          (map (fun kv => _to_xml_recurse (new_element (fst kv)) (snd kv)) d)
    | PList l =>
        Elem tag None
          [Elem "array" None
             (map (fun x => _to_xml_recurse (new_element "item") x) l)]
    | _ => Elem tag (Some (py_str data)) []
    end.
Proof.
  destruct data as [z|s|l|n v|d]; try reflexivity.
  - rewrite to_xml_recurse_list. unfold new_element.
    now rewrite (fold_append_children
                   (fun x => _to_xml_recurse (Elem "item" None []) x)).
  - rewrite to_xml_recurse_dict. unfold new_element.
    now rewrite (fold_append_children
                   (fun kv => _to_xml_recurse (Elem (fst kv) None []) (snd kv))).
Qed.

Lemma parseString_tostring_tag (tag : string) (text : option string)
    (children : list Element) (n : Node) :
  parseString_tostring (Elem tag text children) = Ok n ->
  exists childNodes, n = ElementNode tag childNodes.
Proof.
  rewrite parseString_tostring_Elem.
  destruct (negb (xml_name_ok tag)); [discriminate|].
  destruct (negb (xml_text_ok (text_or_empty text))); [discriminate|].
  intros H. apply bind_Ok in H as (ns & _ & H). injection H as <-. eauto.
Qed.

Lemma generate_xml_from_dict_writexml (data : pyobj) (root_name : string)
    (reparsed : Node) :
  parseString_tostring (_to_xml_recurse (new_element root_name) data)
  = Ok reparsed ->
  generate_xml_from_dict data root_name
  = Ok (strip (writexml reparsed "" "  " nl)).
Proof.
  intros H. unfold generate_xml_from_dict. rewrite H. reflexivity.
Qed.

(** X11. What the emitter returns is what the pretty-printer writes for
    the root element, without the line of the XML declaration and without
    the final line break.  [strip] removes nothing else, and the branch for
    an output without a declaration is never taken: the output starts with
    the opening of the root tag and ends with the character [>]. *)
Theorem emitter_output_shape (data : pyobj) (root_name xml : string) :
  generate_xml_from_dict data root_name = Ok xml ->
  exists (childNodes : list Node) (body : string),
    parseString_tostring (_to_xml_recurse (new_element root_name) data)
    = Ok (ElementNode root_name childNodes)
    /\ toprettyxml (ElementNode root_name childNodes) "  "
       = "<?xml version=" ++ dq ++ "1.0" ++ dq ++ " ?>" ++ nl ++ xml ++ nl
    /\ xml = "<" ++ root_name ++ body ++ ">".
Proof.
  intros H.
  destruct (parseString_tostring
              (_to_xml_recurse (new_element root_name) data))
    as [reparsed|e] eqn:Ep;
    [|unfold generate_xml_from_dict in H; rewrite Ep in H; discriminate H].
  rewrite (generate_xml_from_dict_writexml _ _ _ Ep) in H. injection H as <-.
  assert (Ht : exists childNodes, reparsed = ElementNode root_name childNodes).
  { rewrite to_xml_recurse_new in Ep.
    destruct data; now apply parseString_tostring_tag in Ep. }
  destruct Ht as [childNodes ->].
  destruct (writexml_root root_name childNodes "  ") as [body Hb].
  exists childNodes, body.
  unfold toprettyxml. rewrite Hb.
  replace ("<" ++ root_name ++ body ++ ">" ++ nl)
    with ("<" ++ (root_name ++ body) ++ ">" ++ nl)
    by (now rewrite !append_assoc).
  rewrite strip_element_text. split; [reflexivity|]. split.
  - cbn [append]. now rewrite !append_assoc.
  - now rewrite !append_assoc.
Qed.

Lemma emitter_output_shape_witness :
  exists (childNodes : list Node) (body : string),
    parseString_tostring
      (_to_xml_recurse (new_element "config") roundtrip_document)
    = Ok (ElementNode "config" childNodes)
    /\ toprettyxml (ElementNode "config" childNodes) "  "
       = "<?xml version=" ++ dq ++ "1.0" ++ dq ++ " ?>" ++ nl
         ++ roundtrip_xml ++ nl
    /\ roundtrip_xml = "<" ++ "config" ++ body ++ ">".
Proof.
  apply (emitter_output_shape roundtrip_document "config" roundtrip_xml).
  vm_compute; reflexivity.
Defined.

(** ** Text and child elements *)

Lemma unmixed_Elem (tag : string) (text : option string) (cs : list Element) :
  unmixed (Elem tag text cs)
  <-> (text = None \/ cs = []) /\ Forall unmixed cs.
Proof.
  simpl. apply and_iff_compat_l.
  induction cs as [|c cs IH]; [intuition constructor|].
  rewrite IH. split.
  - intros [H1 H2]. now constructor.
  - intros H. inversion H; subst. now split.
Qed.

Lemma text_alone_ElementNode (tagName : string) (childNodes : list Node) :
  text_alone (ElementNode tagName childNodes)
  <-> (forall data, In (TextNode data) childNodes -> childNodes = [TextNode data])
      /\ Forall text_alone childNodes.
Proof.
  simpl. apply and_iff_compat_l.
  induction childNodes as [|c cs IH]; [intuition constructor|].
  rewrite IH. split.
  - intros [H1 H2]. now constructor.
  - intros H. inversion H; subst. now split.
Qed.

Lemma to_xml_recurse_unmixed (data : pyobj) :
  forall tag, unmixed (_to_xml_recurse (new_element tag) data).
Proof.
  induction data as [z|s|l IH|n v IH|d IH] using pyobj_ind2; intros tag;
    rewrite to_xml_recurse_new; apply unmixed_Elem.
  - split; [now right | constructor].
  - split; [now right | constructor].
  - split; [now left|]. constructor; [|constructor].
    apply unmixed_Elem. split; [now left|].
    apply Forall_map. rewrite Forall_forall in *. intros x Hx. now apply IH.
  - split; [now right | constructor].
  - split; [now left|].
    apply Forall_map. rewrite Forall_forall in *. intros kv Hkv.
    now apply (IH kv Hkv).
Qed.

Lemma parse_children_Forall2 (cs : list Element) :
  forall ns, parse_children cs = Ok ns ->
  Forall2 (fun c n => parseString_tostring c = Ok n) cs ns.
Proof.
  induction cs as [|c cs IH]; intros ns H.
  - injection H as <-. constructor.
  - cbn [parse_children] in H.
    apply bind_Ok in H as (n & Hn & H). apply bind_Ok in H as (ns' & Hns & H).
    injection H as <-. constructor; [exact Hn | now apply IH].
Qed.

Lemma parse_unmixed (e : Element) :
  unmixed e -> forall n, parseString_tostring e = Ok n -> text_alone n.
Proof.
  induction e as [tag text children IH] using Element_ind2. intros Hu n.
  apply unmixed_Elem in Hu as [Hmix Hcs].
  rewrite parseString_tostring_Elem.
  destruct (negb (xml_name_ok tag)); [discriminate|].
  destruct (negb (xml_text_ok (text_or_empty text))); [discriminate|].
  intros H. apply bind_Ok in H as (ns & Hns & H). injection H as <-.
  apply parse_children_Forall2 in Hns.
  assert (Hall : Forall text_alone ns
                 /\ forall data, ~ In (TextNode data) ns).
  { clear Hmix. induction Hns as [|c n cs ns Hc _ IHns].
    - split; [constructor | intros data []].
    - inversion IH as [|? ? IHc IHrest]; subst.
      inversion Hcs as [|? ? Hc1 Hc2]; subst.
      destruct (IHns IHrest Hc2) as [Ha Hb]. split.
      + constructor; [now apply IHc | exact Ha].
      + intros data [E|Hin]; [|now apply (Hb data)].
        destruct c as [t tx ch].
        apply parseString_tostring_tag in Hc as [x Hx]. congruence. }
  destruct Hall as [Ha Hb]. apply text_alone_ElementNode.
  destruct (text_or_empty text) as [|c0 r0] eqn:Et.
  - split; [|exact Ha]. intros data Hin. now apply Hb in Hin.
  - assert (children = []).
    { destruct Hmix as [->| ->]; [discriminate Et | reflexivity]. }
    subst children. inversion Hns; subst. split.
    + intros data [E|[]]. now injection E as ->.
    + constructor; [exact I | constructor].
Qed.

(** X12. The emitter never gives an element both a text and child
    elements: an element is filled by one call of [_to_xml_recurse], which
    sets its text or appends children, never both.  So in the re-parsed
    document a text node is always the only child of its element, and the
    pretty-printer writes every text between its tags on one line, without
    adding indentation or line breaks to it. *)
Theorem text_is_never_mixed (tag : string) (data : pyobj) :
  unmixed (_to_xml_recurse (new_element tag) data)
  /\ (forall n, parseString_tostring (_to_xml_recurse (new_element tag) data)
                = Ok n -> text_alone n).
Proof.
  split; [apply to_xml_recurse_unmixed|].
  apply parse_unmixed, to_xml_recurse_unmixed.
Qed.

(** ** Documents of scalar values *)

(** Appends of texts, brought to one shape. *)
Ltac str_norm :=
  repeat (progress (cbn [append]; rewrite ?append_assoc)).

Lemma parse_scalar_entry (kv : string * pyobj) :
  xml_name_ok (fst kv) = true -> scalar_value (snd kv) -> texts_ok (snd kv) ->
  parseString_tostring (_to_xml_recurse (new_element (fst kv)) (snd kv))
  = Ok (flat_node kv).
Proof.
  destruct kv as [k v]. cbn [fst snd]. intros Hk Hs Ht.
  assert (Hx : xml_text_ok (py_str v) = true).
  { destruct v; try contradiction; [apply py_str_int_xml | exact Ht]. }
  assert (E : _to_xml_recurse (new_element k) v = Elem k (Some (py_str v)) []).
  { rewrite to_xml_recurse_new. destruct v; try contradiction; reflexivity. }
  rewrite E, parseString_tostring_Elem, Hk. cbn [negb text_or_empty].
  rewrite Hx. reflexivity.
Qed.

Lemma parse_scalar_entries (d : dict pyobj) :
  Forall (fun kv => xml_name_ok (fst kv) = true /\ scalar_value (snd kv)
                    /\ texts_ok (snd kv)) d ->
  parse_children
    (map (fun kv => _to_xml_recurse (new_element (fst kv)) (snd kv)) d)
  = Ok (map flat_node d).
Proof.
  induction 1 as [|kv d (Hk & Hs & Ht) _ IH]; [reflexivity|].
  cbn [map parse_children]. rewrite (parse_scalar_entry kv Hk Hs Ht).
  cbn [bind]. now rewrite IH.
Qed.

Lemma writexml_flat_node (kv : string * pyobj) :
  writexml (flat_node kv) "  " "  " nl = flat_line kv.
Proof.
  unfold flat_node, flat_line. destruct (py_str (snd kv)); reflexivity.
Qed.

Lemma writexml_flat_nodes (d : dict pyobj) :
  concat_str (map (fun node => writexml node "  " "  " nl) (map flat_node d))
  = concat_str (map flat_line d).
Proof.
  induction d as [|kv d IH]; [reflexivity|].
  cbn [map concat_str]. now rewrite writexml_flat_node, IH.
Qed.

(** X13. A document whose values are all numbers and texts is written as
    the root element with one line per entry, in the order of the entries:
    two spaces of indentation, the element named by the key with the
    escaped text between its tags ([<key/>] for the empty text), and a
    line break.  The keys and the root name are ASCII names without a
    colon, the numbers have at most [int_max_str_digits] digits, and the
    texts are made of characters XML allows, surrogates excluded. *)
Theorem flat_document_xml (d : dict pyobj) (root_name : string) :
  d <> [] ->
  xml_name_ok root_name = true ->
  Forall (fun kv => xml_name_ok (fst kv) = true /\ scalar_value (snd kv)
                    /\ texts_ok (snd kv)) d ->
  representable (PDict d) ->
  generate_xml_from_dict (PDict d) root_name
  = Ok ("<" ++ root_name ++ ">" ++ nl
        ++ concat_str (map flat_line d)
        ++ "</" ++ root_name ++ ">").
Proof.
  intros Hne Hroot Hd _.
  assert (Ep : parseString_tostring
                 (_to_xml_recurse (new_element root_name) (PDict d))
               = Ok (ElementNode root_name (map flat_node d))).
  { rewrite to_xml_recurse_new, parseString_tostring_Elem, Hroot.
    cbn [negb text_or_empty]. change (xml_text_ok "") with true. cbn [negb].
    now rewrite (parse_scalar_entries d Hd). }
  rewrite (generate_xml_from_dict_writexml _ _ _ Ep). f_equal.
  destruct d as [|kv d]; [congruence|].
  cbn [map writexml]. unfold flat_node at 1.
  change ("" ++ "  ") with "  ".
  change (writexml (ElementNode (fst kv) ?c) "  " "  " nl)
    with (writexml (flat_node kv) "  " "  " nl).
  cbn [concat_str]. rewrite writexml_flat_node, writexml_flat_nodes.
  generalize (flat_line kv ++ concat_str (map flat_line d)). intros lines.
  replace ("" ++ "<" ++ root_name ++ ">" ++ nl ++ lines ++ ""
           ++ "</" ++ root_name ++ ">" ++ nl)
    with ("<" ++ (root_name ++ ">" ++ nl ++ lines ++ "</" ++ root_name)
          ++ ">" ++ nl)
    by (now str_norm).
  rewrite strip_element_text. now str_norm.
Qed.

Lemma flat_document_xml_witness :
  generate_xml_from_dict (PDict flat_document) "config"
  = Ok ("<" ++ "config" ++ ">" ++ nl
        ++ concat_str (map flat_line flat_document)
        ++ "</" ++ "config" ++ ">").
Proof.
  apply flat_document_xml.
  - discriminate.
  - reflexivity.
  - repeat constructor.
  - unfold flat_document. cbn [representable snd]. repeat split.
Defined.

Example flat_document_example :
  generate_xml_from_dict (PDict flat_document) "config" = Ok flat_document_text.
Proof. vm_compute; reflexivity. Qed.

(** ** Escaping *)

Lemma replace_char_append (c : ascii) (by_ a b : string) :
  replace_char c by_ (a ++ b) = replace_char c by_ a ++ replace_char c by_ b.
Proof.
  induction a as [|x a IH]; [reflexivity|].
  cbn [append replace_char]. now rewrite IH, append_assoc.
Qed.

Lemma write_data_cons (c : ascii) (r : string) :
  write_data (String c r) = escape_char c ++ write_data r.
Proof.
  unfold write_data. cbn [replace_char]. rewrite !replace_char_append.
  f_equal.
  destruct c as [[|] [|] [|] [|] [|] [|] [|] [|]]; reflexivity.
Qed.





(** ** When the emitter succeeds *)

Lemma parseString_tostring_elem_ok (e : Element) :
  forall n, parseString_tostring e = Ok n -> elem_ok e.
Proof.
  induction e as [tag text children IH] using Element_ind2. intros n.
  rewrite parseString_tostring_Elem.
  destruct (xml_name_ok tag) eqn:Hn; [|discriminate]. cbn [negb].
  destruct (xml_text_ok (text_or_empty text)) eqn:Ht; [|discriminate].
  cbn [negb]. intros H. apply bind_Ok in H as (ns & Hns & _).
  apply elem_ok_Elem. split; [exact Hn|]. split; [exact Ht|].
  apply parse_children_Forall2 in Hns.
  induction Hns as [|c n' cs ns' Hc _ IHns]; [constructor|].
  inversion IH as [|? ? IHc IHrest]; subst.
  constructor; [now apply (IHc n') | now apply IHns].
Qed.

Lemma parseString_tostring_error (e : Element) :
  forall err, parseString_tostring e = Raise err -> err = ExpatError.
Proof.
  induction e as [tag text children IH] using Element_ind2. intros err.
  rewrite parseString_tostring_Elem.
  destruct (negb (xml_name_ok tag)); [now intros [= <-]|].
  destruct (negb (xml_text_ok (text_or_empty text))); [now intros [= <-]|].
  assert (Hch : forall err', parse_children children = Raise err' ->
                             err' = ExpatError).
  { induction children as [|c cs IHcs]; intros err'; [discriminate|].
    inversion IH as [|? ? IHc IHrest]; subst.
    cbn [parse_children].
    destruct (parseString_tostring c) as [n|e0] eqn:Ec; cbn [bind].
    - destruct (parse_children cs) as [ns|e1] eqn:Ecs; cbn [bind];
        [discriminate|].
      intros [= <-]. now apply IHcs.
    - intros [= <-]. now apply IHc. }
  destruct (parse_children children) as [ns|e0]; cbn [bind]; [discriminate|].
  intros [= <-]. now apply Hch.
Qed.

(** The texts of a value are in the tree made of it. *)
Lemma elem_ok_texts (v : pyobj) :
  spec_value v -> forall tag,
  elem_ok (_to_xml_recurse (new_element tag) v) -> texts_ok v.
Proof.
  induction v as [z|s|l IH|n v IH|d IH] using pyobj_ind2;
    intros Hs tag; try (now destruct Hs); rewrite to_xml_recurse_new.
  - intros H. now apply elem_ok_Elem in H as (_ & H & _).
  - intros H. apply elem_ok_Elem in H as (_ & _ & H).
    inversion H as [|? ? Harr _]; subst.
    apply elem_ok_Elem in Harr as (_ & _ & Hitems).
    apply spec_value_list in Hs. apply texts_ok_list.
    rewrite Forall_map in Hitems. rewrite Forall_forall in *.
    intros x Hx. apply (IH x Hx (Hs x Hx) "item"). now apply Hitems.
Qed.

Lemma generate_xml_error (data : pyobj) (root_name : string) (e : error) :
  generate_xml_from_dict data root_name = Raise e -> e = ExpatError.
Proof.
  unfold generate_xml_from_dict.
  destruct (parseString_tostring
              (_to_xml_recurse (new_element root_name) data))
    as [n|e0] eqn:En; cbn [bind].
  - destruct (startswith "<?xml" (toprettyxml n "  ")); discriminate.
  - intros [= <-]. now apply (parseString_tostring_error _ _ En).
Qed.

Lemma generate_xml_of_texts_ok (d : dict pyobj) (root_name : string) :
  xml_name_ok root_name = true ->
  Forall (fun kv => xml_name_ok (fst kv) = true /\ spec_value (snd kv)) d ->
  texts_ok (PDict d) ->
  exists xml, generate_xml_from_dict (PDict d) root_name = Ok xml.
Proof.
  intros Hroot Hd Ht. apply texts_ok_dict in Ht.
  assert (Hdoc : document_ok d).
  { unfold document_ok. rewrite Forall_forall in *. intros kv Hin.
    destruct (Hd kv Hin). auto. }
  destruct (parseString_tostring_ok
              (_to_xml_recurse (new_element root_name) (PDict d)))
    as [n En].
  { apply to_xml_recurse_document_ok; [exact Hdoc|].
    now apply elem_ok_new_element. }
  rewrite (generate_xml_from_dict_writexml _ _ _ En). eauto.
Qed.

Lemma generate_xml_texts_ok (d : dict pyobj) (root_name xml : string) :
  Forall (fun kv => xml_name_ok (fst kv) = true /\ spec_value (snd kv)) d ->
  generate_xml_from_dict (PDict d) root_name = Ok xml ->
  texts_ok (PDict d).
Proof.
  intros Hd H. unfold generate_xml_from_dict in H.
  apply bind_Ok in H as (n & En & _).
  apply parseString_tostring_elem_ok in En.
  rewrite to_xml_recurse_new in En.
  apply elem_ok_Elem in En as (_ & _ & Hcs).
  apply texts_ok_dict. rewrite Forall_map in Hcs.
  rewrite Forall_forall in *. intros kv Hin.
  apply (elem_ok_texts _ (proj2 (Hd kv Hin)) (fst kv)). now apply Hcs.
Qed.

(** X15. For a document whose keys are ASCII names without a colon,
    whose values are numbers, texts and lists, whose numbers have at most
    [int_max_str_digits] digits and whose texts have no surrogate, the
    emitter succeeds exactly when every text is made of characters XML
    allows, and otherwise it raises the error of the XML parser: on these
    documents the re-parse of the serialised tree is its only way to
    fail. *)
Theorem emitter_succeeds_iff_texts_ok (d : dict pyobj) (root_name : string) :
  xml_name_ok root_name = true ->
  Forall (fun kv => xml_name_ok (fst kv) = true /\ spec_value (snd kv)) d ->
  representable (PDict d) ->
  ((exists xml, generate_xml_from_dict (PDict d) root_name = Ok xml)
   <-> texts_ok (PDict d))
  /\ (generate_xml_from_dict (PDict d) root_name = Raise ExpatError
      <-> ~ texts_ok (PDict d)).
Proof.
  intros Hroot Hd _.
  pose proof (generate_xml_of_texts_ok d root_name Hroot Hd) as Hok.
  pose proof (fun xml => generate_xml_texts_ok d root_name xml Hd) as Hback.
  split; [split; [intros [xml H]; now apply (Hback xml) | exact Hok]|].
  split.
  - intros H Ht. destruct (Hok Ht) as [xml Hx]. congruence.
  - intros Hn.
    destruct (generate_xml_from_dict (PDict d) root_name) as [xml|err] eqn:E.
    + exfalso. now apply Hn, (Hback xml).
    + f_equal. now apply (generate_xml_error _ _ _ E).
Qed.

Lemma emitter_succeeds_iff_texts_ok_witness :
  ((exists xml, generate_xml_from_dict control_char_document "config" = Ok xml)
   <-> texts_ok control_char_document)
  /\ (generate_xml_from_dict control_char_document "config" = Raise ExpatError
      <-> ~ texts_ok control_char_document).
Proof.
  apply emitter_succeeds_iff_texts_ok.
  - reflexivity.
  - repeat constructor.
  - unfold control_char_document. cbn [representable snd]. repeat split.
Defined.

(** ** The lexer: longest match *)

Lemma match_literal_stable (t : terminal) (lit : string) :
  match t with
  | NAME | NUMBER | WS | COMMENT_SINGLE => False
  | _ => True
  end ->
  matcher_stable t (match_literal lit).
Proof.
  intros Ht s lexeme rest. unfold match_literal.
  destruct (startswith lit s); [|discriminate]. intros [= <- <-].
  split; [destruct t; try exact I; contradiction|].
  intros r _. now rewrite startswith_append, drop_append.
Qed.

Lemma match_NAME_stable : matcher_stable NAME match_NAME.
Proof.
  intros s lexeme rest. unfold match_NAME.
  destruct s as [|c x]; [discriminate|].
  destruct (is_name_start c) eqn:Hc; [|discriminate].
  pose proof (span_forallb is_name_char x) as Hf.
  pose proof (span_stops is_name_char x) as Hs.
  destruct (span is_name_char x) as [a b]; simpl in Hf, Hs.
  intros [= <- <-]. split; [exact Hs|].
  intros r Hr. cbn [append]. rewrite Hc.
  now rewrite (span_app is_name_char a r Hf Hr).
Qed.

Lemma match_NUMBER_stable : matcher_stable NUMBER match_NUMBER.
Proof.
  intros s lexeme rest H. split.
  - unfold match_NUMBER in H. destruct s as [|c x]; [discriminate|].
    destruct (is_sign c).
    + destruct (match_digits x) as [[ds rest']|] eqn:E; [|discriminate].
      injection H as <- <-. now apply match_digits_shape in E.
    + now apply match_digits_shape in H.
  - intros r Hr. apply match_NUMBER_lexeme; [|exact Hr].
    exact (match_NUMBER_shape _ _ _ H).
Qed.

Lemma match_STRING_DOUBLE_stable :
  matcher_stable STRING_DOUBLE match_STRING_DOUBLE.
Proof.
  intros s lexeme rest H. split; [exact I|]. intros r _.
  destruct (match_STRING_DOUBLE_shape _ _ _ H) as (body & E & Hb).
  simpl in E. subst lexeme. cbn [append].
  unfold match_STRING_DOUBLE. rewrite Ascii.eqb_refl.
  rewrite append_assoc, (span_app not_dquote body (dq ++ r) Hb); reflexivity.
Qed.

Lemma match_COMMENT_SINGLE_stable :
  matcher_stable COMMENT_SINGLE match_COMMENT_SINGLE.
Proof.
  intros s lexeme rest. unfold match_COMMENT_SINGLE.
  destruct (startswith "--" s); [|discriminate].
  pose proof (span_forallb not_newline (drop 2 s)) as Hf.
  pose proof (span_stops not_newline (drop 2 s)) as Hs.
  destruct (span not_newline (drop 2 s)) as [a b]; simpl in Hf, Hs.
  intros [= <- <-]. split; [exact Hs|].
  intros r Hr.
  cbn [append].
  change (startswith "--" (String "-" (String "-" (a ++ r)))) with true.
  cbv iota.
  change (drop 2 (String "-" (String "-" (a ++ r)))) with (a ++ r).
  now rewrite (span_app not_newline a r Hf Hr).
Qed.

Lemma until_close_nonempty (s body rest : string) :
  until_close s = Some (body, rest) -> body <> "".
Proof.
  destruct s as [|c r]; [discriminate|]. cbn [until_close].
  destruct (startswith "#|" (String c r)).
  - intros [= <- _]. discriminate.
  - destruct (until_close r) as [[a b]|]; [|discriminate].
    intros [= <- _]. discriminate.
Qed.

Lemma until_close_stable (s body rest : string) :
  until_close s = Some (body, rest) ->
  forall r, until_close (body ++ r) = Some (body, r).
Proof.
  revert body rest; induction s as [|c x IH]; intros body rest;
    [discriminate|].
  cbn [until_close].
  destruct (startswith "#|" (String c x)) eqn:E.
  - intros [= <- <-] r. reflexivity.
  - destruct (until_close x) as [[a b]|] eqn:Ex; [|discriminate].
    intros [= <- <-] r.
    pose proof (until_close_sound _ _ _ Ex) as Hx.
    pose proof (until_close_nonempty _ _ _ Ex) as Hne.
    change (String c a ++ r) with (String c (a ++ r)). cbn [until_close].
    assert (E' : startswith "#|" (String c (a ++ r)) = false).
    { destruct a as [|d a']; [congruence|]. subst x. exact E. }
    rewrite E', (IH _ _ eq_refl r). reflexivity.
Qed.

Lemma match_COMMENT_MULTI_stable :
  matcher_stable COMMENT_MULTI match_COMMENT_MULTI.
Proof.
  intros s lexeme rest. unfold match_COMMENT_MULTI.
  destruct (startswith "|#" s); [|discriminate].
  destruct (until_close (drop 2 s)) as [[body rest']|] eqn:E; [|discriminate].
  intros [= <- <-]. split; [exact I|]. intros r _.
  cbn [append].
  change (startswith "|#" (String "|" (String "#" (body ++ r)))) with true.
  cbv iota.
  change (drop 2 (String "|" (String "#" (body ++ r)))) with (body ++ r).
  now rewrite (until_close_stable _ _ _ E r).
Qed.

Lemma match_WS_stable : matcher_stable WS match_WS.
Proof.
  intros s lexeme rest. unfold match_WS.
  pose proof (span_forallb is_ws s) as Hf.
  pose proof (span_stops is_ws s) as Hs.
  destruct (span is_ws s) as [a b]; simpl in Hf, Hs.
  destruct a as [|c a]; [discriminate|]. intros [= <- <-].
  split; [exact Hs|]. intros r Hr.
  now rewrite (span_app is_ws (String c a) r Hf Hr).
Qed.

Lemma terminals_stable :
  Forall (fun tm => matcher_stable (fst tm) (snd tm)) terminals.
Proof.
  unfold terminals.
  repeat (apply Forall_cons;
          [simpl; first [ apply match_NAME_stable | apply match_NUMBER_stable
                        | apply match_STRING_DOUBLE_stable
                        | apply match_COMMENT_SINGLE_stable
                        | apply match_COMMENT_MULTI_stable
                        | apply match_WS_stable
                        | apply match_literal_stable; exact I ] |]).
  apply Forall_nil.
Qed.

Lemma first_match_In (ts : list (terminal * matcher)) (s : string)
    (tok : Token) (rest : string) :
  first_match ts s = Some (tok, rest) ->
  exists m, In (type tok, m) ts /\ m s = Some (value tok, rest).
Proof.
  induction ts as [|[t m] ts IH]; simpl; [discriminate|].
  destruct (m s) as [[lexeme r]|] eqn:E.
  - intros [= <- <-]. exists m. simpl. auto.
  - intros H. destruct (IH H) as (m' & Hin & Hm). eauto.
Qed.

(** The token found at the start of a text is the longest match of its
    terminal, and it is found again in front of every text that can follow
    it. *)
Lemma next_token_stable (s : string) (tok : Token) (rest : string) :
  next_token s = Some (tok, rest) ->
  follows_ok (type tok) rest
  /\ forall r, follows_ok (type tok) r ->
       next_token (value tok ++ r) = Some (tok, r).
Proof.
  intros H. apply first_match_In in H as (m & Hin & Hm).
  pose proof terminals_stable as Hst. rewrite Forall_forall in Hst.
  destruct (Hst _ Hin _ _ _ Hm) as [Ha Hb]. split; [exact Ha|].
  intros r Hr. destruct tok as [t lexeme]. simpl in *.
  apply (terminal_match_next_token t m); [exact Hin | now apply Hb].
Qed.

Lemma follows_ok_nil (t : terminal) : follows_ok t "".
Proof. destruct t; exact I. Qed.

(** Whether a text can follow depends on its first character only. *)
Lemma follows_ok_append (t : terminal) (x y : string) :
  x <> "" -> (follows_ok t x <-> follows_ok t (x ++ y)).
Proof.
  destruct x as [|c x]; [congruence|]. intros _. destruct t; simpl; tauto.
Qed.

Lemma lex_all_cons_inv (s : string) (tok : Token) (toks : list Token) :
  lex_all s = Some (tok :: toks) ->
  exists rest, next_token s = Some (tok, rest) /\ lex_all rest = Some toks.
Proof.
  destruct s as [|c r]; [discriminate|].
  rewrite lex_all_step by discriminate.
  destruct (next_token (String c r)) as [[tok' rest]|]; [|discriminate].
  destruct (lex_all rest) as [toks'|] eqn:E; [|discriminate].
  intros [= <- <-]. eauto.
Qed.

Lemma lex_all_nonempty_lexemes (s : string) (toks : list Token) :
  lex_all s = Some toks -> Forall (fun tok => value tok <> "") toks.
Proof.
  revert s toks. apply lex_all_ind; [constructor|].
  intros s tok rest toks _ E _ IH. constructor; [|exact IH].
  now apply next_token_sound in E.
Qed.

Lemma text_of_nonempty (toks : list Token) :
  Forall (fun tok => value tok <> "") toks -> toks <> [] -> text_of toks <> "".
Proof.
  intros H Hne. destruct H as [|tok toks Htok _]; [congruence|].
  unfold text_of. simpl. destruct (value tok); [congruence | discriminate].
Qed.

(** The tokens after any token are the tokens of the rest of the text. *)
Lemma lex_all_suffix (pre : list Token) :
  forall s post, lex_all s = Some (pre ++ post)%list ->
  lex_all (text_of post) = Some post.
Proof.
  induction pre as [|tok pre IH]; intros s post H.
  - simpl in H. now rewrite (lex_all_text_of _ _ H).
  - apply lex_all_cons_inv in H as (rest & _ & H). now apply (IH rest).
Qed.

Lemma lex_all_longest (s : string) (toks : list Token) :
  lex_all s = Some toks ->
  forall pre tok post, toks = (pre ++ tok :: post)%list ->
  follows_ok (type tok) (text_of post).
Proof.
  revert s toks.
  apply (lex_all_ind
           (fun s toks => forall pre tok post,
              toks = (pre ++ tok :: post)%list ->
              follows_ok (type tok) (text_of post))).
  { intros [|? ?] ? ? H; discriminate H. }
  intros s tok rest toks _ E Hrest IH pre tok' post Heq.
  destruct pre as [|p pre]; simpl in Heq; injection Heq as <- ->.
  - rewrite (lex_all_text_of _ _ Hrest). now apply next_token_stable in E.
  - now apply (IH pre).
Qed.

(** The tokens before any token are the tokens of the text up to it. *)
Lemma lex_all_prefix (pre : list Token) :
  forall s post, lex_all s = Some (pre ++ post)%list ->
  lex_all (text_of pre) = Some pre.
Proof.
  induction pre as [|tok pre IH]; intros s post H; [reflexivity|].
  pose proof (lex_all_nonempty_lexemes _ _ H) as Hne.
  pose proof (lex_all_longest _ _ H [] tok (pre ++ post)%list eq_refl) as Hf.
  apply lex_all_cons_inv in H as (rest & Hn & Hrest).
  pose proof (next_token_sound _ _ _ Hn) as [_ Hv].
  destruct (next_token_stable _ _ _ Hn) as [_ Hst].
  change (text_of (tok :: pre)) with (value tok ++ text_of pre).
  assert (Hfp : follows_ok (type tok) (text_of pre)).
  { destruct pre as [|p pre']; [apply follows_ok_nil|].
    rewrite text_of_app in Hf.
    apply (follows_ok_append _ _ (text_of post)); [|exact Hf].
    apply text_of_nonempty; [|discriminate].
    inversion Hne as [|? ? _ Hne']; subst.
    change (Forall (fun tok => value tok <> "") ((p :: pre') ++ post)%list)
      in Hne'.
    apply Forall_app in Hne' as [Hp _]. exact Hp. }
  rewrite lex_all_step, (Hst _ Hfp), (IH rest post Hrest); [reflexivity|].
  destruct (value tok); [congruence | discriminate].
Qed.

Lemma lex_next (s : string) (tok : Token) (rest : string) :
  next_token s = Some (tok, rest) ->
  lex s = option_map (fun l => if ignored (type tok) then l else tok :: l)
                     (lex rest).
Proof.
  intros E. unfold lex. rewrite (lex_all_step s).
  - rewrite E. destruct (lex_all rest); [|reflexivity].
    simpl. unfold significant at 1. simpl.
    now destruct (ignored (type tok)).
  - apply next_token_sound in E as [-> Hne].
    destruct (value tok); [congruence | discriminate].
Qed.

(** The tokens of a text followed by another, when the last token of the
    first cannot be made longer by the second: the tokens of the one and
    then the tokens of the other.  White space at the end of the first may
    grow, which changes no token that the parser sees. *)
Lemma lex_app (a : string) (ta : list Token) :
  lex_all a = Some ta -> forall b,
  (forall pre tok, ta = (pre ++ [tok])%list ->
     type tok = WS \/ follows_ok (type tok) b) ->
  lex (a ++ b) = option_map (app (significant ta)) (lex b).
Proof.
  revert a ta.
  apply (lex_all_ind
           (fun a ta => forall b,
              (forall pre tok, ta = (pre ++ [tok])%list ->
                 type tok = WS \/ follows_ok (type tok) b) ->
              lex (a ++ b) = option_map (app (significant ta)) (lex b))).
  - intros b _. simpl. now destruct (lex b).
  - intros s tok rest toks _ Hn Hrest IH b Hb.
    destruct (next_token_sound _ _ _ Hn) as [Hs _].
    destruct (next_token_stable _ _ _ Hn) as [Hf Hst].
    pose proof (next_token_shape _ _ _ Hn) as Hshape.
    subst s. rewrite append_assoc.
    destruct rest as [|c rest'].
    + rewrite lex_all_nil in Hrest. injection Hrest as <-.
      change ("" ++ b) with b.
      destruct (Hb [] tok eq_refl) as [Hws|Hfb].
      * unfold lexeme_ok in Hshape. rewrite Hws in Hshape.
        unfold is_WS_lexeme in Hshape.
        apply andb_true_iff in Hshape as [_ Hw].
        rewrite (lex_skip_ws _ b Hw). unfold significant. simpl.
        rewrite Hws. simpl. now destruct (lex b).
      * rewrite (lex_next _ _ _ (Hst b Hfb)). unfold significant. simpl.
        now destruct (ignored (type tok)), (lex b).
    + assert (Hfb : follows_ok (type tok) (String c rest' ++ b)).
      { apply follows_ok_append; [discriminate | exact Hf]. }
      rewrite (lex_next _ _ _ (Hst _ Hfb)). rewrite IH.
      * unfold significant. simpl.
        now destruct (ignored (type tok)), (lex b).
      * intros pre t E. apply (Hb (tok :: pre) t). now rewrite E.
Qed.

(** What may follow every token but white space: a line break. *)
Lemma follows_ok_nl (t : terminal) (b : string) :
  t = WS \/ follows_ok t (nl ++ b).
Proof. destruct t; try (now left); right; try exact I; reflexivity. Qed.

Lemma lex_app_nl (a b : string) (ta : list Token) :
  lex_all a = Some ta ->
  lex (a ++ nl ++ b) = option_map (app (significant ta)) (lex b).
Proof.
  intros H. rewrite (lex_app a ta H (nl ++ b)).
  - now rewrite (lex_skip_ws nl b eq_refl).
  - intros pre tok _. apply follows_ok_nl.
Qed.



(** X17. The terminals of the grammar exclude each other: when the
    pattern of a terminal matches at the start of a text, no other terminal
    matches there, no other lexeme is matched, and this match is the next
    token.  So neither the priorities of the terminals nor the order in
    which they are tried has any influence on the tokens. *)
Theorem terminals_exclude_each_other
    (t1 t2 : terminal) (m1 m2 : matcher) (s : string) (r1 r2 : string * string) :
  In (t1, m1) terminals -> In (t2, m2) terminals ->
  m1 s = Some r1 -> m2 s = Some r2 ->
  t1 = t2 /\ r1 = r2 /\ next_token s = Some (mkToken t1 (fst r1), snd r1).
Proof.
  intros H1 H2 E1 E2.
  destruct (terminals_disjoint _ _ _ _ _ _ _ H1 H2 E1 E2) as [-> ->].
  split; [reflexivity|]. split; [reflexivity|].
  destruct r2 as [lexeme rest]. now apply (terminal_match_next_token t2 m2).
Qed.

Lemma terminals_exclude_each_other_witness :
  NUMBER = NUMBER /\ ("-12", " A") = ("-12", " A")
  /\ next_token "-12 A" = Some (mkToken NUMBER (fst ("-12", " A")), snd ("-12", " A")).
Proof.
  apply (terminals_exclude_each_other NUMBER NUMBER match_NUMBER match_NUMBER).
  - unfold terminals. simpl. tauto.
  - unfold terminals. simpl. tauto.
  - reflexivity.
  - reflexivity.
Defined.

(** ** Comments and line breaks *)

Lemma significant_app (a b : list Token) :
  significant (a ++ b) = (significant a ++ significant b)%list.
Proof. unfold significant. apply filter_app. Qed.

(** X18. Comments and white space act as a line break.  In every text
    that the lexer accepts, any comment and any stretch of white space can
    be replaced by a line break: the tokens that the parser sees stay the
    same, and so do the result of the run and the output. *)
Theorem ignored_text_is_a_line_break
    (text : string) (pre post : list Token) (c : Token) :
  lex_all text = Some (pre ++ c :: post)%list ->
  ignored (type c) = true ->
  lex (text_of pre ++ nl ++ text_of post) = lex text
  /\ run (text_of pre ++ nl ++ text_of post) = run text
  /\ main (text_of pre ++ nl ++ text_of post) = main text.
Proof.
  intros H Hc.
  assert (Hlex : lex (text_of pre ++ nl ++ text_of post) = lex text).
  { pose proof (lex_all_prefix pre text (c :: post) H) as Hpre.
    assert (Hpost : lex_all (text_of post) = Some post).
    { apply (lex_all_suffix (pre ++ [c]) text). now rewrite <- app_assoc. }
    rewrite (lex_app_nl _ _ _ Hpre). unfold lex. rewrite Hpost, H.
    cbn [option_map]. f_equal. rewrite significant_app. f_equal.
    unfold significant. cbn [filter]. now rewrite Hc. }
  split; [exact Hlex|].
  pose proof (run_lex _ _ Hlex) as Hrun. split; [exact Hrun|].
  unfold main. now rewrite Hrun.
Qed.

Lemma ignored_text_is_a_line_break_witness :
  lex (text_of [mkToken COMMENT_SINGLE "-- the answer"; mkToken WS nl]
       ++ nl ++ text_of [mkToken NUMBER "42"; mkToken COMMENT_SINGLE "-- done"])
  = lex commented_input
  /\ run (text_of [mkToken COMMENT_SINGLE "-- the answer"; mkToken WS nl]
          ++ nl
          ++ text_of [mkToken NUMBER "42"; mkToken COMMENT_SINGLE "-- done"])
     = run commented_input
  /\ main (text_of [mkToken COMMENT_SINGLE "-- the answer"; mkToken WS nl]
           ++ nl
           ++ text_of [mkToken NUMBER "42"; mkToken COMMENT_SINGLE "-- done"])
     = main commented_input.
Proof.
  apply (ignored_text_is_a_line_break commented_input
           [mkToken COMMENT_SINGLE "-- the answer"; mkToken WS nl]
           [mkToken NUMBER "42"; mkToken COMMENT_SINGLE "-- done"]
           (mkToken COMMENT_MULTI ("|# in" ++ nl ++ "two lines #|")));
    vm_compute; reflexivity.
Defined.

(** X19. Two files that are accepted can be put one after the other with
    a line break between them: the result is accepted, its tokens are the
    tokens of the first file followed by those of the second, and its items
    are the items of the first followed by the items of the second. *)
Theorem files_concatenate
    (a b : string) (ta tb : list Token) (x y : list Tree) :
  lex a = Some ta -> parse_items ta = Some x ->
  lex b = Some tb -> parse_items tb = Some y ->
  lex (a ++ nl ++ b) = Some (ta ++ tb)%list
  /\ parse (a ++ nl ++ b) = Ok (expand1_start (x ++ y)%list).
Proof.
  intros Ha Hx Hb Hy.
  assert (Hlex : lex (a ++ nl ++ b) = Some (ta ++ tb)%list).
  { unfold lex in Ha. destruct (lex_all a) as [all|] eqn:E; [|discriminate].
    injection Ha as <-. rewrite (lex_app_nl _ _ _ E), Hb. reflexivity. }
  split; [exact Hlex|]. unfold parse. rewrite Hlex.
  assert (Hp : parse_items (ta ++ tb)%list = Some (x ++ y)%list).
  { apply parse_items_complete.
    apply derives_start_app; now apply parse_items_sound. }
  now rewrite Hp.
Qed.

Lemma files_concatenate_witness :
  lex (single_definition_input ++ nl ++ "?[A]")
  = Some (single_definition_tokens
          ++ [mkToken QUESTION_MARK "?"; mkToken LBRACKET "[";
              mkToken NAME "A"; mkToken RBRACKET "]"])%list
  /\ parse (single_definition_input ++ nl ++ "?[A]")
     = Ok (expand1_start
             ([T_assign_const (mkToken NAME "A") (T_number (mkToken NUMBER "1"))]
              ++ [T_resolve_const (mkToken QUESTION_MARK "?")
                    (mkToken LBRACKET "[") (mkToken NAME "A")
                    (mkToken RBRACKET "]")])%list).
Proof.
  apply files_concatenate; reflexivity.
Defined.

(** ** Literals *)

Lemma lex_single (tok : Token) :
  next_token (value tok) = Some (tok, "") ->
  ignored (type tok) = false ->
  lex (value tok) = Some [tok].
Proof.
  intros Hn Hi. rewrite (lex_next _ _ _ Hn), Hi. reflexivity.
Qed.

Lemma drop_last_append (body : string) (c : ascii) :
  drop_last (body ++ String c "") = body.
Proof.
  induction body as [|a r IH]; [reflexivity|].
  change (String a r ++ String c "") with (String a (r ++ String c "")).
  cbn [drop_last]. rewrite IH. now destruct r.
Qed.

Lemma slice_1_m1_literal (body : string) :
  slice_1_m1 (dq ++ body ++ dq) = body.
Proof. unfold slice_1_m1. simpl. apply drop_last_append. Qed.

(** X20. A string literal is taken verbatim.  A double quote, any text
    without a double quote and a double quote are one token, whatever the
    text holds (line breaks, backslashes, the marks of comments), and the
    file that consists of this literal is transformed into exactly that
    text: there are no escapes and no comments inside a literal. *)
Theorem string_literal_is_verbatim (body : string) :
  forallb_str not_dquote body = true ->
  lex (dq ++ body ++ dq) = Some [mkToken STRING_DOUBLE (dq ++ body ++ dq)]
  /\ run (dq ++ body ++ dq) = Ok (PStr body).
Proof.
  intros Hb.
  assert (Hlex : lex (dq ++ body ++ dq)
                 = Some [mkToken STRING_DOUBLE (dq ++ body ++ dq)]).
  { apply (lex_single (mkToken STRING_DOUBLE (dq ++ body ++ dq)));
      [|reflexivity].
    cbn [value]. rewrite <- (append_nil_r (dq ++ body ++ dq)) at 1.
    apply next_token_STRING. now exists body. }
  split; [exact Hlex|].
  unfold run, parse. rewrite Hlex.
  change (parse_items [mkToken STRING_DOUBLE (dq ++ body ++ dq)])
    with (Some [T_string (mkToken STRING_DOUBLE (dq ++ body ++ dq))]).
  cbn [expand1_start bind]. unfold transform. cbn [transform_tree].
  unfold string_. cbn [call_userfunc bind value].
  now rewrite slice_1_m1_literal.
Qed.

Lemma string_literal_is_verbatim_witness :
  lex marks_literal = Some [mkToken STRING_DOUBLE marks_literal]
  /\ run marks_literal = Ok (PStr marks_text).
Proof.
  apply (string_literal_is_verbatim marks_text). reflexivity.
Defined.

Lemma number_char_plain (c : ascii) :
  is_number_char c = true ->
  escape_char c = String c "" /\ Ascii.eqb c "013" = false
  /\ not_dquote c = true.
Proof.
  destruct c as [[|] [|] [|] [|] [|] [|] [|] [|]]; vm_compute; intros H;
    try discriminate H; repeat split; reflexivity.
Qed.

Lemma number_text_plain (s : string) :
  forallb_str is_number_char s = true ->
  write_data s = s /\ normalize_newlines s = s
  /\ forallb_str not_dquote s = true.
Proof.
  induction s as [|c r IH]; [repeat split; reflexivity|].
  cbn [forallb_str]. intros H. apply andb_true_iff in H as [Hc Hr].
  destruct (number_char_plain c Hc) as (He & Hcr & Hq).
  destruct (IH Hr) as (Hw & Hn & Hd). split; [|split].
  - now rewrite write_data_cons, He, Hw.
  - cbn [normalize_newlines]. now rewrite Hcr, Hn.
  - cbn [forallb_str]. now rewrite Hq, Hd.
Qed.

Lemma run_number_literal (lexeme : string) (z : Z) :
  is_NUMBER_lexeme lexeme = true -> py_int lexeme = Some z ->
  run lexeme = Ok (PInt z).
Proof.
  intros Hl Hz.
  assert (Hlex : lex lexeme = Some [mkToken NUMBER lexeme]).
  { apply (lex_single (mkToken NUMBER lexeme)); [|reflexivity].
    cbn [value]. rewrite <- (append_nil_r lexeme) at 1.
    now apply next_token_NUMBER. }
  unfold run, parse. rewrite Hlex.
  change (parse_items [mkToken NUMBER lexeme])
    with (Some [T_number (mkToken NUMBER lexeme)]).
  cbn [expand1_start bind]. unfold transform. cbn [transform_tree].
  unfold number. cbn [value]. now rewrite Hz.
Qed.

Lemma main_number_literal (lexeme : string) (z : Z) :
  is_NUMBER_lexeme lexeme = true -> py_int lexeme = Some z ->
  main lexeme = Exit0 ("<config>" ++ py_str_int z ++ "</config>" ++ nl).
Proof.
  intros Hl Hz.
  destruct (number_text_plain _ (py_str_int_chars z)) as (Hw & Hn & _).
  unfold main. rewrite (run_number_literal _ _ Hl Hz). cbn [bind].
  assert (Ep : parseString_tostring
                 (_to_xml_recurse (new_element "config") (PInt z))
               = Ok (ElementNode "config" [TextNode (py_str_int z)])).
  { rewrite to_xml_recurse_new, parseString_tostring_Elem.
    cbn [py_str py_repr text_or_empty]. rewrite py_str_int_xml.
    change (negb (xml_name_ok "config")) with false.
    cbn [negb parse_children bind].
    pose proof (py_str_int_NUMBER z) as Hne. revert Hn Hne.
    destruct (py_str_int z) as [|c r]; intros Hn Hne; [discriminate Hne|].
    now rewrite Hn. }
  rewrite (generate_xml_from_dict_writexml _ _ _ Ep).
  cbn [writexml]. rewrite Hw.
  replace ("" ++ "<" ++ "config" ++ ">" ++ py_str_int z ++ "</" ++ "config"
           ++ ">" ++ nl)
    with ("<" ++ ("config>" ++ py_str_int z ++ "</config") ++ ">" ++ nl)
    by (now str_norm).
  rewrite strip_element_text. f_equal. now str_norm.
Qed.

(** X21. The output does not tell a number from the text of its numeral.
    The file that consists of the decimal numeral of an integer and the
    file that consists of the same numeral between double quotes are
    transformed into an integer and into a text, and both print the root
    element with the numeral as its text. *)
Theorem number_and_its_text_print_alike (z : Z) :
  run (py_str_int z) = Ok (PInt z)
  /\ run (dq ++ py_str_int z ++ dq) = Ok (PStr (py_str_int z))
  /\ main (dq ++ py_str_int z ++ dq) = main (py_str_int z)
  /\ main (py_str_int z)
     = Exit0 ("<config>" ++ py_str_int z ++ "</config>" ++ nl).
Proof.
  destruct (number_text_plain _ (py_str_int_chars z)) as (_ & _ & Hd).
  assert (Hnum : run (py_str_int z) = Ok (PInt z)).
  { apply run_number_literal; [apply py_str_int_NUMBER | apply py_int_str_int]. }
  assert (Hstr : run (dq ++ py_str_int z ++ dq) = Ok (PStr (py_str_int z))).
  { unfold run, parse.
    assert (Hlex : lex (dq ++ py_str_int z ++ dq)
                   = Some [mkToken STRING_DOUBLE (dq ++ py_str_int z ++ dq)]).
    { apply (lex_single (mkToken STRING_DOUBLE (dq ++ py_str_int z ++ dq)));
        [|reflexivity].
      cbn [value]. rewrite <- (append_nil_r (dq ++ py_str_int z ++ dq)) at 1.
      apply next_token_STRING. now exists (py_str_int z). }
    rewrite Hlex.
    change (parse_items [mkToken STRING_DOUBLE (dq ++ py_str_int z ++ dq)])
      with (Some [T_string (mkToken STRING_DOUBLE (dq ++ py_str_int z ++ dq))]).
    cbn [expand1_start bind]. unfold transform. cbn [transform_tree].
    unfold string_. cbn [call_userfunc bind value].
    now rewrite slice_1_m1_literal. }
  split; [exact Hnum|]. split; [exact Hstr|]. split.
  - unfold main. rewrite Hnum, Hstr. reflexivity.
  - apply main_number_literal; [apply py_str_int_NUMBER | apply py_int_str_int].
Qed.

(** X22. The spelling of a number is immaterial.  For a numeral of ASCII
    digits that is shorter than the limit of [int], so that it is still
    within the limit with one more zero in front, a plus sign and a zero
    in front of the digits do not change the integer, a minus sign negates
    it, and the output shows the integer in its shortest decimal form,
    whatever the literal looked like. *)
Theorem number_spelling_is_immaterial (digits : string) (z : Z) :
  forallb_str is_digit digits = true ->
  (String.length digits < int_max_str_digits)%nat ->
  py_int digits = Some z ->
  py_int ("+" ++ digits) = Some z
  /\ py_int ("0" ++ digits) = Some z
  /\ py_int ("-" ++ digits) = Some (- z)%Z
  /\ main digits = Exit0 ("<config>" ++ py_str_int z ++ "</config>" ++ nl)
  /\ main ("+" ++ digits) = main digits
  /\ main ("0" ++ digits) = main digits.
Proof.
  intros Hd _ Hz.
  destruct digits as [|c r]; [discriminate Hz|].
  pose proof Hd as Hc. cbn [forallb_str] in Hc.
  apply andb_true_iff in Hc as [Hc _].
  destruct (is_digit_not_sign c Hc) as [Hp Hm].
  assert (Hi : digits_int (String c r) = Some z).
  { unfold py_int in Hz. now rewrite Hp, Hm in Hz. }
  assert (E1 : py_int ("+" ++ String c r) = Some z) by exact Hi.
  assert (E2 : py_int ("0" ++ String c r) = Some z) by exact Hi.
  assert (E3 : py_int ("-" ++ String c r) = Some (- z)%Z).
  { change (py_int ("-" ++ String c r))
      with (option_map Z.opp (digits_int (String c r))).
    now rewrite Hi. }
  assert (L0 : is_NUMBER_lexeme (String c r) = true)
    by (now apply digits_NUMBER_lexeme).
  assert (L1 : is_NUMBER_lexeme ("+" ++ String c r) = true).
  { cbn [append is_NUMBER_lexeme]. change (is_sign "+") with true.
    cbv iota. now rewrite Hd. }
  assert (L2 : is_NUMBER_lexeme ("0" ++ String c r) = true).
  { apply digits_NUMBER_lexeme; [reflexivity|].
    cbn [append forallb_str]. change (is_digit "0") with true. exact Hd. }
  split; [exact E1|]. split; [exact E2|]. split; [exact E3|].
  rewrite (main_number_literal _ _ L0 Hz), (main_number_literal _ _ L1 E1),
    (main_number_literal _ _ L2 E2). auto.
Qed.

Lemma number_spelling_is_immaterial_witness :
  py_int ("+" ++ "42") = Some 42%Z
  /\ py_int ("0" ++ "42") = Some 42%Z
  /\ py_int ("-" ++ "42") = Some (- 42)%Z
  /\ main "42" = Exit0 ("<config>" ++ py_str_int 42 ++ "</config>" ++ nl)
  /\ main ("+" ++ "42") = main "42"
  /\ main ("0" ++ "42") = main "42".
Proof.
  apply number_spelling_is_immaterial;
    [reflexivity | unfold int_max_str_digits; simpl; lia | reflexivity].
Defined.

(** ** The outcomes of [main] *)

Lemma parse_error (text : string) (e : error) :
  parse text = Raise e -> e = UnexpectedInput.
Proof.
  unfold parse. destruct (lex text) as [toks|]; [|now intros [= <-]].
  destruct (parse_items toks); [discriminate | now intros [= <-]].
Qed.

(** X23. What a run of [main] can do, and when, on a text of ASCII
    characters all of whose numerals are within the limit of [int].  It
    reports a syntax error exactly when the text is not accepted by the
    parser; it reports a runtime error exactly when the text is accepted
    and has a reference to a name without an earlier definition, and the
    message is then always the same one; it reports an unexpected error
    exactly when the text is transformed and the XML parser rejects the
    serialised tree; and otherwise it prints the XML of the result,
    followed by a line break, and nothing else. *)
Theorem main_outcomes (text : string) :
  forallb_str is_ascii text = true ->
  numerals_ok text ->
  (main text = Exit1 SyntaxErrorMessage <-> parse text = Raise UnexpectedInput)
  /\ (forall m, main text = Exit1 (RuntimeErrorMessage m)
        <-> m = undefined_constant_message
            /\ exists t name, parse text = Ok t /\ scan t [] = inl name)
  /\ (main text = Exit1 UnexpectedErrorMessage
      <-> exists v, run text = Ok v
            /\ generate_xml_from_dict v "config" = Raise ExpatError)
  /\ (forall out, main text = Exit0 out
        <-> exists v xml, run text = Ok v
              /\ generate_xml_from_dict v "config" = Ok xml
              /\ out = xml ++ nl).
Proof.
  intros _ _.
  destruct (parse text) as [t|e] eqn:Ep.
  - pose proof (transform_scan t (parse_numbers_ok _ _ Ep) tstate0 []
                  same_names_0) as H.
    destruct (scan t []) as [name|names] eqn:Es.
    + assert (Hr : run text
                   = Raise (VisitError "resolve_const"
                              (VisitError_call1
                                 ("Undefined constant '" ++ name
                                  ++ "' used in expression ?[" ++ name ++ "]")))).
      { unfold run. rewrite Ep. cbn [bind]. unfold transform. now rewrite H. }
      assert (Hm : main text = Exit1 (RuntimeErrorMessage undefined_constant_message)).
      { unfold main. rewrite Hr. reflexivity. }
      rewrite Hm, Hr. split; [split; discriminate|]. split; [|split].
      * intros m. split.
        -- intros [= <-]. split; [reflexivity|]. now exists t, name.
        -- now intros [-> _].
      * split; [discriminate|]. intros (v & Hv & _). discriminate Hv.
      * intros out. split; [discriminate|]. intros (v & xml & Hv & _).
        discriminate Hv.
    + destruct H as (v & st' & Ht & _).
      assert (Hr : run text = Ok v).
      { unfold run. rewrite Ep. cbn [bind]. unfold transform. now rewrite Ht. }
      destruct (generate_xml_from_dict v "config") as [xml|e] eqn:Eg.
      * assert (Hm : main text = Exit0 (xml ++ nl)).
        { unfold main. rewrite Hr. cbn [bind]. now rewrite Eg. }
        rewrite Hm, Hr. split; [split; discriminate|]. split; [|split].
        -- intros m. split; [discriminate|].
           intros (_ & t' & name & Ht' & Hs). congruence.
        -- split; [discriminate|]. intros (v' & [= <-] & Hg). congruence.
        -- intros out. split.
           ++ intros [= <-]. now exists v, xml.
           ++ intros (v' & xml' & [= <-] & Hg & ->). congruence.
      * pose proof (generate_xml_error _ _ _ Eg) as ->.
        assert (Hm : main text = Exit1 UnexpectedErrorMessage).
        { unfold main. rewrite Hr. cbn [bind]. now rewrite Eg. }
        rewrite Hm, Hr. split; [split; discriminate|]. split; [|split].
        -- intros m. split; [discriminate|].
           intros (_ & t' & name & Ht' & Hs). congruence.
        -- split; [|reflexivity]. intros _. now exists v.
        -- intros out. split; [discriminate|].
           intros (v' & xml' & [= <-] & Hg & _). congruence.
  - pose proof (parse_error _ _ Ep) as ->.
    assert (Hr : run text = Raise UnexpectedInput).
    { unfold run. now rewrite Ep. }
    assert (Hm : main text = Exit1 SyntaxErrorMessage).
    { unfold main. now rewrite Hr. }
    rewrite Hm, Hr. split; [split; reflexivity|]. split; [|split].
    + intros m. split; [discriminate|].
      intros (_ & t' & name & Ht' & _). discriminate Ht'.
    + split; [discriminate|]. intros (v & Hv & _). discriminate Hv.
    + intros out. split; [discriminate|]. intros (v & xml & Hv & _).
      discriminate Hv.
Qed.

Lemma main_outcomes_witness :
  main "def A = 1 ?[B]" = Exit1 (RuntimeErrorMessage undefined_constant_message).
Proof.
  assert (Ha : forallb_str is_ascii "def A = 1 ?[B]" = true) by reflexivity.
  assert (Hn : numerals_ok "def A = 1 ?[B]").
  { intros toks H. vm_compute in H. injection H as <-.
    repeat (apply Forall_cons; [intros H; try discriminate H|]);
      [|apply Forall_nil].
    unfold int_max_str_digits. simpl. lia. }
  apply (proj1 (proj2 (main_outcomes "def A = 1 ?[B]" Ha Hn))).
  split; [reflexivity|].
  eexists _, "B". split; vm_compute; reflexivity.
Defined.

(** X24. For a file with no item or with several items, so that the
    result is a dictionary, the run prints its XML exactly when every text
    of the result is made of characters that XML allows, and it ends with
    the unexpected-error message exactly when some text is not. *)
Theorem run_prints_iff_texts_ok (text : string) (d : dict pyobj) :
  run text = Ok (PDict d) ->
  ((exists out, main text = Exit0 out) <-> texts_ok (PDict d))
  /\ (main text = Exit1 UnexpectedErrorMessage <-> ~ texts_ok (PDict d)).
Proof.
  intros Hr.
  assert (Hd : Forall (fun kv => xml_name_ok (fst kv) = true
                                 /\ spec_value (snd kv)) d).
  { pose proof Hr as H. apply run_dict_inv in H as (items & Hitems & ->).
    apply dict_writes_Forall; [|constructor].
    pose proof (entries_program_keys items Hitems 0) as H.
    rewrite Forall_forall in *. intros kv Hin. destruct (H kv Hin). tauto. }
  pose proof (generate_xml_of_texts_ok d "config" eq_refl Hd) as Hok.
  pose proof (fun xml => generate_xml_texts_ok d "config" xml Hd) as Hback.
  unfold main. rewrite Hr. cbn [bind].
  destruct (generate_xml_from_dict (PDict d) "config") as [xml|e] eqn:Eg.
  - pose proof (Hback xml eq_refl) as Ht. split.
    + split; [intros _; exact Ht | intros _; eauto].
    + split; [discriminate | intros Hn; now destruct Hn].
  - pose proof (generate_xml_error _ _ _ Eg) as ->. cbn [handle].
    assert (Hn : ~ texts_ok (PDict d)).
    { intros Ht. destruct (Hok Ht) as [x Hx]. discriminate Hx. }
    split.
    + split; [intros [x Hx]; discriminate Hx | intros Ht; now destruct Hn].
    + split; [intros _; exact Hn | reflexivity].
Qed.

Lemma run_prints_iff_texts_ok_witness :
  ((exists out, main mixed_input = Exit0 out)
   <-> texts_ok (PDict [("A", PInt 1); ("item_0", PInt 2); ("B", PInt 3);
                        ("item_1", PInt 4)]))
  /\ (main mixed_input = Exit1 UnexpectedErrorMessage
      <-> ~ texts_ok (PDict [("A", PInt 1); ("item_0", PInt 2); ("B", PInt 3);
                             ("item_1", PInt 4)])).
Proof.
  apply (run_prints_iff_texts_ok mixed_input). vm_compute; reflexivity.
Defined.

(** ** What the element tree keeps *)

Lemma element_tree_value (v1 : pyobj) :
  spec_value v1 -> forall v2 tag1 tag2, spec_value v2 ->
  (_to_xml_recurse (new_element tag1) v1 = _to_xml_recurse (new_element tag2) v2
   <-> tag1 = tag2 /\ as_text v1 = as_text v2).
Proof.
  induction v1 as [z|s|l IH|n v IH|d IH] using pyobj_ind2;
    intros Hs1 v2 tag1 tag2 Hs2; try (now destruct Hs1);
    destruct v2 as [z2|s2|l2|n2 w2|d2]; try (now destruct Hs2);
    rewrite !to_xml_recurse_new; cbn [py_str py_repr as_text];
    try (split; [intros [= -> ->]; auto | intros [-> [= ->]]; reflexivity]);
    try (split; [intros H; discriminate H | intros [_ H]; discriminate H]).
  apply spec_value_list in Hs1. apply spec_value_list in Hs2.
  assert (Hmap : map (fun x => _to_xml_recurse (new_element "item") x) l
                 = map (fun x => _to_xml_recurse (new_element "item") x) l2
                 <-> map as_text l = map as_text l2).
  { revert l2 Hs2. induction l as [|x l IHl]; intros [|x2 l2] Hs2;
      try (split; intros H; [reflexivity | reflexivity]);
      try (split; intros H; discriminate H).
    inversion IH as [|? ? IHx IHrest]; subst.
    inversion Hs1 as [|? ? Hx Hl]; subst.
    inversion Hs2 as [|? ? Hx2 Hl2]; subst.
    cbn [map]. split.
    - intros [= H1 H2]. f_equal.
      + now apply (IHx Hx x2 "item" "item" Hx2).
      + now apply (IHl IHrest Hl l2 Hl2).
    - intros [= H1 H2]. f_equal.
      + now apply (IHx Hx x2 "item" "item" Hx2).
      + now apply (IHl IHrest Hl l2 Hl2). }
  split.
  - intros [= -> H]. split; [reflexivity|]. f_equal. now apply Hmap.
  - intros [-> [= H]]. do 3 f_equal. now apply Hmap.
Qed.

(** X25. The element tree keeps the whole document except the types of
    its scalars: two documents give the same tree exactly when they have
    the same keys in the same order and their values are equal once every
    number is replaced by its numeral.  Keys, order, nesting and texts can
    all be read off the tree; whether a scalar was a number or a text
    cannot. *)
Theorem element_tree_keeps_all_but_types
    (d1 d2 : dict pyobj) (root_name : string) :
  Forall (fun kv => spec_value (snd kv)) d1 ->
  Forall (fun kv => spec_value (snd kv)) d2 ->
  (_to_xml_recurse (new_element root_name) (PDict d1)
   = _to_xml_recurse (new_element root_name) (PDict d2)
   <-> as_text (PDict d1) = as_text (PDict d2)).
Proof.
  intros H1 H2. rewrite !to_xml_recurse_new. cbn [as_text].
  assert (Hmap : map (fun kv => _to_xml_recurse (new_element (fst kv)) (snd kv)) d1
                 = map (fun kv => _to_xml_recurse (new_element (fst kv)) (snd kv)) d2
                 <-> map (fun kv => (fst kv, as_text (snd kv))) d1
                     = map (fun kv => (fst kv, as_text (snd kv))) d2).
  { revert d2 H2. induction H1 as [|[k v] d1 Hv _ IH]; intros [|[k2 v2] d2] H2;
      try (split; intros H; [reflexivity | reflexivity]);
      try (split; intros H; discriminate H).
    inversion H2 as [|? ? Hv2 Hd2]; subst. cbn [map fst snd] in *. split.
    - intros [= Ha Hb].
      apply (element_tree_value v Hv v2 k k2 Hv2) in Ha as [-> ->].
      f_equal. now apply IH.
    - intros [= -> Ha Hb]. f_equal.
      + now apply (element_tree_value v Hv v2 k2 k2 Hv2).
      + now apply IH. }
  split.
  - intros [= H]. f_equal. now apply Hmap.
  - intros [= H]. f_equal. now apply Hmap.
Qed.

Lemma element_tree_keeps_all_but_types_witness :
  _to_xml_recurse (new_element "config") (PDict [("A", PList [PInt 1; PStr "x"])])
  = _to_xml_recurse (new_element "config") (PDict [("A", PList [PStr "1"; PStr "x"])])
  <-> as_text (PDict [("A", PList [PInt 1; PStr "x"])])
      = as_text (PDict [("A", PList [PStr "1"; PStr "x"])]).
Proof.
  apply element_tree_keeps_all_but_types; repeat constructor.
Defined.

(** ** Lexical errors *)

Lemma until_close_contains (s : string) :
  until_close s = None <-> contains "#|" s = false.
Proof.
  induction s as [|c r IH]; [split; reflexivity|].
  cbn [until_close contains].
  destruct (startswith "#|" (String c r)); cbn [orb].
  - split; discriminate.
  - rewrite <- IH. destruct (until_close r) as [[a b]|]; split;
      try discriminate; reflexivity.
Qed.

Lemma next_token_open_comment (body : string) :
  until_close body = None -> next_token ("|#" ++ body) = None.
Proof.
  intros H. unfold next_token, terminals. cbn [first_match].
  change (match_literal "def" ("|#" ++ body)) with (@None (string * string)).
  change (match_literal "=" ("|#" ++ body)) with (@None (string * string)).
  change (match_literal "{" ("|#" ++ body)) with (@None (string * string)).
  change (match_literal "}" ("|#" ++ body)) with (@None (string * string)).
  change (match_literal "," ("|#" ++ body)) with (@None (string * string)).
  change (match_literal "?" ("|#" ++ body)) with (@None (string * string)).
  change (match_literal "[" ("|#" ++ body)) with (@None (string * string)).
  change (match_literal "]" ("|#" ++ body)) with (@None (string * string)).
  change (match_NAME ("|#" ++ body)) with (@None (string * string)).
  change (match_NUMBER ("|#" ++ body)) with (@None (string * string)).
  change (match_STRING_DOUBLE ("|#" ++ body)) with (@None (string * string)).
  change (match_COMMENT_SINGLE ("|#" ++ body)) with (@None (string * string)).
  change (match_WS ("|#" ++ body)) with (@None (string * string)).
  cbv iota. unfold match_COMMENT_MULTI.
  change (startswith "|#" ("|#" ++ body)) with true. cbv iota.
  change (drop 2 ("|#" ++ body)) with body. now rewrite H.
Qed.

Lemma next_token_open_string (body : string) :
  forallb_str not_dquote body = true -> next_token (dq ++ body) = None.
Proof.
  intros H. unfold next_token, terminals. cbn [first_match].
  change (match_literal "def" (dq ++ body)) with (@None (string * string)).
  change (match_literal "=" (dq ++ body)) with (@None (string * string)).
  change (match_literal "{" (dq ++ body)) with (@None (string * string)).
  change (match_literal "}" (dq ++ body)) with (@None (string * string)).
  change (match_literal "," (dq ++ body)) with (@None (string * string)).
  change (match_literal "?" (dq ++ body)) with (@None (string * string)).
  change (match_literal "[" (dq ++ body)) with (@None (string * string)).
  change (match_literal "]" (dq ++ body)) with (@None (string * string)).
  change (match_NAME (dq ++ body)) with (@None (string * string)).
  change (match_NUMBER (dq ++ body)) with (@None (string * string)).
  change (match_COMMENT_SINGLE (dq ++ body)) with (@None (string * string)).
  change (match_COMMENT_MULTI (dq ++ body)) with (@None (string * string)).
  change (match_WS (dq ++ body)) with (@None (string * string)).
  cbv iota.
  assert (E : match_STRING_DOUBLE (dq ++ body) = None).
  { change (dq ++ body) with (String "034" body). unfold match_STRING_DOUBLE.
    rewrite Ascii.eqb_refl. rewrite <- (append_nil_r body) at 1.
    now rewrite (span_app not_dquote body "" H I). }
  now rewrite E.
Qed.

Lemma main_lex_error (text : string) :
  lex text = None -> main text = Exit1 SyntaxErrorMessage.
Proof. intros H. unfold main, run, parse. now rewrite H. Qed.

(** After an accepted text and a line break, a text at whose start no
    terminal matches makes the whole a syntax error. *)
Lemma lex_error_after (a b : string) (ta : list Token) :
  lex_all a = Some ta -> b <> "" -> next_token b = None ->
  lex (a ++ nl ++ b) = None.
Proof.
  intros Ha Hb Hn. rewrite (lex_app_nl _ _ _ Ha). unfold lex.
  rewrite (lex_all_step b Hb), Hn. reflexivity.
Qed.

(** X26. A block comment that is never closed and a string literal that is
    never closed are syntax errors, wherever they start: after any accepted
    text and a line break, the mark [|#] followed by a text without [#|],
    and a double quote followed by a text without a double quote, make the
    run end with the syntax-error message and exit status 1. *)
Theorem unclosed_comment_or_string_is_a_syntax_error
    (a body : string) (ta : list Token) :
  lex_all a = Some ta ->
  (contains "#|" body = false ->
   main (a ++ nl ++ "|#" ++ body) = Exit1 SyntaxErrorMessage)
  /\ (forallb_str not_dquote body = true ->
      main (a ++ nl ++ dq ++ body) = Exit1 SyntaxErrorMessage).
Proof.
  intros Ha. split; intros H; apply main_lex_error;
    apply (lex_error_after a _ ta Ha); try discriminate.
  - apply next_token_open_comment. now apply until_close_contains.
  - now apply next_token_open_string.
Qed.

Lemma unclosed_comment_or_string_is_a_syntax_error_witness :
  (contains "#|" " never closed" = false ->
   main (single_definition_input ++ nl ++ "|#" ++ " never closed")
   = Exit1 SyntaxErrorMessage)
  /\ (forallb_str not_dquote " never closed" = true ->
      main (single_definition_input ++ nl ++ dq ++ " never closed")
      = Exit1 SyntaxErrorMessage).
Proof.
  apply (unclosed_comment_or_string_is_a_syntax_error single_definition_input
           " never closed"
           [mkToken DEF "def"; mkToken WS " "; mkToken NAME "A"; mkToken WS " ";
            mkToken EQUAL "="; mkToken WS " "; mkToken NUMBER "1"]).
  vm_compute; reflexivity.
Defined.

(** ** The parse tree *)

(** The literal terminals give their literal, the others a lexeme of
    their pattern. *)
Lemma next_token_token_ok (s : string) (tok : Token) (rest : string) :
  next_token s = Some (tok, rest) -> token_ok tok.
Proof.
  intros H. pose proof (next_token_shape _ _ _ H) as Hs.
  apply first_match_In in H as (m & Hin & Hm).
  destruct tok as [t lexeme]. unfold token_ok. cbn [type value] in *.
  unfold terminals in Hin. cbn [In] in Hin.
  repeat (destruct Hin as [Hin|Hin];
          [injection Hin as <- <-;
           first [ exact Hs
                 | revert Hm; unfold match_literal;
                   destruct (startswith _ s);
                   [now intros [= <- _] | discriminate] ]
          |]).
  contradiction.
Qed.

Lemma lex_all_token_ok (s : string) (toks : list Token) :
  lex_all s = Some toks -> Forall token_ok toks.
Proof.
  revert s toks. apply lex_all_ind; [constructor|].
  intros s tok rest toks _ E _ IH. constructor; [|exact IH].
  now apply next_token_token_ok in E.
Qed.

Lemma lex_token_ok (s : string) (toks : list Token) :
  lex s = Some toks -> Forall token_ok toks.
Proof.
  unfold lex. destruct (lex_all s) as [all|] eqn:E; [|discriminate].
  intros [= <-]. apply significant_Forall. now apply lex_all_token_ok in E.
Qed.

Lemma wf_value_array (cs : list Tree) :
  wf_value (T_array cs) <-> cs <> [] /\ Forall wf_value cs.
Proof.
  cbn [wf_value].
  assert (H : (fix all (cs : list Tree) : Prop :=
                 match cs with
                 | [] => True
                 | c :: cs' => wf_value c /\ all cs'
                 end) cs <-> Forall wf_value cs).
  { induction cs as [|c cs IH]; split; intros H.
    - constructor.
    - exact I.
    - destruct H as [Hc Hcs]. constructor; [exact Hc | now apply IH].
    - inversion H; subst. split; [assumption | now apply IH]. }
  now rewrite H.
Qed.

(** A derivation from well-formed tokens gives a well-formed tree. *)
Lemma derives_wf_value :
  (forall toks v, derives_value toks v -> Forall token_ok toks -> wf_value v)
  /\ (forall toks cs, derives_elements toks cs ->
        Forall token_ok toks -> Forall wf_value cs).
Proof.
  apply derives_mutind.
  - intros tok Ht H. inversion H; subst. now split.
  - intros tok Ht H. inversion H; subst. now split.
  - intros q l n r Hq Hl Hn Hr H.
    inversion H as [|? ? Tq H1]; subst. inversion H1 as [|? ? Tl H2]; subst.
    inversion H2 as [|? ? Tn H3]; subst. inversion H3 as [|? ? Tr _]; subst.
    cbn [wf_value]. tauto.
  - intros lbrace rbrace toks cs _ _ Hd IH H.
    inversion H as [|? ? _ H1]; subst. apply Forall_app in H1 as [H1 _].
    apply wf_value_array. split; [|now apply IH].
    now apply (derives_elements_nonempty toks).
  - intros toks v _ IH H. constructor; [now apply IH | constructor].
  - intros toks toks' comma cs v _ IHcs _ _ IHv H.
    apply Forall_app in H as [H1 H2]. inversion H2; subst.
    apply Forall_app. split; [now apply IHcs|].
    constructor; [now apply IHv | constructor].
Qed.

Lemma wf_value_item (t : Tree) : wf_value t -> wf_item t.
Proof. destruct t; simpl; tauto. Qed.

Lemma derives_wf_item (toks : list Token) (t : Tree) :
  derives_item toks t -> Forall token_ok toks -> wf_item t.
Proof.
  intros [d n e toks' v Td Tn Te Hv | toks' v Hv] H.
  - inversion H as [|? ? _ H1]; subst. inversion H1 as [|? ? Hn H2]; subst.
    inversion H2 as [|? ? _ H3]; subst. cbn [wf_item].
    split; [now split|]. now apply (proj1 derives_wf_value toks').
  - now apply wf_value_item, (proj1 derives_wf_value toks').
Qed.

Lemma derives_wf_items (toks : list Token) (cs : list Tree) :
  derives_start toks cs -> Forall token_ok toks -> Forall wf_item cs.
Proof.
  induction 1 as [|toks toks' items item _ IH Hi]; intros H; [constructor|].
  apply Forall_app in H as [H1 H2]. apply Forall_app. split; [now apply IH|].
  constructor; [now apply (derives_wf_item toks') | constructor].
Qed.

(** X27. Every tree that the parser returns is a tree of the grammar.  It
    is a single item, or a [start] node whose children are items and are
    not exactly one.  An item is a value or the assignment of a value to a
    NAME; a value is a number, a string, a reference or an array of one or
    more values.  So assignments occur at top level only, and every token
    in the tree, the question mark and the brackets of a reference
    included, is of the terminal that its place needs and has a lexeme of
    that terminal. *)
Theorem parse_tree_is_well_formed (text : string) (t : Tree) :
  parse text = Ok t ->
  wf_item t
  \/ exists cs, t = T_start cs /\ Forall wf_item cs /\ length cs <> 1%nat.
Proof.
  intros H. apply parse_inv in H as (toks & cs & Hl & Hp & _ & ->).
  assert (Hcs : Forall wf_item cs).
  { apply (derives_wf_items toks); [now apply parse_items_sound|].
    now apply (lex_token_ok text). }
  destruct cs as [|c [|c' cs]]; cbn [expand1_start].
  - right. exists []. repeat split; [constructor | discriminate].
  - left. now inversion Hcs.
  - right. exists (c :: c' :: cs). repeat split; [exact Hcs | discriminate].
Qed.

Lemma parse_tree_is_well_formed_witness :
  wf_item (T_assign_const (mkToken NAME "A") (T_number (mkToken NUMBER "1")))
  \/ exists cs,
       T_assign_const (mkToken NAME "A") (T_number (mkToken NUMBER "1"))
       = T_start cs
       /\ Forall wf_item cs /\ length cs <> 1%nat.
Proof.
  apply (parse_tree_is_well_formed single_definition_input). reflexivity.
Defined.
